(** * SPH-1: position-based fluid step and partition controller

    A shallow embedding of [src/fluid.c] (kernels, constraint multiplier,
    velocity reconstruction, out-of-bounds scan, boundary conditions) and of
    the partition operations of [src/tunable_parameters.cpp].

    Conventions of the embedding.
    - A C [float] is idealised as a real number: every arithmetic operation
      is exact, no rounding, overflow or NaN is modelled.  [sqrt] is the real
      square root and [M_PI] is [PI].
    - A C [int] is an integer of [Z]; the counters of this program stay far
      from the 32-bit range and wrap-around is not modelled.
    - A C array is a list that fixes its capacity.  Reading or writing
      outside of it is undefined behaviour in C; the embedding makes such an
      access fail ([None]) and every function that touches an array runs in
      the option monad.
    - The headers that declare the structs are not among the sources; a
      record lists the members that the embedded functions use, with the
      types their use implies. *)

From Stdlib Require Import Reals Lra Lia ZArith Sorted.
From stdpp Require Import base option list.

(** Comparisons of reals are decided by the trichotomy of [R]; a C condition
    on floats becomes an [if decide (...)]. *)
#[global] Instance Rlt_decision (x y : R) : Decision (x < y)%R := Rlt_dec x y.
#[global] Instance Rle_decision (x y : R) : Decision (x <= y)%R := Rle_dec x y.
#[global] Instance Rgt_decision (x y : R) : Decision (x > y)%R := Rgt_dec x y.
#[global] Instance Rge_decision (x y : R) : Decision (x >= y)%R := Rge_dec x y.

(** ** Arrays and counted loops *)

Module Mem.

(** [a[i]] as an r-value. *)
Definition load {A} (a : list A) (i : Z) : option A :=
  if decide (0 <= i)%Z then a !! Z.to_nat i else None.

(** [a[i] = v]. *)
Definition store {A} (a : list A) (i : Z) (v : A) : option (list A) :=
  if decide (0 <= i < Z.of_nat (length a))%Z
  then Some (<[Z.to_nat i := v]> a) else None.

(** [for (i = start; ...; i++) body], unrolled [fuel] times. *)
Fixpoint for_from {St} (fuel : nat) (i : Z) (body : Z -> St -> option St)
    (s : St) : option St :=
  match fuel with
  | O => Some s
  | S k => s' ← body i s; for_from k (i + 1)%Z body s'
  end.

(** [for (i = 0; i < n; i++) body]. *)
Definition for_loop {St} (n : Z) (body : Z -> St -> option St) (s : St)
    : option St :=
  for_from (Z.to_nat n) 0%Z body s.

End Mem.

(** ** Partition controller ([tunable_parameters.cpp]) *)

Module Tunable.
Import Mem.
Local Open Scope R_scope.

(** The members of [TunableParameters] that the partition operations read
    or write.  [proc_starts] and [proc_ends] are the fixed-capacity arrays of
    per-rank interval bounds. *)
Record TunableParameters := mkTunable {
  smoothing_radius : R;
  proc_starts : list R;
  proc_ends : list R;
  num_compute_procs_active : Z;
  num_compute_procs : Z
}.

Definition set_table (t : TunableParameters) (starts ends : list R)
    (active : Z) : TunableParameters :=
  {| smoothing_radius := smoothing_radius t;
     proc_starts := starts;
     proc_ends := ends;
     num_compute_procs_active := active;
     num_compute_procs := num_compute_procs t |}.

(** [TunableParameters::remove_partition]. *)
Definition remove_partition (t : TunableParameters)
    : option TunableParameters :=
  if decide (num_compute_procs_active t = 1)%Z then Some t else
  let removed_rank := (num_compute_procs_active t - 1)%Z in
  e ← load (proc_ends t) removed_rank;
  ends1 ← store (proc_ends t) (removed_rank - 1)%Z e;
  e1 ← load ends1 removed_rank;
  let position := e1 + 1 in
  starts1 ← store (proc_starts t) removed_rank position;
  ends2 ← store ends1 removed_rank position;
  Some (set_table t starts1 ends2 (num_compute_procs_active t - 1)%Z).

(** [TunableParameters::add_partition]. *)
Definition add_partition (t : TunableParameters)
    : option TunableParameters :=
  if decide (num_compute_procs_active t = num_compute_procs t) then Some t
  else
  let last := (num_compute_procs_active t - 1)%Z in
  e ← load (proc_ends t) last;
  s ← load (proc_starts t) last;
  let length := e - s in
  if decide (length < 2.5 * smoothing_radius t) then Some t else
  e1 ← load (proc_ends t) last;
  ends1 ← store (proc_ends t) (num_compute_procs_active t) e1;
  s1 ← load (proc_starts t) last;
  let new_x := s1 + length * 0.5 in
  ends2 ← store ends1 last new_x;
  starts1 ← store (proc_starts t) (num_compute_procs_active t) new_x;
  Some (set_table t starts1 ends2 (num_compute_procs_active t + 1)%Z).

(** A command of the render process, and a run of commands. *)
Inductive command := Add | Remove.

Definition apply_command (c : command) (t : TunableParameters)
    : option TunableParameters :=
  match c with
  | Add => add_partition t
  | Remove => remove_partition t
  end.

Fixpoint run (cs : list command) (t : TunableParameters)
    : option TunableParameters :=
  match cs with
  | [] => Some t
  | c :: cs' => t' ← apply_command c t; run cs' t'
  end.

(** *** The partition invariant *)

Section Invariant.
Variables min_x max_x : R.

(** The interval [[s, e]] lies entirely outside [[min_x, max_x]]. *)
Definition outside (s e : R) : Prop :=
  (s < min_x /\ e < min_x) \/ (max_x < s /\ max_x < e).

(** Active intervals are ordered and contiguous and start at [min_x]; the
    inactive ranks are parked outside the global boundary.  The first three
    fields say that the table is well formed: both arrays have a slot for
    every rank and at least one rank, at most all of them, is active. *)
Record partition_inv (t : TunableParameters) : Prop := {
  inv_capacity :
    (num_compute_procs t <= Z.of_nat (length (proc_starts t)))%Z /\
    (num_compute_procs t <= Z.of_nat (length (proc_ends t)))%Z;
  inv_active :
    (1 <= num_compute_procs_active t <= num_compute_procs t)%Z;
  inv_first : load (proc_starts t) 0 = Some min_x;
  inv_ordered : forall i s e,
    (0 <= i < num_compute_procs_active t)%Z ->
    load (proc_starts t) i = Some s -> load (proc_ends t) i = Some e ->
    s <= e;
  inv_contiguous : forall i,
    (0 <= i)%Z -> (i + 1 < num_compute_procs_active t)%Z ->
    load (proc_starts t) (i + 1) = load (proc_ends t) i;
  inv_inactive : forall i s e,
    (num_compute_procs_active t <= i < num_compute_procs t)%Z ->
    load (proc_starts t) i = Some s -> load (proc_ends t) i = Some e ->
    outside s e
}.

(** [proc_ends[last_active]]. *)
Definition last_end (t : TunableParameters) : option R :=
  load (proc_ends t) (num_compute_procs_active t - 1).

(** The active intervals cover exactly [[min_x, proc_ends[last_active]]]. *)
Definition covers (t : TunableParameters) : Prop :=
  exists e_last, last_end t = Some e_last /\
  forall x, min_x <= x <= e_last <->
    exists i s e, (0 <= i < num_compute_procs_active t)%Z /\
      load (proc_starts t) i = Some s /\ load (proc_ends t) i = Some e /\
      s <= x <= e.

(** The last active interval reaches the right edge of the simulation, up
    to the offset that [remove_partition] parks a removed rank at. *)
Definition reaches_max (t : TunableParameters) : Prop :=
  exists e_last, last_end t = Some e_last /\ max_x < e_last + 1.

End Invariant.

(** Sample tables over the domain [[0, 10]], with smoothing radius [1]: one
    rank owning the whole domain and two parked ranks; two active ranks that
    stop at [4] and one parked rank; two ranks, both active. *)
Definition whole_domain_table : TunableParameters :=
  mkTunable 1 [0; 11; 11] [10; 11; 11] 1 3.

Definition short_table : TunableParameters :=
  mkTunable 1 [0; 2; 11] [2; 4; 11] 2 3.

Definition full_table : TunableParameters :=
  mkTunable 1 [0; 5] [5; 10] 2 2.

End Tunable.

(** ** The fluid step ([fluid.c]) *)

Module Fluid.
Import Mem.
Local Open Scope R_scope.

(** *** Data *)

(** [fluid_particle_t]. *)
Record fluid_particle_t := mkParticle {
  x : R; y : R;
  x_star : R; y_star : R;
  v_x : R; v_y : R;
  density : R;
  lambda : R;
  dp_x : R; dp_y : R
}.

Definition set_x_star (p : fluid_particle_t) (v : R) : fluid_particle_t :=
  mkParticle (x p) (y p) v (y_star p) (v_x p) (v_y p)
    (density p) (lambda p) (dp_x p) (dp_y p).

Definition set_y_star (p : fluid_particle_t) (v : R) : fluid_particle_t :=
  mkParticle (x p) (y p) (x_star p) v (v_x p) (v_y p)
    (density p) (lambda p) (dp_x p) (dp_y p).

Definition set_velocity (p : fluid_particle_t) (vx vy : R)
    : fluid_particle_t :=
  mkParticle (x p) (y p) (x_star p) (y_star p) vx vy
    (density p) (lambda p) (dp_x p) (dp_y p).

Definition set_lambda (p : fluid_particle_t) (v : R) : fluid_particle_t :=
  mkParticle (x p) (y p) (x_star p) (y_star p) (v_x p) (v_y p)
    (density p) v (dp_x p) (dp_y p).

(** A [fluid_particle_t *] is the index of the record in particle memory. *)
Definition pointer := Z.
Bind Scope Z_scope with pointer.

(** [neighbor_t]: the first [number_fluid_neighbors] entries of
    [fluid_neighbors] are the neighbours of one particle. *)
Record neighbor_t := mkNeighbor {
  fluid_neighbors : list pointer;
  number_fluid_neighbors : Z
}.

(** [AABB_t]. *)
Record AABB_t := mkAABB {
  min_x : R; max_x : R;
  min_y : R; max_y : R
}.

(** The members of [tunable_parameters_t] read by the fluid step. *)
Record tunable_parameters_t := mkTunableParams {
  smoothing_radius : R;
  rest_density : R;
  time_step : R;
  mover_center_x : R;
  mover_center_y : R;
  mover_width : R;
  node_start_x : R;
  node_end_x : R
}.

(** [param_t]. *)
Record param_t := mkParam {
  tunable_params : tunable_parameters_t;
  number_fluid_particles_local : Z;
  number_halo_particles : Z
}.

(** [oob_t]: two index queues, each with the number of valid entries. *)
Record oob_t := mkOob {
  oob_pointer_indices_left : list Z;
  oob_pointer_indices_right : list Z;
  number_oob_particles_left : Z;
  number_oob_particles_right : Z
}.

(** [fluid_sim_t].  [fluid_particles] is the memory that holds the particle
    records; [fluid_particle_pointers] lists the local particles first and
    the halo particles after them; [neighbors] is
    [neighbor_grid->neighbors]. *)
Record fluid_sim_t := mkSim {
  fluid_particles : list fluid_particle_t;
  fluid_particle_pointers : list pointer;
  neighbors : list neighbor_t;
  params : param_t;
  boundary_global : AABB_t;
  out_of_bounds : oob_t
}.

Definition set_fluid_particles (sim : fluid_sim_t)
    (ps : list fluid_particle_t) : fluid_sim_t :=
  mkSim ps (fluid_particle_pointers sim) (neighbors sim) (params sim)
    (boundary_global sim) (out_of_bounds sim).

Definition set_out_of_bounds (sim : fluid_sim_t) (o : oob_t) : fluid_sim_t :=
  mkSim (fluid_particles sim) (fluid_particle_pointers sim) (neighbors sim)
    (params sim) (boundary_global sim) o.

(** [*p] and [*p = v]. *)
Definition deref (sim : fluid_sim_t) (p : pointer) : option fluid_particle_t :=
  load (fluid_particles sim) p.

Definition assign (sim : fluid_sim_t) (p : pointer) (v : fluid_particle_t)
    : option fluid_sim_t :=
  ps ← store (fluid_particles sim) p v; Some (set_fluid_particles sim ps).

(** *** Smoothing kernels *)

(** [W]: [(h^2 - r^2)^3] normalised in 2D. *)
Definition W (r h : R) : R :=
  if decide (r > h) then 0 else
  let C := 4 / (PI * h * h * h * h * h * h * h * h) in
  C * (h * h - r * r) * (h * h - r * r) * (h * h - r * r).

(** [del_W]: gradient of [(h - r)^3] normalised in 2D. *)
Definition del_W (r h : R) : R :=
  if decide (r > h) then 0 else
  let eps := 0.000001 in
  let coef := - 30 / PI in
  let C := coef / (h * h * h * h * h * (r + eps)) in
  C * (h - r) * (h - r).

(** *** Constraint multiplier *)

(** The factor [(1.0f/rest_density*rest_density)] that [calculate_lambda]
    multiplies [sum_C] by; C parses it as [(1.0f/rest_density)*rest_density]. *)
Definition sum_C_scale (rest_density : R) : R :=
  1 / rest_density * rest_density.

(** The body of the first inner loop of [calculate_lambda]: neighbour [q]
    adds [grad * diff] to the running gradient of particle [p]. *)
Definition add_gradient (h : R) (p q : fluid_particle_t) (g : R * R) : R * R :=
  let x_diff := x_star p - x_star q in
  let y_diff := y_star p - y_star q in
  let r_mag := sqrt (x_diff * x_diff + y_diff * y_diff) in
  let grad := del_W r_mag h in
  (g.1 + grad * x_diff, g.2 + grad * y_diff).

(** The body of the second inner loop: neighbour [q] adds the squared norm
    of its own gradient to [sum_C]. *)
Definition add_neighbor_term (h : R) (p q : fluid_particle_t) (sum_C : R) : R :=
  let x_diff := x_star p - x_star q in
  let y_diff := y_star p - y_star q in
  let r_mag := sqrt (x_diff * x_diff + y_diff * y_diff) in
  let grad := del_W r_mag h in
  let grad_x := grad * x_diff in
  let grad_y := grad * y_diff in
  sum_C + (grad_x * grad_x + grad_y * grad_y).

(** [calculate_lambda]. *)
Definition calculate_lambda (sim : fluid_sim_t) : option fluid_sim_t :=
  let params := params sim in
  for_loop (number_fluid_particles_local params) (fun i sim =>
    p ← load (fluid_particle_pointers sim) i;
    n ← load (neighbors sim) i;
    pr ← deref sim p;
    let Ci := density pr / rest_density (tunable_params params) - 1 in
    let sum_C := 0 in
    g ← for_loop (number_fluid_neighbors n) (fun j g =>
           q ← load (fluid_neighbors n) j;
           pr ← deref sim p;
           qr ← deref sim q;
           Some (add_gradient (smoothing_radius (tunable_params params))
                   pr qr g))
         (0, 0);
    let sum_C := sum_C + (g.1 * g.1 + g.2 * g.2) in
    sum_C ← for_loop (number_fluid_neighbors n) (fun j sum_C =>
           q ← load (fluid_neighbors n) j;
           pr ← deref sim p;
           qr ← deref sim q;
           Some (add_neighbor_term (smoothing_radius (tunable_params params))
                   pr qr sum_C))
         sum_C;
    let sum_C := sum_C * sum_C_scale (rest_density (tunable_params params)) in
    let epsilon := 1 in
    pr ← deref sim p;
    assign sim p (set_lambda pr (- Ci / (sum_C + epsilon))))
  sim.

(** *** Out-of-bounds scan *)

(** [identify_oob_particles] up to, and without, its closing call of
    [transfer_OOB_particles]. *)
Definition identify_oob_scan (sim : fluid_sim_t) : option fluid_sim_t :=
  let params := params sim in
  let sim :=
    set_out_of_bounds sim
      (mkOob (oob_pointer_indices_left (out_of_bounds sim))
             (oob_pointer_indices_right (out_of_bounds sim)) 0 0) in
  for_loop (number_fluid_particles_local params) (fun i sim =>
    p ← load (fluid_particle_pointers sim) i;
    pr ← deref sim p;
    let o := out_of_bounds sim in
    if decide (x pr < node_start_x (tunable_params params)) then
      left ← store (oob_pointer_indices_left o)
               (number_oob_particles_left o) i;
      Some (set_out_of_bounds sim
              (mkOob left (oob_pointer_indices_right o)
                 (number_oob_particles_left o + 1)
                 (number_oob_particles_right o)))
    else if decide (x pr > node_end_x (tunable_params params)) then
      right ← store (oob_pointer_indices_right o)
                (number_oob_particles_right o) i;
      Some (set_out_of_bounds sim
              (mkOob (oob_pointer_indices_left o) right
                 (number_oob_particles_left o)
                 (number_oob_particles_right o + 1)))
    else Some sim)
  sim.

(** [identify_oob_particles]; the transfer to the neighbouring ranks is
    message passing outside of this file and is taken as a parameter. *)
Definition identify_oob_particles
    (transfer_OOB_particles : fluid_sim_t -> option fluid_sim_t)
    (sim : fluid_sim_t) : option fluid_sim_t :=
  sim' ← identify_oob_scan sim; transfer_OOB_particles sim'.

(** *** Velocity reconstruction *)

(** [checkVelocity]; the two in-out pointers become a pair. *)
Definition checkVelocity (v : R * R) : R * R :=
  let v_max := 20 in
  let v_x := if decide (v.1 > v_max) then v_max
             else if decide (v.1 < - v_max) then - v_max else v.1 in
  let v_y := if decide (v.2 > v_max) then v_max
             else if decide (v.2 < - v_max) then - v_max else v.2 in
  (v_x, v_y).

(** [updateVelocity]. *)
Definition updateVelocity (p : fluid_particle_t) (params : param_t)
    : fluid_particle_t :=
  let dt := time_step (tunable_params params) in
  let v_x := (x_star p - x p) / dt in
  let v_y := (y_star p - y p) / dt in
  let v := checkVelocity (v_x, v_y) in
  set_velocity p v.1 v.2.

(** [updateVelocities]: local and halo particles alike. *)
Definition updateVelocities (sim : fluid_sim_t) : option fluid_sim_t :=
  let params := params sim in
  for_loop (number_fluid_particles_local params
            + number_halo_particles params)%Z (fun i sim =>
    p ← load (fluid_particle_pointers sim) i;
    pr ← deref sim p;
    assign sim p (updateVelocity pr params))
  sim.

(** *** Boundary conditions *)

(** [boundaryConditions]: the mover circle pushes a penetrating particle out
    to its surface, then the predicted position is clamped to the global
    box. *)
Definition boundaryConditions (p : fluid_particle_t) (sim : fluid_sim_t)
    : fluid_particle_t :=
  let boundary := boundary_global sim in
  let params := params sim in
  let center_x := mover_center_x (tunable_params params) in
  let center_y := mover_center_y (tunable_params params) in
  let radius := mover_width (tunable_params params) * 0.5 in
  let d2 := (x_star p - center_x) * (x_star p - center_x)
            + (y_star p - center_y) * (y_star p - center_y) in
  let p :=
    if decide (d2 <= radius * radius /\ d2 > 0) then
      let d := sqrt d2 in
      let norm_x := (center_x - x_star p) / d in
      let norm_y := (center_y - y_star p) / d in
      let pen_dist := radius - d in
      let p := set_x_star p (x_star p - pen_dist * norm_x) in
      set_y_star p (y_star p - pen_dist * norm_y)
    else p in
  let p :=
    if decide (x_star p < min_x boundary) then set_x_star p (min_x boundary)
    else if decide (x_star p > max_x boundary)
    then set_x_star p (max_x boundary - 0.001)
    else p in
  if decide (y_star p < min_y boundary) then set_y_star p (min_y boundary)
  else if decide (y_star p > max_y boundary)
  then set_y_star p (max_y boundary - 0.001)
  else p.

(** *** Reference formulas and views of the state

    Closed forms that the statements below compare the code with. *)

(** The records of the neighbours listed in [n], in order; [None] when [n]
    counts more neighbours than it stores or names a record outside of
    particle memory. *)
Definition neighbor_records (sim : fluid_sim_t) (n : neighbor_t)
    : option (list fluid_particle_t) :=
  if decide (number_fluid_neighbors n
             <= Z.of_nat (length (fluid_neighbors n)))%Z
  then mapM (deref sim)
         (take (Z.to_nat (number_fluid_neighbors n)) (fluid_neighbors n))
  else None.

(** The value that one pass of the outer loop of [calculate_lambda] leaves
    in [sum_C] before scaling, and the multiplier it stores, as functions of
    the particle's record [p] and its neighbours' records [qs]. *)
Definition particle_sum_C (h : R) (p : fluid_particle_t)
    (qs : list fluid_particle_t) : R :=
  let g := fold_left (fun g q => add_gradient h p q g) qs (0, 0) in
  fold_left (fun sum_C q => add_neighbor_term h p q sum_C) qs
    (0 + (g.1 * g.1 + g.2 * g.2)).

Definition particle_lambda (h rest_density : R) (p : fluid_particle_t)
    (qs : list fluid_particle_t) : R :=
  let Ci := density p / rest_density - 1 in
  - Ci / (particle_sum_C h p qs * sum_C_scale rest_density + 1).

Definition Rsum (l : list R) : R := foldr Rplus 0 l.

(** [gradW(r, h)] times the difference of the predicted positions of [p]
    and [q]: the gradient of the constraint of particle [p] with respect to
    its neighbour [q]. *)
Definition gradient_term (h : R) (p q : fluid_particle_t) : R * R :=
  let r := sqrt ((x_star p - x_star q) * (x_star p - x_star q)
                 + (y_star p - y_star q) * (y_star p - y_star q)) in
  (del_W r h * (x_star p - x_star q), del_W r h * (y_star p - y_star q)).

Definition norm2 (g : R * R) : R := g.1 * g.1 + g.2 * g.2.

(** The double sum of position-based fluids: the squared norm of the summed
    gradient terms (the particle's own gradient) plus the squared norm of
    each neighbour's term. *)
Definition pbf_gradient_sum (h : R) (p : fluid_particle_t)
    (qs : list fluid_particle_t) : R :=
  norm2 (Rsum ((gradient_term h p <$> qs).*1),
         Rsum ((gradient_term h p <$> qs).*2))
  + Rsum (norm2 <$> (gradient_term h p <$> qs)).

(** [lambda_i = - C_i / (Sigma_i + epsilon)] with [epsilon = 1.0]. *)
Definition pbf_lambda (h rest_density : R) (p : fluid_particle_t)
    (qs : list fluid_particle_t) : R :=
  let C_i := density p / rest_density - 1 in
  - C_i / (pbf_gradient_sum h p qs + 1).

(** The state [sim] with another rest density. *)
Definition with_rest_density (sim : fluid_sim_t) (rd : R) : fluid_sim_t :=
  let tp := tunable_params (params sim) in
  mkSim (fluid_particles sim) (fluid_particle_pointers sim) (neighbors sim)
    (mkParam
       (mkTunableParams (smoothing_radius tp) rd (time_step tp)
          (mover_center_x tp) (mover_center_y tp) (mover_width tp)
          (node_start_x tp) (node_end_x tp))
       (number_fluid_particles_local (params sim))
       (number_halo_particles (params sim)))
    (boundary_global sim) (out_of_bounds sim).

(** The two stages of [boundaryConditions] on bare coordinates: the push
    out of the mover circle with centre [(cx, cy)] and the clamp of one
    coordinate to [[lo, hi]]. *)
Definition mover_push (cx cy radius : R) (pos : R * R) : R * R :=
  let d2 := (pos.1 - cx) * (pos.1 - cx) + (pos.2 - cy) * (pos.2 - cy) in
  if decide (d2 <= radius * radius /\ d2 > 0) then
    let d := sqrt d2 in
    (pos.1 - (radius - d) * ((cx - pos.1) / d),
     pos.2 - (radius - d) * ((cy - pos.2) / d))
  else pos.

Definition clamp (lo hi v : R) : R :=
  if decide (v < lo) then lo
  else if decide (v > hi) then hi - 0.001
  else v.

(** The mover radius and the squared distance of a predicted position from
    the mover's centre. *)
Definition mover_radius (sim : fluid_sim_t) : R :=
  mover_width (tunable_params (params sim)) * 0.5.

Definition mover_dist2 (sim : fluid_sim_t) (p : fluid_particle_t) : R :=
  let cx := mover_center_x (tunable_params (params sim)) in
  let cy := mover_center_y (tunable_params (params sim)) in
  (x_star p - cx) * (x_star p - cx) + (y_star p - cy) * (y_star p - cy).

(** A predicted position is valid when it is inside the global box and not
    strictly inside the mover circle (the centre itself is never moved). *)
Definition valid_position (sim : fluid_sim_t) (p : fluid_particle_t) : Prop :=
  let b := boundary_global sim in
  min_x b <= x_star p <= max_x b /\ min_y b <= y_star p <= max_y b /\
  (mover_dist2 sim p = 0 \/
   mover_radius sim * mover_radius sim <= mover_dist2 sim p).

(** The [x] coordinates of the local particles, in the order of
    [fluid_particle_pointers]. *)
Definition local_xs (sim : fluid_sim_t) : option (list R) :=
  let n := number_fluid_particles_local (params sim) in
  if decide (n <= Z.of_nat (length (fluid_particle_pointers sim)))%Z
  then mapM (fun p => x <$> deref sim p)
         (take (Z.to_nat n) (fluid_particle_pointers sim))
  else None.

(** The indices, counted from [i], of the entries of [xs] that satisfy [P],
    in increasing order. *)
Fixpoint indices_where (P : R -> Prop) `{!forall v, Decision (P v)}
    (i : Z) (xs : list R) : list Z :=
  match xs with
  | [] => []
  | v :: xs' =>
      if decide (P v) then i :: indices_where P (i + 1) xs'
      else indices_where P (i + 1) xs'
  end.

(** The valid part of the two transfer queues. *)
Definition left_queue (o : oob_t) : list Z :=
  take (Z.to_nat (number_oob_particles_left o)) (oob_pointer_indices_left o).

Definition right_queue (o : oob_t) : list Z :=
  take (Z.to_nat (number_oob_particles_right o))
    (oob_pointer_indices_right o).

(** *** Sample states *)

Definition still_particle (px py : R) : fluid_particle_t :=
  mkParticle px py px py 0 0 0 0 0 0.

(** A [20 x 20] box with the given mover and no particles. *)
Definition box_sim (cx cy width : R) : fluid_sim_t :=
  mkSim [] [] []
    (mkParam (mkTunableParams 1 1 (1 / 100) cx cy width 0 20) 0 0)
    (mkAABB 0 20 0 20)
    (mkOob [] [] 0 0).

(** Three local particles and one halo particle on the rank [[4, 8]];
    particle 1 has two neighbours, the others none. *)
Definition small_sim : fluid_sim_t :=
  mkSim
    [ mkParticle 3 1 3 1 0 0 2 0 0 0;
      mkParticle 4 1 4 2 0 0 3 0 0 0;
      mkParticle 9 1 9.5 1 0 0 1 0 0 0;
      mkParticle 8 1 8 0 0 0 1 0 0 0 ]
    [0; 1; 2; 3]%Z
    [ mkNeighbor [] 0; mkNeighbor [0; 2]%Z 2; mkNeighbor [] 0 ]
    (mkParam (mkTunableParams 1 2 (1 / 100) 3 5 2 4 8) 3 1)
    (mkAABB 0 20 0 20)
    (mkOob [7; 7; 7]%Z [7; 7; 7]%Z 2 1).

End Fluid.

(** ** Parameter controls ([tunable_parameters.cpp]) *)

Module Controls.
Local Open Scope R_scope.

(** The members of [TunableParameters] that the parameter controls read or
    write; the partition table of the same class is [Tunable.TunableParameters]
    above, and no control touches it.  [selected_parameter] holds the integer
    value of a [selected_param_t]. *)
Record TunableControls := mkControls {
  selected_parameter : Z;
  g : R;
  smoothing_radius : R;
  rest_density : R;
  dq : R;
  c : R;
  k : R;
  mover_radius : R
}.

Definition set_selected_parameter (t : TunableControls) (v : Z)
    : TunableControls :=
  mkControls v (g t) (smoothing_radius t) (rest_density t) (dq t) (c t) (k t)
    (mover_radius t).

Definition set_g (t : TunableControls) (v : R) : TunableControls :=
  mkControls (selected_parameter t) v (smoothing_radius t) (rest_density t)
    (dq t) (c t) (k t) (mover_radius t).

Definition set_smoothing_radius (t : TunableControls) (v : R)
    : TunableControls :=
  mkControls (selected_parameter t) (g t) v (rest_density t) (dq t) (c t)
    (k t) (mover_radius t).

Definition set_rest_density (t : TunableControls) (v : R) : TunableControls :=
  mkControls (selected_parameter t) (g t) (smoothing_radius t) v (dq t) (c t)
    (k t) (mover_radius t).

Definition set_dq (t : TunableControls) (v : R) : TunableControls :=
  mkControls (selected_parameter t) (g t) (smoothing_radius t)
    (rest_density t) v (c t) (k t) (mover_radius t).

Definition set_c (t : TunableControls) (v : R) : TunableControls :=
  mkControls (selected_parameter t) (g t) (smoothing_radius t)
    (rest_density t) (dq t) v (k t) (mover_radius t).

Definition set_k (t : TunableControls) (v : R) : TunableControls :=
  mkControls (selected_parameter t) (g t) (smoothing_radius t)
    (rest_density t) (dq t) (c t) v (mover_radius t).

Definition set_mover_radius (t : TunableControls) (v : R) : TunableControls :=
  mkControls (selected_parameter t) (g t) (smoothing_radius t)
    (rest_density t) (dq t) (c t) (k t) v.

(** [increase_gravity]. *)
Definition increase_gravity (t : TunableControls) : TunableControls :=
  let max_grav := - 9 in
  if decide (g t > max_grav) then set_g t (g t - 1) else t.

(** [decrease_gravity]; its parameter [render_state] is not used and is left
    out.  It subtracts, like [increase_gravity]. *)
Definition decrease_gravity (t : TunableControls) : TunableControls :=
  let min_grav := 9 in
  if decide (g t < min_grav) then set_g t (g t - 1) else t.

(** [increase_density] and [decrease_density]. *)
Definition increase_density (t : TunableControls) : TunableControls :=
  let max_dens := 5 in
  if decide (rest_density t < max_dens)
  then set_rest_density t (rest_density t + 0.01) else t.

Definition decrease_density (t : TunableControls) : TunableControls :=
  let min_dens := - 5 in
  if decide (rest_density t > min_dens)
  then set_rest_density t (rest_density t - 0.01) else t.

(** [decrease_smoothing_radius] and [increase_smoothing_radius]. *)
Definition decrease_smoothing_radius (t : TunableControls) : TunableControls :=
  let min_radius := 0 in
  if decide (smoothing_radius t > min_radius)
  then set_smoothing_radius t (smoothing_radius t - 0.1) else t.

Definition increase_smoothing_radius (t : TunableControls) : TunableControls :=
  let max_radius := 5 in
  if decide (smoothing_radius t < max_radius)
  then set_smoothing_radius t (smoothing_radius t + 0.1) else t.

(** [decrease_dq] and [increase_dq]: steps and upper bound are multiples of
    the smoothing radius. *)
Definition decrease_dq (t : TunableControls) : TunableControls :=
  let min_dq := 0 in
  if decide (dq t > min_dq)
  then set_dq t (dq t - 0.05 * smoothing_radius t) else t.

Definition increase_dq (t : TunableControls) : TunableControls :=
  let max_dq := 1 * smoothing_radius t in
  if decide (dq t < max_dq)
  then set_dq t (dq t + 0.05 * smoothing_radius t) else t.

(** [increase_viscosity] and [decrease_viscosity]; the body of the first is
    read without the stray closing brace that follows its assignment. *)
Definition increase_viscosity (t : TunableControls) : TunableControls :=
  let max_viscosity := 100 in
  if decide (c t < max_viscosity) then set_c t (c t + 0.05) else t.

Definition decrease_viscosity (t : TunableControls) : TunableControls :=
  let min_viscosity := - 100 in
  if decide (c t > min_viscosity) then set_c t (c t - 0.05) else t.

(** [increase_k] and [decrease_k]. *)
Definition increase_k (t : TunableControls) : TunableControls :=
  let max_k := 5 in
  if decide (k t < max_k) then set_k t (k t + 0.05) else t.

Definition decrease_k (t : TunableControls) : TunableControls :=
  let min_k := - 5 in
  if decide (k t > min_k) then set_k t (k t - 0.05) else t.

(** [increase_mover_radius], [decrease_mover_radius] and
    [reset_mover_radius]. *)
Definition increase_mover_radius (t : TunableControls) : TunableControls :=
  let max_width := 4 in
  if decide (mover_radius t < max_width)
  then set_mover_radius t (mover_radius t + 0.2) else t.

Definition decrease_mover_radius (t : TunableControls) : TunableControls :=
  let min_width := 1 in
  if decide (mover_radius t > min_width)
  then set_mover_radius t (mover_radius t - 0.2) else t.

Definition reset_mover_radius (t : TunableControls) : TunableControls :=
  set_mover_radius t 2.

(** The selection and the dispatch on it.  The enumerators of
    [selected_param_t] are declared in a header that is not among the
    sources; their integer values are parameters. *)
Section Selection.
Variables MIN MAX : Z.
Variables GRAVITY SMOOTH DENSITY K DQ VISCOSITY : Z.

(** [move_parameter_up]. *)
Definition move_parameter_up (t : TunableControls) : TunableControls :=
  if decide (selected_parameter t = MIN) then set_selected_parameter t MAX
  else set_selected_parameter t (selected_parameter t - 1)%Z.

(** [move_parameter_down]. *)
Definition move_parameter_down (t : TunableControls) : TunableControls :=
  if decide (selected_parameter t = MAX) then set_selected_parameter t MIN
  else set_selected_parameter t (selected_parameter t + 1)%Z.

(** [increase_parameter]: a [switch] without a default. *)
Definition increase_parameter (t : TunableControls) : TunableControls :=
  if decide (selected_parameter t = GRAVITY) then increase_gravity t
  else if decide (selected_parameter t = SMOOTH)
  then increase_smoothing_radius t
  else if decide (selected_parameter t = DENSITY) then increase_density t
  else if decide (selected_parameter t = K) then increase_k t
  else if decide (selected_parameter t = DQ) then increase_dq t
  else if decide (selected_parameter t = VISCOSITY)
  then increase_viscosity t
  else t.

(** [decrease_parameter]. *)
Definition decrease_parameter (t : TunableControls) : TunableControls :=
  if decide (selected_parameter t = GRAVITY) then decrease_gravity t
  else if decide (selected_parameter t = SMOOTH)
  then decrease_smoothing_radius t
  else if decide (selected_parameter t = DENSITY) then decrease_density t
  else if decide (selected_parameter t = K) then decrease_k t
  else if decide (selected_parameter t = DQ) then decrease_dq t
  else if decide (selected_parameter t = VISCOSITY)
  then decrease_viscosity t
  else t.

(** The four parameter keys of the render process, and a run of them. *)
Inductive key := Up | Down | Increase | Decrease.

Definition press (b : key) (t : TunableControls) : TunableControls :=
  match b with
  | Up => move_parameter_up t
  | Down => move_parameter_down t
  | Increase => increase_parameter t
  | Decrease => decrease_parameter t
  end.

Definition press_all (bs : list key) (t : TunableControls) : TunableControls :=
  fold_left (fun t b => press b t) bs t.

End Selection.

(** The ranges that the bounded controls keep: each bound of the source,
    widened by one step. *)
Record in_range (t : TunableControls) : Prop := {
  range_smoothing_radius : - 0.1 <= smoothing_radius t <= 5.1;
  range_rest_density : - 5.01 <= rest_density t <= 5.01;
  range_c : - 100.05 <= c t <= 100.05;
  range_k : - 5.05 <= k t <= 5.05
}.

Definition sample_controls : TunableControls :=
  mkControls 0 6 1 1 0.3 0.05 0.1 2.

End Controls.

(** ** More of the fluid step ([fluid.c]) *)

Module FluidStep.
Import Mem Fluid.
Local Open Scope R_scope.

Definition set_position (p : fluid_particle_t) (px py : R)
    : fluid_particle_t :=
  mkParticle px py (x_star p) (y_star p) (v_x p) (v_y p)
    (density p) (lambda p) (dp_x p) (dp_y p).

Definition set_v_y (p : fluid_particle_t) (v : R) : fluid_particle_t :=
  mkParticle (x p) (y p) (x_star p) (y_star p) (v_x p) v
    (density p) (lambda p) (dp_x p) (dp_y p).

Definition set_density (p : fluid_particle_t) (v : R) : fluid_particle_t :=
  mkParticle (x p) (y p) (x_star p) (y_star p) (v_x p) (v_y p)
    v (lambda p) (dp_x p) (dp_y p).

Definition set_dp_x (p : fluid_particle_t) (v : R) : fluid_particle_t :=
  mkParticle (x p) (y p) (x_star p) (y_star p) (v_x p) (v_y p)
    (density p) (lambda p) v (dp_y p).

Definition set_dp_y (p : fluid_particle_t) (v : R) : fluid_particle_t :=
  mkParticle (x p) (y p) (x_star p) (y_star p) (v_x p) (v_y p)
    (density p) (lambda p) (dp_x p) v.

Definition set_x (p : fluid_particle_t) (v : R) : fluid_particle_t :=
  mkParticle v (y p) (x_star p) (y_star p) (v_x p) (v_y p)
    (density p) (lambda p) (dp_x p) (dp_y p).

Definition set_y (p : fluid_particle_t) (v : R) : fluid_particle_t :=
  mkParticle (x p) v (x_star p) (y_star p) (v_x p) (v_y p)
    (density p) (lambda p) (dp_x p) (dp_y p).

(** [p->field = ...]: the record is read, changed and written back. *)
Definition modify (sim : fluid_sim_t) (p : pointer)
    (f : fluid_particle_t -> fluid_particle_t) : option fluid_sim_t :=
  pr ← deref sim p; assign sim p (f pr).

(** [update_positions]. *)
Definition update_positions (sim : fluid_sim_t) : option fluid_sim_t :=
  let params := params sim in
  for_loop (number_fluid_particles_local params) (fun i sim =>
    p ← load (fluid_particle_pointers sim) i;
    sim ← modify sim p (fun pr => set_x pr (x_star pr));
    modify sim p (fun pr => set_y pr (y_star pr)))
  sim.

(** [update_dp_positions]. *)
Definition update_dp_positions (sim : fluid_sim_t) : option fluid_sim_t :=
  let params := params sim in
  for_loop (number_fluid_particles_local params) (fun i sim =>
    p ← load (fluid_particle_pointers sim) i;
    sim ← modify sim p (fun pr => set_x_star pr (x_star pr + dp_x pr));
    sim ← modify sim p (fun pr => set_y_star pr (y_star pr + dp_y pr));
    modify sim p (fun pr => boundaryConditions pr sim))
  sim.

(** [predict_positions]. *)
Definition predict_positions (sim : fluid_sim_t) : option fluid_sim_t :=
  let params := params sim in
  let dt := time_step (tunable_params params) in
  for_loop (number_fluid_particles_local params) (fun i sim =>
    p ← load (fluid_particle_pointers sim) i;
    sim ← modify sim p (fun pr => set_x_star pr (x pr + v_x pr * dt));
    sim ← modify sim p (fun pr => set_y_star pr (y pr + v_y pr * dt));
    modify sim p (fun pr => boundaryConditions pr sim))
  sim.

(** The correction that neighbour [q] adds to the running displacement of
    [p] in the inner loop of [update_dp]; [Wdq] is [W(dq, h)], and
    [powf(., 4.0f)] is the fourth power. *)
Definition add_correction (h Wdq : R) (p q : fluid_particle_t) (dp : R * R)
    : R * R :=
  let k := 0.1 in
  let x_diff := x_star p - x_star q in
  let y_diff := y_star p - y_star q in
  let r_mag := sqrt (x_diff * x_diff + y_diff * y_diff) in
  let s_corr := - k * (W r_mag h / Wdq) ^ 4 in
  let d := (lambda p + lambda q + s_corr) * del_W r_mag h in
  (dp.1 + d * x_diff, dp.2 + d * y_diff).

(** [update_dp]. *)
Definition update_dp (sim : fluid_sim_t) : option fluid_sim_t :=
  let params := params sim in
  for_loop (number_fluid_particles_local params) (fun i sim =>
    p ← load (fluid_particle_pointers sim) i;
    n ← load (neighbors sim) i;
    let dq := 0.3 * smoothing_radius (tunable_params params) in
    let Wdq := W dq (smoothing_radius (tunable_params params)) in
    dp ← for_loop (number_fluid_neighbors n) (fun j dp =>
           q ← load (fluid_neighbors n) j;
           pr ← deref sim p;
           qr ← deref sim q;
           Some (add_correction (smoothing_radius (tunable_params params))
                   Wdq pr qr dp))
         (0, 0);
    sim ← modify sim p (fun pr =>
            set_dp_x pr (dp.1 / rest_density (tunable_params params)));
    modify sim p (fun pr =>
      set_dp_y pr (dp.2 / rest_density (tunable_params params))))
  sim.

(** [calculate_density]: the contribution of [q] to the density of [p]. *)
Definition calculate_density (sim : fluid_sim_t) (p q : pointer)
    (h mass : R) : option fluid_sim_t :=
  pr ← deref sim p;
  qr ← deref sim q;
  let x_diff := x_star pr - x_star qr in
  let y_diff := y_star pr - y_star qr in
  let r_mag := sqrt (x_diff * x_diff + y_diff * y_diff) in
  if decide (r_mag <= h)
  then modify sim p (fun pr => set_density pr (density pr + mass * W r_mag h))
  else Some sim.

(** The members of the parameter structs that the records of [Fluid] do not
    carry: [params->tunable_params.g], [params->particle_mass] and
    [params->steps_per_frame]. *)
Section Members.
Variable g : R.
Variable particle_mass : R.
Variable steps_per_frame : Z.

(** [apply_gravity]. *)
Definition apply_gravity (sim : fluid_sim_t) : option fluid_sim_t :=
  let params := params sim in
  let dt := time_step (tunable_params params) in
  let g := - g in
  for_loop (number_fluid_particles_local params) (fun i sim =>
    p ← load (fluid_particle_pointers sim) i;
    modify sim p (fun pr => set_v_y pr (v_y pr + g * dt)))
  sim.

(** [compute_densities]. *)
Definition compute_densities (sim : fluid_sim_t) : option fluid_sim_t :=
  let params := params sim in
  for_loop (number_fluid_particles_local params) (fun i sim =>
    p ← load (fluid_particle_pointers sim) i;
    n ← load (neighbors sim) i;
    sim ← modify sim p (fun pr => set_density pr 0);
    sim ← calculate_density sim p p
            (smoothing_radius (tunable_params params)) particle_mass;
    for_loop (number_fluid_neighbors n) (fun j sim =>
      q ← load (fluid_neighbors n) j;
      calculate_density sim p q
        (smoothing_radius (tunable_params params)) particle_mass)
    sim)
  sim.

(** The sub-step counter at the end of the main loop of
    [start_simulation]. *)
Definition next_sub_step (sub_step : Z) : Z :=
  if decide (sub_step = steps_per_frame - 1)%Z then 0%Z
  else (sub_step + 1)%Z.

End Members.

(** *** Reference formulas *)

(** The predicted position before the boundary conditions. *)
Definition advance (dt : R) (p : fluid_particle_t) : fluid_particle_t :=
  set_y_star (set_x_star p (x p + v_x p * dt)) (y p + v_y p * dt).

Definition displace (p : fluid_particle_t) : fluid_particle_t :=
  set_y_star (set_x_star p (x_star p + dp_x p)) (y_star p + dp_y p).

Definition commit (p : fluid_particle_t) : fluid_particle_t :=
  set_position p (x_star p) (y_star p).

(** The pointers that a loop over the first [n] entries of
    [fluid_particle_pointers] visits. *)
Definition visited (sim : fluid_sim_t) (n : Z) : list pointer :=
  take (Z.to_nat n) (fluid_particle_pointers sim).

(** The predicted position lies in the global box. *)
Definition in_box (sim : fluid_sim_t) (p : fluid_particle_t) : Prop :=
  let b := boundary_global sim in
  min_x b <= x_star p <= max_x b /\ min_y b <= y_star p <= max_y b.

(** The distance of the predicted positions of two particles. *)
Definition distance (p q : fluid_particle_t) : R :=
  sqrt ((x_star p - x_star q) * (x_star p - x_star q)
        + (y_star p - y_star q) * (y_star p - y_star q)).

(** What one call of [calculate_density] makes of the density [acc] of
    [p]. *)
Definition density_step (h mass : R) (p q : fluid_particle_t) (acc : R) : R :=
  if decide (distance p q <= h) then acc + mass * W (distance p q) h
  else acc.

(** The records of the neighbours of local particle [i]. *)
Definition local_neighbors (sim : fluid_sim_t) (i : Z)
    : list fluid_particle_t :=
  default [] (nb ← load (neighbors sim) i; neighbor_records sim nb).

(** Local particle [i] has a neighbour list with valid entries. *)
Definition valid_neighbors (sim : fluid_sim_t) (n : Z) : Prop :=
  forall i, (0 <= i < n)%Z -> exists nb qs,
    load (neighbors sim) i = Some nb /\ neighbor_records sim nb = Some qs.

(** The density after [compute_densities]: the particle's own contribution
    and that of each neighbour. *)
Definition density_sum (h mass : R) (p : fluid_particle_t)
    (qs : list fluid_particle_t) : R :=
  Rsum ((fun q => mass * W (distance p q) h) <$> (p :: qs)).

(** The correction of one pair in [update_dp]. *)
Definition pair_correction (h : R) (p q : fluid_particle_t) : R * R :=
  let k := 0.1 in
  let s_corr := - k * (W (distance p q) h / W (0.3 * h) h) ^ 4 in
  let d := (lambda p + lambda q + s_corr) * del_W (distance p q) h in
  (d * (x_star p - x_star q), d * (y_star p - y_star q)).

(** The local pointers are valid. *)
Definition valid_pointers (sim : fluid_sim_t) (n : Z) : Prop :=
  forall i, (0 <= i < n)%Z -> exists p pr,
    load (fluid_particle_pointers sim) i = Some p /\ deref sim p = Some pr.

(** The density that [compute_densities] writes for local particle [i]. *)
Definition with_density (sim : fluid_sim_t) (mass : R) (i : Z)
    (pr : fluid_particle_t) : fluid_particle_t :=
  let h := smoothing_radius (tunable_params (params sim)) in
  set_density pr
    (fold_left (fun acc q => density_step h mass pr q acc)
       (pr :: local_neighbors sim i) 0).

(** The displacement that [update_dp] writes for local particle [i]. *)
Definition with_dp (sim : fluid_sim_t) (i : Z) (pr : fluid_particle_t)
    : fluid_particle_t :=
  let h := smoothing_radius (tunable_params (params sim)) in
  let rd := rest_density (tunable_params (params sim)) in
  let dp := fold_left
              (fun dp q => add_correction h (W (0.3 * h) h) pr q dp)
              (local_neighbors sim i) (0, 0) in
  set_dp_y (set_dp_x pr (dp.1 / rd)) (dp.2 / rd).

(** Slot [k] of the pointer array cannot be followed: it lies beyond the
    array, or the pointer in it lies outside of particle memory. *)
Definition dangling (sim : fluid_sim_t) (k : Z) : Prop :=
  load (fluid_particle_pointers sim) k = None \/
  exists p, load (fluid_particle_pointers sim) k = Some p /\
    deref sim p = None.

(** State [s] has the pointers and the particle capacity of [sim]. *)
Definition same_layout (sim s : fluid_sim_t) : Prop :=
  fluid_particle_pointers s = fluid_particle_pointers sim /\
  length (fluid_particles s) = length (fluid_particles sim).

(** One local particle that moves right and falls fast, in the box
    [[0, 20] x [0, 20]] with the mover of radius [2] at [(10, 10)]. *)
Definition moving_sim : fluid_sim_t :=
  mkSim [mkParticle 3 1 3 1 1 (- 30) 0 0 0 0] [0%Z] [mkNeighbor [] 0]
    (mkParam (mkTunableParams 1 2 (1 / 100) 10 10 4 0 20) 1 0)
    (mkAABB 0 20 0 20)
    (mkOob [] [] 0 0).

End FluidStep.


(** ** Facts about arrays and counted loops *)

Module MemFacts.
Import Mem.

Section Facts.
Context {A : Type}.
Implicit Types (a : list A) (i j : Z) (v : A).

Lemma load_Some a i v :
  load a i = Some v <-> (0 <= i)%Z /\ a !! Z.to_nat i = Some v.
Proof.
  unfold load. destruct (decide (0 <= i)%Z); split; intros H;
    try tauto; try discriminate.
Qed.

Lemma load_in_range a i v :
  load a i = Some v -> (0 <= i < Z.of_nat (length a))%Z.
Proof.
  intros [Hi Hl]%load_Some. apply lookup_lt_Some in Hl. lia.
Qed.

Lemma load_is_Some a i :
  (0 <= i < Z.of_nat (length a))%Z -> exists v, load a i = Some v.
Proof.
  intros Hi. destruct (lookup_lt_is_Some_2 a (Z.to_nat i)) as [v Hv];
    [lia|]. exists v. apply load_Some. split; [lia|done].
Qed.

Lemma store_Some a i v :
  (0 <= i < Z.of_nat (length a))%Z ->
  store a i v = Some (<[Z.to_nat i := v]> a).
Proof. intros Hi. unfold store. by rewrite decide_True. Qed.

Lemma store_inv a i v a' :
  store a i v = Some a' ->
  (0 <= i < Z.of_nat (length a))%Z /\ a' = <[Z.to_nat i := v]> a.
Proof.
  unfold store. destruct (decide _); intros H; [|discriminate].
  by injection H as <-.
Qed.

Lemma store_length a i v a' :
  store a i v = Some a' -> length a' = length a.
Proof. intros [_ ->]%store_inv. apply length_insert. Qed.

Lemma load_store_eq a i v a' :
  store a i v = Some a' -> load a' i = Some v.
Proof.
  intros [Hi ->]%store_inv. apply load_Some. split; [lia|].
  apply list_lookup_insert_eq. lia.
Qed.

Lemma load_store_ne a i j v a' :
  store a i v = Some a' -> i <> j -> load a' j = load a j.
Proof.
  intros [Hi ->]%store_inv Hne. unfold load.
  destruct (decide (0 <= j)%Z); [|done].
  apply list_lookup_insert_ne. lia.
Qed.
End Facts.

Section Loops.
Context {St : Type}.
Implicit Types (body : Z -> St -> option St) (s : St).

Lemma for_from_S (k : nat) i body s :
  for_from (S k) i body s = (s' ← body i s; for_from k (i + 1)%Z body s').
Proof. reflexivity. Qed.

Lemma for_from_snoc (k : nat) i body s :
  for_from (S k) i body s =
  (s' ← for_from k i body s; body (i + Z.of_nat k)%Z s').
Proof.
  revert i s. induction k as [|k IH]; intros i s.
  - simpl. replace (i + Z.of_nat 0)%Z with i by lia.
    by destruct (body i s).
  - rewrite (for_from_S (S k)), (for_from_S k).
    destruct (body i s) as [s1|]; [|done].
    change (for_from (S k) (i + 1)%Z body s1 =
      (s' ← for_from k (i + 1)%Z body s1; body (i + Z.of_nat (S k))%Z s')).
    rewrite IH. by replace (i + 1 + Z.of_nat k)%Z
      with (i + Z.of_nat (S k))%Z by lia.
Qed.

(** Loop-invariant rule: the invariant holds at counter 0, every
    iteration inside the range succeeds and carries it from [i] to
    [i + 1]; then the loop succeeds and the invariant holds at [n]. *)
Lemma for_loop_inv (I : Z -> St -> Prop) (n : Z) body s :
  (0 <= n)%Z ->
  I 0%Z s ->
  (forall i s0, (0 <= i < n)%Z -> I i s0 ->
     exists s1, body i s0 = Some s1 /\ I (i + 1)%Z s1) ->
  exists s', for_loop n body s = Some s' /\ I n s'.
Proof.
  intros Hn H0 Hstep. unfold for_loop.
  assert (forall k : nat, (Z.of_nat k <= n)%Z ->
    exists s', for_from k 0%Z body s = Some s' /\ I (Z.of_nat k) s')
    as Hk.
  { induction k as [|k IH]; intros Hle.
    - exists s. by split.
    - destruct IH as (s1 & E1 & I1); [lia|].
      destruct (Hstep (Z.of_nat k) s1) as (s2 & E2 & I2); [lia|done|].
      exists s2. rewrite for_from_snoc, E1. simpl. split; [done|].
      by replace (Z.of_nat (S k)) with (Z.of_nat k + 1)%Z by lia. }
  destruct (Hk (Z.to_nat n)) as (s' & E & HI); [lia|].
  exists s'. split; [done|]. by replace n with (Z.of_nat (Z.to_nat n)) by lia.
Qed.

Lemma for_loop_nonpos (n : Z) body s :
  (n <= 0)%Z -> for_loop n body s = Some s.
Proof.
  intros Hn. unfold for_loop. by replace (Z.to_nat n) with O by lia.
Qed.
End Loops.

(** Splits a bounded integer index into its concrete values. *)
Ltac index_cases i :=
  first
    [ assert (i = 0)%Z as -> by lia
    | assert (i = 0 \/ i = 1)%Z as [-> | ->] by lia
    | assert (i = 0 \/ i = 1 \/ i = 2)%Z as [-> | [-> | ->]] by lia
    | assert (i = 0 \/ i = 1 \/ i = 2 \/ i = 3)%Z
        as [-> | [-> | [-> | ->]]] by lia
    | exfalso; lia ].

(** Evaluates the reads of concrete arrays at concrete indices. *)
Ltac eval_load :=
  unfold load in *;
  repeat match goal with
  | H : context [decide (0 <= ?i)%Z] |- _ =>
      rewrite (decide_True (P := (0 <= i)%Z)) in H by lia
  | |- context [decide (0 <= ?i)%Z] =>
      rewrite (decide_True (P := (0 <= i)%Z)) by lia
  end;
  repeat match goal with
  | H : context [Z.to_nat ?k] |- _ =>
      let v := eval vm_compute in (Z.to_nat k) in
      change (Z.to_nat k) with v in H
  | |- context [Z.to_nat ?k] =>
      let v := eval vm_compute in (Z.to_nat k) in
      change (Z.to_nat k) with v
  end;
  cbn in *; simplify_eq.

End MemFacts.

(** ** Facts about the partition controller *)

Module TunableFacts.
Import Mem MemFacts Tunable.
Local Open Scope R_scope.

(** Reading an array after an in-range assignment. *)
Lemma load_insert {A} (a : list A) (i j : Z) (v : A) :
  (0 <= i < Z.of_nat (length a))%Z ->
  load (<[Z.to_nat i := v]> a) j = if decide (i = j) then Some v else load a j.
Proof.
  intros Hi. destruct (decide (i = j)) as [<-|Hne].
  - apply (load_store_eq a i v). by apply store_Some.
  - apply (load_store_ne a i j v); [by apply store_Some|done].
Qed.

(** The closed form of a removal that really removes a rank. *)
Lemma remove_partition_eq (t : TunableParameters) (e : R) :
  let n := num_compute_procs_active t in
  (2 <= n)%Z ->
  (n <= Z.of_nat (length (proc_starts t)))%Z ->
  (n <= Z.of_nat (length (proc_ends t)))%Z ->
  load (proc_ends t) (n - 1) = Some e ->
  remove_partition t =
    Some (set_table t
            (<[Z.to_nat (n - 1) := e + 1]> (proc_starts t))
            (<[Z.to_nat (n - 1) := e + 1]>
               (<[Z.to_nat (n - 1 - 1) := e]> (proc_ends t)))
            (n - 1)%Z).
Proof.
  intros n Hn Hs He Hl. unfold remove_partition. fold n.
  rewrite decide_False by lia. rewrite Hl. simpl.
  rewrite (store_Some (proc_ends t)) by lia. simpl.
  rewrite load_insert by lia. rewrite decide_False by lia.
  rewrite Hl. simpl.
  rewrite (store_Some (proc_starts t)) by lia. simpl.
  rewrite store_Some; [done|]. rewrite length_insert. lia.
Qed.

(** The closed form of an addition that really splits the last interval. *)
Lemma add_partition_eq (t : TunableParameters) (s e : R) :
  let n := num_compute_procs_active t in
  n <> num_compute_procs t ->
  (1 <= n)%Z ->
  (n < Z.of_nat (length (proc_starts t)))%Z ->
  (n < Z.of_nat (length (proc_ends t)))%Z ->
  load (proc_starts t) (n - 1) = Some s ->
  load (proc_ends t) (n - 1) = Some e ->
  ~ e - s < 2.5 * smoothing_radius t ->
  add_partition t =
    Some (set_table t
            (<[Z.to_nat n := s + (e - s) * 0.5]> (proc_starts t))
            (<[Z.to_nat (n - 1) := s + (e - s) * 0.5]>
               (<[Z.to_nat n := e]> (proc_ends t)))
            (n + 1)%Z).
Proof.
  intros n HN Hn Hcs Hce Hs He Hw. unfold add_partition. fold n.
  rewrite decide_False by done. rewrite He. simpl. rewrite Hs. simpl.
  rewrite decide_False by done.
  rewrite (store_Some (proc_ends t)) by lia. simpl.
  rewrite (store_Some (<[Z.to_nat n := e]> (proc_ends t)))
    by (rewrite length_insert; lia).
  simpl.
  by rewrite (store_Some (proc_starts t)) by lia.
Qed.

(** Rewrites reads of freshly assigned arrays and splits on the index. *)
Ltac load_cases :=
  cbn [proc_starts proc_ends num_compute_procs_active num_compute_procs
       smoothing_radius set_table] in *;
  repeat (rewrite load_insert in * by (rewrite ?length_insert; lia));
  repeat case_decide; try lia.

Section Preservation.
Variables min_x max_x : R.

Lemma inv_loads (t : TunableParameters) (i : Z) :
  partition_inv min_x max_x t -> (0 <= i < num_compute_procs t)%Z ->
  exists s e, load (proc_starts t) i = Some s /\ load (proc_ends t) i = Some e.
Proof.
  intros [[Hcs Hce] _ _ _ _ _] Hi.
  destruct (load_is_Some (proc_starts t) i) as [s Hs]; [lia|].
  destruct (load_is_Some (proc_ends t) i) as [e He]; [lia|].
  by exists s, e.
Qed.

Lemma remove_partition_preserves (t : TunableParameters) :
  partition_inv min_x max_x t -> reaches_max max_x t ->
  exists t', remove_partition t = Some t' /\
    partition_inv min_x max_x t' /\ last_end t' = last_end t.
Proof.
  intros Hinv (e & Hlast & Hmax). unfold last_end in *.
  destruct (decide (num_compute_procs_active t = 1%Z)) as [H1|H1].
  { exists t. unfold remove_partition. by rewrite decide_True. }
  destruct (inv_loads t (num_compute_procs_active t - 1))
    as (s1 & e1 & Hs1 & He1); [done|destruct Hinv; lia|].
  destruct (inv_loads t (num_compute_procs_active t - 1 - 1))
    as (s2 & e2 & Hs2 & He2); [done|destruct Hinv; lia|].
  eexists. split.
  { apply remove_partition_eq with (e := e); destruct Hinv; (lia || done). }
  destruct Hinv as [[Hcs Hce] Hact Hfirst Hord Hcont Hinact].
  destruct t as [h starts ends n N]. cbn in * |-.
  assert (e1 = e) as -> by congruence.
  assert (s1 = e2) as ->.
  { specialize (Hcont (n - 1 - 1)%Z).
    replace (n - 1 - 1 + 1)%Z with (n - 1)%Z in Hcont by lia.
    rewrite Hs1, He2 in Hcont. injection Hcont; [done|lia|lia]. }
  assert (s2 <= e2) by (apply (Hord (n - 1 - 1)%Z); (lia || done)).
  assert (e2 <= e) by (apply (Hord (n - 1)%Z); (lia || done)).
  split; [split|].
  - cbn. rewrite !length_insert. lia.
  - cbn. lia.
  - load_cases. done.
  - intros i s0 e0 Hi Hs0 He0. load_cases; try subst i.
    + assert (s0 = s2) as -> by congruence.
      assert (e0 = e) as -> by congruence. lra.
    + by apply (Hord i); [lia|..].
  - intros i Hi0 Hi. load_cases. apply Hcont; lia.
  - intros i s0 e0 Hi Hs0 He0. load_cases; try subst i.
    + assert (s0 = e + 1) as -> by congruence.
      assert (e0 = e + 1) as -> by congruence.
      right. lra.
    + by apply (Hinact i); [lia|..].
  - load_cases. done.
Qed.

Lemma add_partition_preserves (t : TunableParameters) :
  partition_inv min_x max_x t ->
  exists t', add_partition t = Some t' /\
    partition_inv min_x max_x t' /\ last_end t' = last_end t.
Proof.
  intros Hinv. unfold last_end.
  destruct (decide (num_compute_procs_active t = num_compute_procs t))
    as [HN|HN].
  { exists t. unfold add_partition. by rewrite decide_True. }
  destruct (inv_loads t (num_compute_procs_active t - 1))
    as (s & e & Hs & He); [done|destruct Hinv; lia|].
  destruct (decide (e - s < 2.5 * smoothing_radius t)) as [Hw|Hw].
  { exists t. unfold add_partition. rewrite decide_False, He by done.
    simpl. rewrite Hs. simpl. by rewrite decide_True. }
  eexists. split.
  { apply add_partition_eq with (s := s) (e := e);
      destruct Hinv; (lia || done). }
  destruct Hinv as [[Hcs Hce] Hact Hfirst Hord Hcont Hinact].
  destruct t as [h starts ends n N]. cbn in * |-.
  assert (s <= e) by (apply (Hord (n - 1)%Z); (lia || done)).
  split; [split|].
  - cbn. rewrite !length_insert. lia.
  - cbn. lia.
  - load_cases. done.
  - intros i s0 e0 Hi Hs0 He0.
    load_cases; simplify_eq; first [lra | by apply (Hord i); [lia|..]].
  - intros i Hi0 Hi. load_cases; [done|]. apply Hcont; lia.
  - intros i s0 e0 Hi Hs0 He0. load_cases.
    by apply (Hinact i); [lia|..].
  - load_cases. done.
Qed.

Lemma apply_command_preserves (c : command) (t : TunableParameters) :
  partition_inv min_x max_x t -> reaches_max max_x t ->
  exists t', apply_command c t = Some t' /\
    partition_inv min_x max_x t' /\ reaches_max max_x t'.
Proof.
  intros Hinv Hmax. destruct c; simpl.
  - destruct (add_partition_preserves t Hinv) as (t' & E & Hinv' & Hl).
    exists t'. split; [done|split; [done|]]. unfold reaches_max. by rewrite Hl.
  - destruct (remove_partition_preserves t Hinv Hmax)
      as (t' & E & Hinv' & Hl).
    exists t'. split; [done|split; [done|]]. unfold reaches_max. by rewrite Hl.
Qed.

(** The chain of active intervals up to rank [m] covers exactly
    [[min_x, proc_ends[m]]]. *)
Lemma inv_covers_prefix (t : TunableParameters) (m : nat) :
  partition_inv min_x max_x t ->
  (Z.of_nat m < num_compute_procs_active t)%Z ->
  exists e_m, load (proc_ends t) (Z.of_nat m) = Some e_m /\ min_x <= e_m /\
    forall x, min_x <= x <= e_m <->
      exists i s e, (0 <= i <= Z.of_nat m)%Z /\
        load (proc_starts t) i = Some s /\ load (proc_ends t) i = Some e /\
        s <= x <= e.
Proof.
  intros Hinv. pose proof Hinv as [_ Hact Hfirst Hord Hcont _].
  induction m as [|m IH]; intros Hm.
  - destruct (inv_loads t 0) as (s0 & e0 & Hs0 & He0); [done|lia|].
    assert (s0 = min_x) as -> by congruence.
    assert (min_x <= e0) by (apply (Hord 0%Z); (lia || done)).
    exists e0. split; [done|split; [done|]]. intros x. split.
    + intros Hx. exists 0%Z, min_x, e0. repeat split; (lia || lra || done).
    + intros (i & s & e & Hi & Hs & He & Hx).
      assert (i = 0%Z) as -> by lia. simplify_eq. lra.
  - destruct IH as (em & Hem & Hmin & IH); [lia|].
    destruct (inv_loads t (Z.of_nat (S m))) as (s1 & e1 & Hs1 & He1);
      [done|lia|].
    assert (s1 = em) as ->.
    { specialize (Hcont (Z.of_nat m)).
      replace (Z.of_nat m + 1)%Z with (Z.of_nat (S m)) in Hcont by lia.
      rewrite Hs1, Hem in Hcont. injection Hcont; [done|lia|lia]. }
    assert (em <= e1) by (apply (Hord (Z.of_nat (S m))); (lia || done)).
    exists e1. split; [done|split; [lra|]]. intros x. split.
    + intros Hx. destruct (Rle_dec x em) as [Hle|Hgt].
      * destruct (proj1 (IH x)) as (i & s & e & Hi & Hs & He & Hx');
          [lra|]. exists i, s, e. repeat split; (lia || lra || done).
      * exists (Z.of_nat (S m)), em, e1. repeat split; (lia || lra || done).
    + intros (i & s & e & Hi & Hs & He & Hx).
      destruct (decide (i = Z.of_nat (S m))) as [->|Hne].
      * simplify_eq. lra.
      * assert (min_x <= x <= em); [|lra].
        apply IH. exists i, s, e. repeat split; (lia || lra || done).
Qed.

Lemma inv_covers (t : TunableParameters) :
  partition_inv min_x max_x t -> covers min_x t.
Proof.
  intros Hinv. pose proof Hinv as [_ Hact _ _ _ _].
  destruct (inv_covers_prefix t (Z.to_nat (num_compute_procs_active t - 1)))
    as (e & He & _ & Hx); [done|lia|].
  rewrite Z2Nat.id in * by lia.
  exists e. split; [done|]. intros x. rewrite Hx.
  split; intros (i & s0 & e0 & Hi & H); exists i, s0, e0; (split; [lia|done]).
Qed.

End Preservation.

Lemma whole_domain_table_inv : partition_inv 0 10 whole_domain_table.
Proof.
  split; cbn.
  - lia.
  - lia.
  - done.
  - intros i s e Hi Hs He. index_cases i. eval_load. lra.
  - intros i Hi0 Hi. lia.
  - intros i s e Hi Hs He. right.
    assert (i = 1 \/ i = 2)%Z as [-> | ->] by lia; eval_load; lra.
Qed.

Lemma short_table_inv : partition_inv 0 10 short_table.
Proof.
  split; cbn.
  - lia.
  - lia.
  - done.
  - intros i s e Hi Hs He. index_cases i; eval_load; lra.
  - intros i Hi0 Hi. assert (i = 0)%Z as -> by lia. done.
  - intros i s e Hi Hs He. right.
    assert (i = 2)%Z as -> by lia. eval_load. lra.
Qed.

(** *** Claims *)

(** C1, as amended.  Starting from a table that satisfies the partition
    invariant and whose last active interval ends less than [1.0] short of
    [max_x] (in particular: the active intervals cover the whole domain),
    every sequence of [add_partition] and [remove_partition] calls runs
    without leaving the arrays and yields a table in which the active
    intervals are again ordered, contiguous and cover
    [[min_x, proc_ends[last_active]]], every inactive rank's interval lies
    outside [[min_x, max_x]], and [proc_ends[last_active]] is unchanged. *)
Theorem partition_inv_run (min_x max_x : R) (cs : list command)
    (t : TunableParameters) :
  partition_inv min_x max_x t -> reaches_max max_x t ->
  exists t', run cs t = Some t' /\
    partition_inv min_x max_x t' /\ covers min_x t' /\
    last_end t' = last_end t.
Proof.
  revert t. induction cs as [|c cs IH]; intros t Hinv Hmax.
  - exists t. simpl. split; [done|]. split; [done|].
    split; [by apply (inv_covers min_x max_x)|done].
  - assert (exists t1, apply_command c t = Some t1 /\
      partition_inv min_x max_x t1 /\ last_end t1 = last_end t)
      as (t1 & E1 & Hinv1 & Hl1).
    { destruct c; simpl.
      - by apply (add_partition_preserves min_x max_x).
      - by apply (remove_partition_preserves min_x max_x). }
    assert (reaches_max max_x t1) as Hmax1.
    { unfold reaches_max. by rewrite Hl1. }
    destruct (IH t1 Hinv1 Hmax1) as (t' & E' & Hinv' & Hcov' & Hl').
    exists t'. simpl. rewrite E1. simpl.
    split; [done|]. split; [done|]. split; [done|]. congruence.
Qed.

Lemma partition_inv_run_witness :
  exists t', run [Add; Add; Remove; Add] whole_domain_table = Some t' /\
    partition_inv 0 10 t' /\ covers 0 t' /\
    last_end t' = last_end whole_domain_table.
Proof.
  apply (partition_inv_run 0 10 [Add; Add; Remove; Add] whole_domain_table).
  - exact whole_domain_table_inv.
  - exists 10. split; [by unfold last_end; eval_load | lra].
Defined.

(** C1, as stated, fails: the table [short_table] over the domain [[0, 10]]
    satisfies the stated invariant (its two active intervals [[0, 2]] and
    [[2, 4]] are ordered, contiguous and cover [[0, 4]]; the inactive rank
    sits at [[11, 11]]), yet one [remove_partition] parks rank 1 at
    [[5, 5]], inside the domain. *)
Lemma partition_inv_not_preserved :
  partition_inv 0 10 short_table /\ covers 0 short_table /\
  exists t', run [Remove] short_table = Some t' /\
    load (proc_starts t') 1 = Some 5 /\ load (proc_ends t') 1 = Some 5 /\
    ~ partition_inv 0 10 t'.
Proof.
  split; [exact short_table_inv|]. split.
  { apply (inv_covers 0 10), short_table_inv. }
  eexists. split.
  { cbn [run apply_command].
    rewrite (remove_partition_eq short_table 4); cbn; try lia;
      [done | by eval_load]. }
  assert (4 + 1 = 5) as E by lra.
  split; [eval_load; by rewrite E|]. split; [eval_load; by rewrite E|].
  intros [_ _ _ _ _ Hinact].
  destruct (Hinact 1%Z (4 + 1) (4 + 1)) as [[? _]|[? _]];
    cbn; try lia; try (by eval_load); lra.
Qed.

(** C6, as amended.  [remove_partition] returns the table unchanged when
    exactly one rank is active.  With [n >= 2] active ranks (and slots for
    them in both arrays) it writes the removed rank's end [e = proc_ends[n-1]]
    into [proc_ends[n-2]], sets [proc_starts[n-1]] and [proc_ends[n-1]] to
    [e + 1.0], leaves every other slot and member alone and decrements the
    active count.  The interval in the removed rank's slot lies outside
    [[min_x, max_x]] exactly when [e + 1.0] does: to the right when the
    removed rank ended less than [1.0] short of [max_x]. *)
Theorem remove_partition_spec (t : TunableParameters) :
  (num_compute_procs_active t = 1%Z -> remove_partition t = Some t) /\
  (forall e, let n := num_compute_procs_active t in
     (2 <= n)%Z ->
     (n <= Z.of_nat (length (proc_starts t)))%Z ->
     (n <= Z.of_nat (length (proc_ends t)))%Z ->
     load (proc_ends t) (n - 1) = Some e ->
     exists t', remove_partition t = Some t' /\
       load (proc_ends t') (n - 2) = Some e /\
       load (proc_starts t') (n - 1) = Some (e + 1) /\
       load (proc_ends t') (n - 1) = Some (e + 1) /\
       num_compute_procs_active t' = (n - 1)%Z /\
       (forall i, i <> (n - 1)%Z ->
          load (proc_starts t') i = load (proc_starts t) i) /\
       (forall i, i <> (n - 1)%Z -> i <> (n - 2)%Z ->
          load (proc_ends t') i = load (proc_ends t) i) /\
       num_compute_procs t' = num_compute_procs t /\
       smoothing_radius t' = smoothing_radius t /\
       (forall min_x max_x s' e',
          load (proc_starts t') (n - 1) = Some s' ->
          load (proc_ends t') (n - 1) = Some e' ->
          outside min_x max_x s' e' <-> e + 1 < min_x \/ max_x < e + 1)).
Proof.
  split.
  { intros H1. unfold remove_partition. by rewrite decide_True. }
  intros e n Hn Hcs Hce He. eexists. split.
  { by apply remove_partition_eq with (e := e). }
  subst n. destruct t as [h starts ends n N]. cbn in * |-.
  replace (n - 1 - 1)%Z with (n - 2)%Z by lia.
  repeat split; try (intros; load_cases; done).
  - intros Hout.
    assert (s' = e + 1) as -> by (load_cases; congruence).
    assert (e' = e + 1) as -> by (load_cases; congruence).
    unfold outside in Hout. lra.
  - intros Hside.
    assert (s' = e + 1) as -> by (load_cases; congruence).
    assert (e' = e + 1) as -> by (load_cases; congruence).
    unfold outside. lra.
Qed.

Lemma remove_partition_spec_witness :
  remove_partition whole_domain_table = Some whole_domain_table /\
  exists t', remove_partition short_table = Some t' /\
    load (proc_ends t') 0 = Some 4 /\
    load (proc_starts t') 1 = Some (4 + 1) /\
    load (proc_ends t') 1 = Some (4 + 1) /\
    num_compute_procs_active t' = 1%Z.
Proof.
  split.
  - exact (proj1 (remove_partition_spec whole_domain_table) eq_refl).
  - destruct (proj2 (remove_partition_spec short_table) 4)
      as (t' & E & H0 & Hs & He & Hn & _); cbn; try lia; [by eval_load|].
    exists t'. by cbn in *.
Defined.

(** C6, as stated, fails: the parked interval need not be outside the global
    boundary.  In the domain [[0, 10]] the table [short_table] has two
    active ranks, [[0, 2]] and [[2, 4]]; [remove_partition] extends rank 0
    to [[0, 4]] and parks rank 1 at [[5, 5]], inside the domain. *)
Lemma remove_partition_parks_inside :
  partition_inv 0 10 short_table /\
  num_compute_procs_active short_table = 2%Z /\
  exists t', remove_partition short_table = Some t' /\
    load (proc_ends t') 0 = Some 4 /\
    load (proc_starts t') 1 = Some 5 /\ load (proc_ends t') 1 = Some 5 /\
    num_compute_procs_active t' = 1%Z /\
    0 <= 5 <= 10 /\ ~ outside 0 10 5 5.
Proof.
  split; [exact short_table_inv|]. split; [done|].
  eexists. split.
  { rewrite (remove_partition_eq short_table 4); cbn; try lia;
      [done | by eval_load]. }
  assert (4 + 1 = 5) as E by lra.
  split; [by eval_load|].
  split; [eval_load; by rewrite E|]. split; [eval_load; by rewrite E|].
  split; [done|]. split; [lra|]. unfold outside. lra.
Qed.

(** C7.  [add_partition] returns the table unchanged when every rank is
    active, and also when the last active interval [[s, e]] is narrower than
    [2.5 * smoothing_radius].  Otherwise (with a free slot [n] in both
    arrays) it ends the old last interval at the midpoint of [[s, e]], gives
    the new rank [n] the right half [[midpoint, e]], leaves every other slot
    and member alone and increments the active count. *)
Theorem add_partition_spec (t : TunableParameters) :
  (num_compute_procs_active t = num_compute_procs t ->
   add_partition t = Some t) /\
  (forall s e, let n := num_compute_procs_active t in
     load (proc_starts t) (n - 1) = Some s ->
     load (proc_ends t) (n - 1) = Some e ->
     e - s < 2.5 * smoothing_radius t ->
     add_partition t = Some t) /\
  (forall s e, let n := num_compute_procs_active t in
     n <> num_compute_procs t ->
     (n < Z.of_nat (length (proc_starts t)))%Z ->
     (n < Z.of_nat (length (proc_ends t)))%Z ->
     load (proc_starts t) (n - 1) = Some s ->
     load (proc_ends t) (n - 1) = Some e ->
     2.5 * smoothing_radius t <= e - s ->
     exists t', add_partition t = Some t' /\
       load (proc_starts t') (n - 1) = Some s /\
       load (proc_ends t') (n - 1) = Some ((s + e) / 2) /\
       load (proc_starts t') n = Some ((s + e) / 2) /\
       load (proc_ends t') n = Some e /\
       num_compute_procs_active t' = (n + 1)%Z /\
       (forall i, i <> n ->
          load (proc_starts t') i = load (proc_starts t) i) /\
       (forall i, i <> n -> i <> (n - 1)%Z ->
          load (proc_ends t') i = load (proc_ends t) i) /\
       num_compute_procs t' = num_compute_procs t /\
       smoothing_radius t' = smoothing_radius t).
Proof.
  split; [|split].
  - intros HN. unfold add_partition. by rewrite decide_True.
  - intros s e n Hs He Hw. unfold add_partition. case_decide; [done|].
    fold n. rewrite He. simpl. rewrite Hs. simpl.
    by rewrite decide_True.
  - intros s e n HN Hcs Hce Hs He Hw.
    assert (1 <= n)%Z by (apply load_in_range in Hs; lia).
    eexists. split.
    { apply add_partition_eq with (s := s) (e := e); try done. fold n. lra. }
    subst n. destruct t as [h starts ends n N]. cbn in * |-.
    replace (s + (e - s) * 0.5) with ((s + e) / 2) by lra.
    repeat split; intros; load_cases; done.
Qed.

Lemma add_partition_spec_witness :
  add_partition full_table = Some full_table /\
  add_partition short_table = Some short_table /\
  (exists t', add_partition whole_domain_table = Some t' /\
     load (proc_starts t') 0 = Some 0 /\
     load (proc_ends t') 0 = Some ((0 + 10) / 2) /\
     load (proc_starts t') 1 = Some ((0 + 10) / 2) /\
     load (proc_ends t') 1 = Some 10 /\
     num_compute_procs_active t' = 2%Z).
Proof.
  split; [|split].
  - exact (proj1 (add_partition_spec full_table) eq_refl).
  - apply (proj1 (proj2 (add_partition_spec short_table)) 2 4);
      cbn; try (by eval_load); lra.
  - destruct (proj2 (proj2 (add_partition_spec whole_domain_table)) 0 10)
      as (t' & E & H0 & H1 & H2 & H3 & Hn & _);
      cbn; try lia; try (by eval_load); [lra|].
    exists t'. by cbn in *.
Defined.

End TunableFacts.

(** ** Facts about the fluid step *)

Module FluidFacts.
Import Mem MemFacts Fluid.
Local Open Scope R_scope.

(** *** Kernels *)

(** The normalisation constant of [W]. *)
Lemma W_constant_pos (h : R) :
  0 < h -> 0 < 4 / (PI * h * h * h * h * h * h * h * h).
Proof.
  intros Hh. pose proof PI_RGT_0.
  apply Rdiv_lt_0_compat; [lra|].
  repeat (first [assumption | apply Rmult_lt_0_compat]).
Qed.

Lemma W_inside (r h : R) :
  r <= h ->
  W r h = 4 / (PI * h * h * h * h * h * h * h * h) * (h * h - r * r) ^ 3.
Proof.
  intros Hr. unfold W. rewrite decide_False by lra. cbv zeta. ring.
Qed.

Lemma W_outside (r h : R) : r > h -> W r h = 0.
Proof. intros Hr. unfold W. by rewrite decide_True. Qed.

Lemma del_W_outside (r h : R) : r > h -> del_W r h = 0.
Proof. intros Hr. unfold del_W. by rewrite decide_True. Qed.

Lemma W_decreasing (h r1 r2 : R) :
  0 < h -> 0 <= r1 -> r1 <= r2 -> r2 <= h -> W r2 h <= W r1 h.
Proof.
  intros Hh H1 H12 H2. rewrite !W_inside by lra.
  apply Rmult_le_compat_l; [by apply Rlt_le, W_constant_pos|].
  apply pow_incr. nra.
Qed.

(** C10.  For a positive smoothing radius both kernels vanish beyond [h];
    on [[0, h]] the kernel [W] is non-negative and decreasing in [r], so
    its value at [0] bounds it from above. *)
Theorem kernel_cutoff_and_shape (h : R) :
  0 < h ->
  (forall r, r > h -> W r h = 0 /\ del_W r h = 0) /\
  (forall r, 0 <= r <= h -> 0 <= W r h) /\
  (forall r1 r2, 0 <= r1 -> r1 <= r2 -> r2 <= h -> W r2 h <= W r1 h) /\
  (forall r, 0 <= r <= h -> W r h <= W 0 h).
Proof.
  intros Hh. split; [|split; [|split]].
  - intros r Hr. split; [by apply W_outside | by apply del_W_outside].
  - intros r [H0 H1]. rewrite W_inside by done.
    apply Rmult_le_pos; [by apply Rlt_le, W_constant_pos|].
    apply pow_le. nra.
  - intros r1 r2. by apply W_decreasing.
  - intros r [H0 H1]. apply W_decreasing; lra.
Qed.

Lemma kernel_cutoff_and_shape_witness :
  (W 2 1 = 0 /\ del_W 2 1 = 0) /\ 0 <= W (1 / 2) 1 /\ W (1 / 2) 1 <= W 0 1.
Proof.
  destruct (kernel_cutoff_and_shape 1 ltac:(lra)) as (Hout & Hpos & _ & Hmax).
  split; [apply Hout; lra|]. split; [apply Hpos; lra | apply Hmax; lra].
Defined.

(** *** Boundary conditions *)

(** [boundaryConditions] touches the predicted position only, and moves it
    by the push followed by the two clamps. *)
Lemma boundaryConditions_eq (p : fluid_particle_t) (sim : fluid_sim_t) :
  let b := boundary_global sim in
  let tp := tunable_params (params sim) in
  let c := mover_push (mover_center_x tp) (mover_center_y tp)
             (mover_radius sim) (x_star p, y_star p) in
  boundaryConditions p sim =
    set_y_star (set_x_star p (clamp (min_x b) (max_x b) c.1))
      (clamp (min_y b) (max_y b) c.2).
Proof.
  destruct p as [px py pxs pys pvx pvy pd pl pdx pdy].
  unfold boundaryConditions, mover_push, mover_radius, clamp.
  cbn [x_star y_star fst snd].
  repeat case_decide; cbn in *; repeat case_decide; try reflexivity; lra.
Qed.

Lemma clamp_range (lo hi v : R) :
  lo <= hi - 0.001 -> lo <= clamp lo hi v <= hi.
Proof. intros H. unfold clamp. repeat case_decide; lra. Qed.

Lemma clamp_fix (lo hi v : R) : lo <= v <= hi -> clamp lo hi v = v.
Proof. intros H. unfold clamp. repeat case_decide; lra. Qed.

(** On and outside the circle, and at its centre, the push does nothing. *)
Lemma mover_push_fix (cx cy r : R) (pos : R * R) :
  0 <= r ->
  let d2 := (pos.1 - cx) * (pos.1 - cx) + (pos.2 - cy) * (pos.2 - cy) in
  d2 = 0 \/ r * r <= d2 ->
  mover_push cx cy r pos = pos.
Proof.
  intros Hr d2 Hd. destruct pos as [px py]. unfold mover_push.
  cbn [fst snd] in *. fold d2.
  case_decide as Hin; [|done]. destruct Hin as [Hle Hpos].
  assert (d2 = r * r) as -> by lra.
  rewrite sqrt_square by done. f_equal; lra.
Qed.


(** A valid position is a fixed point, for any mover of non-negative
    radius. *)
Lemma boundaryConditions_valid_fix (p : fluid_particle_t) (sim : fluid_sim_t) :
  0 <= mover_radius sim -> valid_position sim p ->
  boundaryConditions p sim = p.
Proof.
  intros Hr (Hx & Hy & Hd). rewrite boundaryConditions_eq. cbv zeta.
  rewrite mover_push_fix by done. cbn [fst snd].
  rewrite !clamp_fix by done. by destruct p.
Qed.






(** The clamp keeps every result inside the global box. *)
Lemma boundaryConditions_in_box (p : fluid_particle_t) (sim : fluid_sim_t) :
  let b := boundary_global sim in
  min_x b <= max_x b - 0.001 -> min_y b <= max_y b - 0.001 ->
  min_x b <= x_star (boundaryConditions p sim) <= max_x b /\
  min_y b <= y_star (boundaryConditions p sim) <= max_y b.
Proof.
  intros b Hx Hy. rewrite boundaryConditions_eq. cbv zeta.
  cbn [x_star y_star set_x_star set_y_star].
  split; by apply clamp_range.
Qed.

(** C3 fails at the max edge itself.  In the box [[0, 20] x [0, 20]], with
    the mover far away, the predicted position [(20, 10)] is returned as it
    is: the test [x_star > max_x] does not fire at [x_star = max_x], so the
    particle stays exactly on the max boundary. *)
Theorem boundaryConditions_keeps_max_edge :
  max_x (boundary_global (box_sim 3 5 17)) = 20 /\
  x_star (boundaryConditions (still_particle 20 10) (box_sim 3 5 17)) = 20 /\
  ~ x_star (boundaryConditions (still_particle 20 10) (box_sim 3 5 17))
    < max_x (boundary_global (box_sim 3 5 17)).
Proof.
  rewrite boundaryConditions_valid_fix.
  - cbn. split; [done|]. split; [done|]. lra.
  - unfold mover_radius. cbn. lra.
  - unfold valid_position, mover_dist2, mover_radius. cbn.
    split; [lra|]. split; [lra|]. right. lra.
Qed.

(** *** Particle memory *)

Lemma deref_assign (sim sim' : fluid_sim_t) (p q : pointer)
    (v : fluid_particle_t) :
  assign sim p v = Some sim' ->
  deref sim' q = if decide (p = q) then Some v else deref sim q.
Proof.
  unfold assign, deref. destruct (store _ _ _) as [ps|] eqn:E; [|done].
  intros [= <-]. cbn. case_decide as Hpq.
  - subst q. by apply (load_store_eq (fluid_particles sim) p v).
  - by apply (load_store_ne (fluid_particles sim) p q v).
Qed.

Lemma assign_is_Some (sim : fluid_sim_t) (p : pointer)
    (v cur : fluid_particle_t) :
  deref sim p = Some cur ->
  exists sim', assign sim p v = Some sim' /\
    sim' = set_fluid_particles sim (<[Z.to_nat p := v]> (fluid_particles sim)).
Proof.
  intros Hp%load_in_range. unfold assign. rewrite store_Some by done.
  eexists. by split.
Qed.

(** *** Velocity reconstruction *)

Lemma checkVelocity_axes (v : R * R) :
  ((v.1 > 20 -> (checkVelocity v).1 = 20) /\
   (v.1 < - 20 -> (checkVelocity v).1 = - 20) /\
   (- 20 <= v.1 <= 20 -> (checkVelocity v).1 = v.1)) /\
  ((v.2 > 20 -> (checkVelocity v).2 = 20) /\
   (v.2 < - 20 -> (checkVelocity v).2 = - 20) /\
   (- 20 <= v.2 <= 20 -> (checkVelocity v).2 = v.2)).
Proof.
  unfold checkVelocity. cbn [fst snd].
  repeat split; intros; repeat case_decide; lra.
Qed.

(** A second reconstruction of the same particle changes nothing: the
    velocity is a function of the two positions alone. *)
Lemma updateVelocity_again (p : fluid_particle_t) (params : param_t) :
  updateVelocity (updateVelocity p params) params = updateVelocity p params.
Proof. reflexivity. Qed.

(** What the loop of [updateVelocities] has established before iteration
    [k]: every record is the original or its update, and the records of the
    first [k] pointers are updated. *)
Definition velocities_inv (sim : fluid_sim_t) (k : Z) (sim_k : fluid_sim_t)
    : Prop :=
  fluid_particle_pointers sim_k = fluid_particle_pointers sim /\
  params sim_k = params sim /\
  (forall p pr, deref sim p = Some pr ->
     deref sim_k p = Some pr \/
     deref sim_k p = Some (updateVelocity pr (params sim))) /\
  (forall j p pr, (0 <= j < k)%Z ->
     load (fluid_particle_pointers sim) j = Some p ->
     deref sim p = Some pr ->
     deref sim_k p = Some (updateVelocity pr (params sim))).

Lemma updateVelocities_run (sim : fluid_sim_t) :
  let n := (number_fluid_particles_local (params sim)
            + number_halo_particles (params sim))%Z in
  (forall i, (0 <= i < n)%Z -> exists p pr,
     load (fluid_particle_pointers sim) i = Some p /\
     deref sim p = Some pr) ->
  exists sim', updateVelocities sim = Some sim' /\
    forall i p pr, (0 <= i < n)%Z ->
      load (fluid_particle_pointers sim) i = Some p ->
      deref sim p = Some pr ->
      deref sim' p = Some (updateVelocity pr (params sim)).
Proof.
  intros n Hwf. unfold updateVelocities. fold n.
  destruct (decide (0 <= n)%Z) as [Hn|Hn].
  2:{ exists sim. rewrite for_loop_nonpos by lia. split; [done|]. lia. }
  edestruct (for_loop_inv (velocities_inv sim) n) as (sim' & E & HI);
    [exact Hn| | |exists sim'; split; [exact E|]].
  - repeat split; auto. lia.
  - intros i sim_k Hi (Hptr & Hpar & Hall & Hdone).
    destruct (Hwf i Hi) as (p & pr & Hp & Hpr).
    rewrite Hptr, Hp. cbn.
    destruct (Hall p pr Hpr) as [Hcur|Hcur]; rewrite Hcur; cbn;
      destruct (assign_is_Some sim_k p (updateVelocity pr (params sim)) _ Hcur)
        as (sim1 & E1 & ->); rewrite ?updateVelocity_again; rewrite E1;
      (eexists; split; [done|]);
      (split; [done|split; [done|split]]).
    all: try (intros q qr Hq; rewrite (deref_assign _ _ _ _ _ E1);
              case_decide; [subst q; right; congruence|by apply Hall]).
    all: intros j q qr Hj Hq Hqr; rewrite (deref_assign _ _ _ _ _ E1);
         case_decide; [subst q; congruence|].
    all: destruct (decide (j = i)) as [->|Hne]; [congruence|].
    all: apply (Hdone j q qr); (lia || done).
  - destruct HI as (_ & _ & _ & Hdone). exact Hdone.
Qed.

(** C8.  [updateVelocities] runs over the local and the halo particles.
    It leaves in each of them the velocity [(pos* - pos) / dt] clamped per
    axis: a component above [20] becomes exactly [20], one below [-20]
    exactly [-20], one in between is kept, whatever the other component is;
    nothing but the velocity of the record changes. *)
Theorem updateVelocities_spec (sim : fluid_sim_t) :
  let n := (number_fluid_particles_local (params sim)
            + number_halo_particles (params sim))%Z in
  let dt := time_step (tunable_params (params sim)) in
  (forall i, (0 <= i < n)%Z -> exists p pr,
     load (fluid_particle_pointers sim) i = Some p /\
     deref sim p = Some pr) ->
  exists sim', updateVelocities sim = Some sim' /\
    forall i p pr, (0 <= i < n)%Z ->
      load (fluid_particle_pointers sim) i = Some p ->
      deref sim p = Some pr ->
      exists pr', deref sim' p = Some pr' /\
        pr' = set_velocity pr (v_x pr') (v_y pr') /\
        let vx := (x_star pr - x pr) / dt in
        let vy := (y_star pr - y pr) / dt in
        ((vx > 20 -> v_x pr' = 20) /\
         (vx < - 20 -> v_x pr' = - 20) /\
         (- 20 <= vx <= 20 -> v_x pr' = vx)) /\
        ((vy > 20 -> v_y pr' = 20) /\
         (vy < - 20 -> v_y pr' = - 20) /\
         (- 20 <= vy <= 20 -> v_y pr' = vy)).
Proof.
  intros n dt Hwf.
  destruct (updateVelocities_run sim Hwf) as (sim' & E & Hall).
  exists sim'. split; [exact E|]. intros i p pr Hi Hp Hpr.
  exists (updateVelocity pr (params sim)).
  split; [by apply (Hall i)|]. split; [done|].
  apply (checkVelocity_axes
           ((x_star pr - x pr) / dt, (y_star pr - y pr) / dt)).
Qed.

Lemma updateVelocities_spec_witness :
  exists sim', updateVelocities small_sim = Some sim' /\
    (exists pr', deref sim' 1 = Some pr' /\ v_x pr' = 0 /\ v_y pr' = 20) /\
    (exists pr', deref sim' 3 = Some pr' /\ v_x pr' = 0 /\ v_y pr' = - 20).
Proof.
  destruct (updateVelocities_spec small_sim) as (sim' & E & Hall).
  { intros i Hi. cbn in Hi. unfold deref.
    index_cases i; eexists _, _; split; cbn; by eval_load. }
  exists sim'. split; [exact E|]. split.
  - destruct (Hall 1%Z 1%Z (mkParticle 4 1 4 2 0 0 3 0 0 0))
      as (pr' & Hpr' & _ & Hx & Hy); [cbn; lia|done|done|].
    exists pr'. split; [done|]. cbn in Hx, Hy.
    split; [rewrite (proj2 (proj2 Hx)) | apply (proj1 Hy)]; lra.
  - destruct (Hall 3%Z 3%Z (mkParticle 8 1 8 0 0 0 1 0 0 0))
      as (pr' & Hpr' & _ & Hx & Hy); [cbn; lia|done|done|].
    exists pr'. split; [done|]. cbn in Hx, Hy.
    split; [rewrite (proj2 (proj2 Hx)) | apply (proj1 (proj2 Hy))]; lra.
Defined.

(** *** Out-of-bounds scan *)

Section IndicesWhere.
Context (P : R -> Prop) `{!forall v, Decision (P v)}.

Lemma indices_where_app (i : Z) (xs ys : list R) :
  indices_where P i (xs ++ ys) =
  indices_where P i xs ++ indices_where P (i + Z.of_nat (length xs)) ys.
Proof.
  revert i. induction xs as [|v xs IH]; intros i; cbn [indices_where app].
  - cbn. by replace (i + Z.of_nat 0)%Z with i by lia.
  - rewrite IH. cbn [length].
    replace (i + 1 + Z.of_nat (length xs))%Z
      with (i + Z.of_nat (S (length xs)))%Z by lia.
    by case_decide.
Qed.

Lemma indices_where_take_length (i : Z) (m : nat) (xs : list R) :
  (length (indices_where P i (take m xs))
   <= length (indices_where P i xs))%nat.
Proof.
  rewrite <- (take_drop m xs) at 2.
  rewrite indices_where_app, length_app. lia.
Qed.

(** Scanning one more entry appends its index when it satisfies [P]. *)
Lemma indices_where_take_S (k : nat) (xs : list R) (v : R) :
  xs !! k = Some v ->
  indices_where P 0 (take (S k) xs) =
  indices_where P 0 (take k xs)
    ++ (if decide (P v) then [Z.of_nat k] else []).
Proof.
  intros Hv. rewrite (take_S_r _ _ v) by done.
  rewrite indices_where_app. cbn [indices_where].
  rewrite length_take_le by (apply lookup_lt_Some in Hv; lia).
  by rewrite Z.add_0_l.
Qed.

Lemma indices_where_length (i : Z) (xs : list R) :
  (length (indices_where P i xs) <= length xs)%nat.
Proof.
  revert i. induction xs as [|v xs IH]; intros i; cbn; [lia|].
  specialize (IH (i + 1)%Z). case_decide; cbn; lia.
Qed.

(** An index is listed exactly when the entry it names satisfies [P]. *)
Lemma elem_of_indices_where (i k : Z) (xs : list R) :
  k ∈ indices_where P i xs <->
  (i <= k)%Z /\ exists v, xs !! Z.to_nat (k - i) = Some v /\ P v.
Proof.
  revert i. induction xs as [|v xs IH]; intros i; cbn [indices_where].
  - split; [by intros ?%elem_of_nil|]. by intros (_ & v & ? & _).
  - assert (k ∈ indices_where P (i + 1) xs <->
            (i < k)%Z /\ exists w, (v :: xs) !! Z.to_nat (k - i) = Some w /\ P w)
      as Htail.
    { rewrite IH. split.
      - intros (Hk & w & Hw & HP). split; [lia|]. exists w. split; [|done].
        replace (Z.to_nat (k - i)) with (S (Z.to_nat (k - (i + 1)))) by lia.
        done.
      - intros (Hk & w & Hw & HP). split; [lia|]. exists w. split; [|done].
        replace (Z.to_nat (k - i)) with (S (Z.to_nat (k - (i + 1)))) in Hw
          by lia. done. }
    case_decide as HPv.
    + rewrite elem_of_cons, Htail. split.
      * intros [->|(Hk & Hw)]; [|split; [lia|done]].
        split; [lia|]. exists v. by replace (i - i)%Z with 0%Z by lia.
      * intros (Hk & w & Hw & HPw).
        destruct (decide (k = i)) as [->|Hne]; [by left|right].
        split; [lia|]. by exists w.
    + rewrite Htail. split.
      * intros (Hk & Hw). split; [lia|done].
      * intros (Hk & w & Hw & HPw). split; [|by exists w].
        destruct (decide (k = i)) as [->|Hne]; [|lia].
        replace (i - i)%Z with 0%Z in Hw by lia. cbn in Hw.
        by injection Hw as ->.
Qed.

(** The indices come out in increasing order. *)
Lemma indices_where_sorted (i : Z) (xs : list R) :
  StronglySorted Z.lt (indices_where P i xs).
Proof.
  revert i. induction xs as [|v xs IH]; intros i; cbn [indices_where].
  - constructor.
  - case_decide; [|apply IH]. constructor; [apply IH|].
    apply Forall_forall. intros k Hk%elem_of_indices_where. lia.
Qed.

End IndicesWhere.

Lemma indices_where_ext (P Q : R -> Prop)
    `{!forall v, Decision (P v)} `{!forall v, Decision (Q v)}
    (i : Z) (xs : list R) :
  (forall v, v ∈ xs -> P v <-> Q v) ->
  indices_where P i xs = indices_where Q i xs.
Proof.
  revert i. induction xs as [|v xs IH]; intros i HPQ; [done|].
  cbn [indices_where]. rewrite IH by (intros w Hw; apply HPQ; by right).
  pose proof (HPQ v ltac:(by left)). repeat case_decide; tauto.
Qed.

(** The local particles behind [local_xs]. *)
Lemma local_xs_lookup (sim : fluid_sim_t) (xs : list R) :
  local_xs sim = Some xs ->
  let n := number_fluid_particles_local (params sim) in
  length xs = Z.to_nat n /\
  forall i, (0 <= i < n)%Z -> exists p pr,
    load (fluid_particle_pointers sim) i = Some p /\
    deref sim p = Some pr /\ xs !! Z.to_nat i = Some (x pr).
Proof.
  unfold local_xs. cbv zeta.
  set (n := number_fluid_particles_local (params sim)).
  case_decide as Hn; [|done]. intros Hall%mapM_Some. split.
  - apply Forall2_length in Hall. rewrite length_take in Hall. lia.
  - intros i Hi.
    destruct (lookup_lt_is_Some_2
                (take (Z.to_nat n) (fluid_particle_pointers sim))
                (Z.to_nat i)) as [p Hp]; [rewrite length_take; lia|].
    destruct (Forall2_lookup_l _ _ _ _ _ Hall Hp) as (v & Hv & Hx).
    destruct (deref sim p) as [pr|] eqn:Hpr; [|done].
    injection Hx as <-. exists p, pr. split; [|by split].
    apply load_Some. split; [lia|].
    rewrite lookup_take_lt in Hp; [done|lia].
Qed.

Lemma take_S_insert {A} (l : list A) (m : nat) (v : A) :
  (m < length l)%nat -> take (S m) (<[m := v]> l) = take m l ++ [v].
Proof.
  intros Hm. rewrite (take_S_r _ _ v) by (by apply list_lookup_insert_eq).
  by rewrite take_insert_ge by lia.
Qed.

(** What the scan has established before iteration [k]: only the queues
    have changed, and their valid parts list the out-of-bounds particles
    among the first [k]. *)
Definition scan_inv (sim : fluid_sim_t) (xs : list R) (k : Z)
    (sim_k : fluid_sim_t) : Prop :=
  let tp := tunable_params (params sim) in
  let L := indices_where (fun v => v < node_start_x tp) 0
             (take (Z.to_nat k) xs) in
  let R := indices_where
             (fun v => ~ v < node_start_x tp /\ v > node_end_x tp) 0
             (take (Z.to_nat k) xs) in
  exists o, sim_k = set_out_of_bounds sim o /\
    length (oob_pointer_indices_left o)
      = length (oob_pointer_indices_left (out_of_bounds sim)) /\
    length (oob_pointer_indices_right o)
      = length (oob_pointer_indices_right (out_of_bounds sim)) /\
    number_oob_particles_left o = Z.of_nat (length L) /\
    number_oob_particles_right o = Z.of_nat (length R) /\
    left_queue o = L /\ right_queue o = R.

Lemma identify_oob_scan_run (sim : fluid_sim_t) (xs : list R) :
  let tp := tunable_params (params sim) in
  let L := indices_where (fun v => v < node_start_x tp) 0 xs in
  let R0 := indices_where
             (fun v => ~ v < node_start_x tp /\ v > node_end_x tp) 0 xs in
  local_xs sim = Some xs ->
  (length L <= length (oob_pointer_indices_left (out_of_bounds sim)))%nat ->
  (length R0 <= length (oob_pointer_indices_right (out_of_bounds sim)))%nat ->
  exists o, identify_oob_scan sim = Some (set_out_of_bounds sim o) /\
    number_oob_particles_left o = Z.of_nat (length L) /\
    number_oob_particles_right o = Z.of_nat (length R0) /\
    left_queue o = L /\ right_queue o = R0.
Proof.
  intros tp L R0 Hxs HcapL HcapR. subst tp.
  destruct (local_xs_lookup sim xs Hxs) as [Hlen Hlook].
  unfold identify_oob_scan. cbv zeta.
  set (n := number_fluid_particles_local (params sim)) in *.
  set (o0 := mkOob _ _ 0 0).
  destruct (decide (0 <= n)%Z) as [Hn|Hn].
  2:{ exists o0. rewrite for_loop_nonpos by lia. split; [done|].
      destruct xs; [|cbn in Hlen; lia]. done. }
  match goal with
  | |- context [for_loop n ?body ?s] =>
      destruct (for_loop_inv (scan_inv sim xs) n body s) as (sim' & E & HI);
        [exact Hn| | |]
  end.
  - exists o0. by repeat split.
  - intros k sim_k Hk (o & -> & HlenL & HlenR & HnL & HnR & HqL & HqR).
    destruct (Hlook k Hk) as (p & pr & Hp & Hpr & Hv).
    cbv beta.
    cbn [fluid_particle_pointers set_out_of_bounds out_of_bounds].
    rewrite Hp. cbn [mbind option_bind].
    replace (deref (set_out_of_bounds sim o) p) with (Some pr) by done.
    cbn [mbind option_bind].
    unfold scan_inv. cbv zeta.
    replace (Z.to_nat (k + 1)) with (S (Z.to_nat k)) by lia.
    set (tp := tunable_params (params sim)) in *.
    set (Pl := fun v : R => v < node_start_x tp) in *.
    set (Pr := fun v : R => ~ v < node_start_x tp /\ v > node_end_x tp) in *.
    rewrite (indices_where_take_S Pl _ _ _ Hv).
    rewrite (indices_where_take_S Pr _ _ _ Hv).
    rewrite Z2Nat.id by lia.
    pose proof (indices_where_take_length Pl 0 (S (Z.to_nat k)) xs) as HboundL.
    pose proof (indices_where_take_length Pr 0 (S (Z.to_nat k)) xs) as HboundR.
    rewrite (indices_where_take_S Pl _ _ _ Hv), length_app in HboundL.
    rewrite (indices_where_take_S Pr _ _ _ Hv), length_app in HboundR.
    fold L in HboundL. fold R0 in HboundR.
    set (Lk := indices_where Pl 0 (take (Z.to_nat k) xs)) in *.
    set (Rk := indices_where Pr 0 (take (Z.to_nat k) xs)) in *.
    unfold Pl, Pr in HboundL, HboundR |- *.
    destruct (decide (x pr < node_start_x tp)) as [Hl|Hl].
    + rewrite (decide_False (P := ~ _ /\ _)) in * by tauto.
      cbn [length] in HboundL.
      rewrite store_Some by lia. cbn [mbind option_bind].
      eexists. split; [done|]. eexists. split; [done|].
      cbn [oob_pointer_indices_left oob_pointer_indices_right
           number_oob_particles_left number_oob_particles_right].
      rewrite ?app_nil_r, ?length_app, ?length_insert. cbn [length].
      repeat split; try done; try lia.
      unfold left_queue in *.
      cbn [oob_pointer_indices_left number_oob_particles_left].
      rewrite HnL in *. rewrite Nat2Z.id in HqL.
      replace (Z.to_nat (Z.of_nat (length Lk) + 1)) with (S (length Lk))
        by lia.
      rewrite Nat2Z.id, take_S_insert by lia. by rewrite HqL.
    + destruct (decide (x pr > node_end_x tp)) as [Hr|Hr].
      * rewrite (decide_True (P := ~ _ /\ _)) in * by tauto.
        cbn [length] in HboundR.
        rewrite store_Some by lia. cbn [mbind option_bind].
        eexists. split; [done|]. eexists. split; [done|].
        cbn [oob_pointer_indices_left oob_pointer_indices_right
             number_oob_particles_left number_oob_particles_right].
        rewrite ?app_nil_r, ?length_app, ?length_insert. cbn [length].
        repeat split; try done; try lia.
        unfold right_queue in *.
        cbn [oob_pointer_indices_right number_oob_particles_right].
        rewrite HnR in *. rewrite Nat2Z.id in HqR.
        replace (Z.to_nat (Z.of_nat (length Rk) + 1)) with (S (length Rk))
          by lia.
        rewrite Nat2Z.id, take_S_insert by lia. by rewrite HqR.
      * rewrite (decide_False (P := ~ _ /\ _)) by tauto.
        eexists. split; [done|]. exists o. rewrite !app_nil_r.
        by repeat split.
  - destruct HI as (o & -> & _ & _ & HnL & HnR & HqL & HqR).
    rewrite <- Hlen, firstn_all in *.
    exists o. by repeat split.
Qed.

(** C9.  For a rank whose interval is well formed
    ([node_start_x <= node_end_x]) and whose queues have room for the
    particles that leave, the scan ends with the left queue holding exactly
    the indices of the local particles with [x < node_start_x] and the
    right queue exactly those with [x > node_end_x], both in increasing
    order; the two counters are the queue lengths, whatever they were
    before; a particle with [x] equal to either boundary is in neither
    queue; and nothing but the queues has changed. *)
Theorem identify_oob_scan_spec (sim : fluid_sim_t) (xs : list R) :
  let tp := tunable_params (params sim) in
  let L := indices_where (fun v => v < node_start_x tp) 0 xs in
  let R0 := indices_where (fun v => v > node_end_x tp) 0 xs in
  local_xs sim = Some xs ->
  node_start_x tp <= node_end_x tp ->
  (length L <= length (oob_pointer_indices_left (out_of_bounds sim)))%nat ->
  (length R0 <= length (oob_pointer_indices_right (out_of_bounds sim)))%nat ->
  exists o, identify_oob_scan sim = Some (set_out_of_bounds sim o) /\
    left_queue o = L /\ right_queue o = R0 /\
    number_oob_particles_left o = Z.of_nat (length (left_queue o)) /\
    number_oob_particles_right o = Z.of_nat (length (right_queue o)) /\
    StronglySorted Z.lt (left_queue o) /\
    StronglySorted Z.lt (right_queue o) /\
    (forall i v, (0 <= i)%Z -> xs !! Z.to_nat i = Some v ->
       ((i ∈ left_queue o) <-> v < node_start_x tp) /\
       ((i ∈ right_queue o) <-> v > node_end_x tp)) /\
    (forall i v, (0 <= i)%Z -> xs !! Z.to_nat i = Some v ->
       v = node_start_x tp \/ v = node_end_x tp ->
       (i ∉ left_queue o) /\ (i ∉ right_queue o)).
Proof.
  intros tp L R0 Hxs Hse HcapL HcapR.
  assert (indices_where
            (fun v => ~ v < node_start_x tp /\ v > node_end_x tp) 0 xs = R0)
    as HR.
  { apply indices_where_ext. intros v _. split; [tauto|]. intros Hv. lra. }
  destruct (identify_oob_scan_run sim xs Hxs) as (o & E & HnL & HnR & HqL & HqR).
  { done. }
  { fold tp. by rewrite HR. }
  fold tp in HnL, HnR, HqL, HqR. rewrite HR in HnR, HqR. fold L in HnL, HqL.
  assert (forall i v, (0 <= i)%Z -> xs !! Z.to_nat i = Some v ->
            ((i ∈ L) <-> v < node_start_x tp) /\
            ((i ∈ R0) <-> v > node_end_x tp)) as Hmem.
  { intros i v Hi Hv. unfold L, R0. rewrite !elem_of_indices_where.
    replace (i - 0)%Z with i by lia. rewrite Hv.
    split; (split; [by intros (_ & w & [= <-] & Hw)|]);
      intros Hw; (split; [done|by exists v]). }
  exists o. rewrite HqL, HqR.
  split; [done|]. split; [done|]. split; [done|]. split; [done|].
  split; [done|]. split; [apply indices_where_sorted|].
  split; [apply indices_where_sorted|]. split; [exact Hmem|].
  intros i v Hi Hv Hedge. destruct (Hmem i v Hi Hv) as [HmemL HmemR].
  rewrite HmemL, HmemR. lra.
Qed.

Lemma identify_oob_scan_spec_witness :
  exists o, identify_oob_scan small_sim = Some (set_out_of_bounds small_sim o) /\
    left_queue o = [0%Z] /\ right_queue o = [2%Z] /\
    number_oob_particles_left o = 1%Z /\
    number_oob_particles_right o = 1%Z.
Proof.
  destruct (identify_oob_scan_spec small_sim [3; 4; 9])
    as (o & E & HqL & HqR & HnL & HnR & _).
  - reflexivity.
  - cbn. lra.
  - apply (indices_where_length _ 0 [3; 4; 9]).
  - apply (indices_where_length _ 0 [3; 4; 9]).
  - assert (indices_where (fun v => v < 4) 0 [3; 4; 9] = [0%Z]) as EL.
    { cbn [indices_where]. rewrite decide_True by lra.
      by rewrite !decide_False by lra. }
    assert (indices_where (fun v => v > 8) 0 [3; 4; 9] = [2%Z]) as ER.
    { cbn [indices_where]. rewrite !decide_False by lra.
      by rewrite decide_True by lra. }
    cbn [small_sim params tunable_params node_start_x node_end_x]
      in HqL, HqR. rewrite EL in HqL. rewrite ER in HqR.
    exists o. rewrite HqL in HnL. rewrite HqR in HnR. by repeat split.
Defined.

(** *** Constraint multiplier *)

(** The neighbours behind [neighbor_records]. *)
Lemma neighbor_records_lookup (sim : fluid_sim_t) (n : neighbor_t)
    (qs : list fluid_particle_t) :
  neighbor_records sim n = Some qs ->
  length qs = Z.to_nat (number_fluid_neighbors n) /\
  forall j, (0 <= j < number_fluid_neighbors n)%Z -> exists q qr,
    load (fluid_neighbors n) j = Some q /\
    deref sim q = Some qr /\ qs !! Z.to_nat j = Some qr.
Proof.
  unfold neighbor_records. case_decide as Hn; [|done].
  intros Hall%mapM_Some. split.
  - apply Forall2_length in Hall. rewrite length_take in Hall. lia.
  - intros j Hj.
    destruct (lookup_lt_is_Some_2
                (take (Z.to_nat (number_fluid_neighbors n))
                   (fluid_neighbors n))
                (Z.to_nat j)) as [q Hq]; [rewrite length_take; lia|].
    destruct (Forall2_lookup_l _ _ _ _ _ Hall Hq) as (qr & Hqr & Hd).
    exists q, qr. split; [|by split].
    apply load_Some. split; [lia|].
    rewrite lookup_take_lt in Hq; [done|lia].
Qed.

(** An inner loop of [calculate_lambda], once the record of [p] has been
    read, is a left fold over the neighbours' records. *)
Lemma neighbor_loop {A} (sim_k : fluid_sim_t) (n : neighbor_t)
    (f g : fluid_particle_t -> A -> A)
    (qs : list fluid_particle_t) (a : A) :
  length qs = Z.to_nat (number_fluid_neighbors n) ->
  (forall j, (0 <= j < number_fluid_neighbors n)%Z -> exists q qr_k qr,
     load (fluid_neighbors n) j = Some q /\
     deref sim_k q = Some qr_k /\ qs !! Z.to_nat j = Some qr /\
     forall acc, f qr_k acc = g qr acc) ->
  for_loop (number_fluid_neighbors n) (fun j acc =>
      q ← load (fluid_neighbors n) j;
      qr ← deref sim_k q;
      Some (f qr acc)) a
  = Some (fold_left (fun acc q => g q acc) qs a).
Proof.
  intros Hlen Hnb.
  destruct (decide (0 <= number_fluid_neighbors n)%Z) as [Hn|Hn].
  2:{ rewrite for_loop_nonpos by lia. destruct qs; [done|cbn in Hlen; lia]. }
  match goal with
  | |- for_loop ?m ?body ?s = _ =>
      destruct (for_loop_inv
                  (fun j acc =>
                     acc = fold_left (fun acc q => g q acc)
                             (take (Z.to_nat j) qs) a)
                  m body s) as (r & E & Hr); [exact Hn|done| |]
  end.
  - intros j acc Hj ->.
    destruct (Hnb j Hj) as (q & qr_k & qr & Hq & Hqk & Hqr & Hfg).
    rewrite Hq. cbn. rewrite Hqk. cbn.
    eexists. split; [done|].
    replace (Z.to_nat (j + 1)) with (S (Z.to_nat j)) by lia.
    rewrite (take_S_r _ _ qr) by done.
    rewrite fold_left_app. cbn. apply Hfg.
  - rewrite E, Hr. by rewrite <- Hlen, firstn_all.
Qed.

(** The two folds in closed form. *)
Lemma fold_add_gradient (h : R) (p : fluid_particle_t)
    (qs : list fluid_particle_t) (g : R * R) :
  fold_left (fun g q => add_gradient h p q g) qs g =
  (g.1 + Rsum ((gradient_term h p <$> qs).*1),
   g.2 + Rsum ((gradient_term h p <$> qs).*2)).
Proof.
  revert g. induction qs as [|q qs IH]; intros [gx gy]; cbn.
  - f_equal; lra.
  - rewrite IH. unfold add_gradient, Rsum. cbn. f_equal; ring.
Qed.

Lemma fold_add_neighbor_term (h : R) (p : fluid_particle_t)
    (qs : list fluid_particle_t) (s : R) :
  fold_left (fun s q => add_neighbor_term h p q s) qs s =
  s + Rsum (norm2 <$> (gradient_term h p <$> qs)).
Proof.
  revert s. induction qs as [|q qs IH]; intros s; cbn.
  - lra.
  - rewrite IH. unfold add_neighbor_term, norm2, Rsum. cbn. ring.
Qed.

(** The accumulated [sum_C] is the double sum of the formulation. *)
Lemma particle_sum_C_eq (h : R) (p : fluid_particle_t)
    (qs : list fluid_particle_t) :
  particle_sum_C h p qs = pbf_gradient_sum h p qs.
Proof.
  unfold particle_sum_C, pbf_gradient_sum.
  rewrite fold_add_neighbor_term, fold_add_gradient.
  unfold norm2 at 2. cbn [fst snd]. ring.
Qed.

Lemma sum_C_scale_one (rest_density : R) :
  rest_density <> 0 -> sum_C_scale rest_density = 1.
Proof. intros H. unfold sum_C_scale. by field. Qed.

Lemma set_lambda_same (p : fluid_particle_t) : set_lambda p (lambda p) = p.
Proof. by destruct p. Qed.

(** The data of local particle [i]: its pointer and record, its neighbour
    list and the neighbours' records. *)
Definition local_data (sim : fluid_sim_t) (i : Z) (p : pointer)
    (pr : fluid_particle_t) (nb : neighbor_t) (qs : list fluid_particle_t)
    : Prop :=
  load (fluid_particle_pointers sim) i = Some p /\
  deref sim p = Some pr /\
  load (neighbors sim) i = Some nb /\
  neighbor_records sim nb = Some qs.

(** What [calculate_lambda] has established before iteration [k]: only
    multipliers have changed, and the first [k] local particles carry
    theirs. *)
Definition lambda_inv (sim : fluid_sim_t) (k : Z) (sim_k : fluid_sim_t)
    : Prop :=
  let h := smoothing_radius (tunable_params (params sim)) in
  let rd := rest_density (tunable_params (params sim)) in
  (exists ps, sim_k = set_fluid_particles sim ps) /\
  (forall p pr, deref sim p = Some pr ->
     exists l, deref sim_k p = Some (set_lambda pr l)) /\
  (forall j p pr nb qs, (0 <= j < k)%Z -> local_data sim j p pr nb qs ->
     deref sim_k p = Some (set_lambda pr (particle_lambda h rd pr qs))).

Lemma calculate_lambda_run (sim : fluid_sim_t) :
  let n := number_fluid_particles_local (params sim) in
  let h := smoothing_radius (tunable_params (params sim)) in
  let rd := rest_density (tunable_params (params sim)) in
  (forall i, (0 <= i < n)%Z ->
     exists p pr nb qs, local_data sim i p pr nb qs) ->
  (forall i j p, (0 <= i < n)%Z -> (0 <= j < n)%Z ->
     load (fluid_particle_pointers sim) i = Some p ->
     load (fluid_particle_pointers sim) j = Some p -> i = j) ->
  exists sim', calculate_lambda sim = Some sim' /\
    forall i p pr nb qs, (0 <= i < n)%Z -> local_data sim i p pr nb qs ->
      deref sim' p = Some (set_lambda pr (particle_lambda h rd pr qs)).
Proof.
  intros n h rd Hwf Hinj. unfold calculate_lambda. fold n.
  destruct (decide (0 <= n)%Z) as [Hn|Hn].
  2:{ exists sim. rewrite for_loop_nonpos by lia. split; [done|]. lia. }
  match goal with
  | |- context [for_loop n ?body ?s] =>
      destruct (for_loop_inv (lambda_inv sim) n body s) as (sim' & E & HI);
        [exact Hn| | |]
  end.
  - split; [by exists (fluid_particles sim); destruct sim|].
    split; [|lia]. intros p pr Hp. exists (lambda pr).
    by rewrite set_lambda_same.
  - intros i sim_k Hi ([ps ->] & Hall & Hdone).
    destruct (Hwf i Hi) as (p & pr & nb & qs & Hp & Hpr & Hnb & Hqs).
    destruct (neighbor_records_lookup sim nb qs Hqs) as [Hlen Hlook].
    destruct (Hall p pr Hpr) as [l Hcur].
    cbv beta.
    cbn [fluid_particle_pointers neighbors params set_fluid_particles].
    rewrite Hp. cbn [mbind option_bind]. rewrite Hnb. cbn [mbind option_bind].
    rewrite Hcur. cbn [mbind option_bind]. fold h rd.
    rewrite (neighbor_loop _ nb (add_gradient h (set_lambda pr l))
               (add_gradient h pr) qs); [|done|].
    2:{ intros j Hj. destruct (Hlook j Hj) as (q & qr & Hq & Hqr & Hqj).
        destruct (Hall q qr Hqr) as [lq Hqk].
        by exists q, (set_lambda qr lq), qr. }
    cbn [mbind option_bind].
    rewrite (neighbor_loop _ nb (add_neighbor_term h (set_lambda pr l))
               (add_neighbor_term h pr) qs); [|done|].
    2:{ intros j Hj. destruct (Hlook j Hj) as (q & qr & Hq & Hqr & Hqj).
        destruct (Hall q qr Hqr) as [lq Hqk].
        by exists q, (set_lambda qr lq), qr. }
    cbn [mbind option_bind].
    destruct (assign_is_Some (set_fluid_particles sim ps) p
                (set_lambda pr (particle_lambda h rd pr qs)) _ Hcur)
      as (sim1 & E1 & Hsim1).
    exists sim1. split; [exact E1|].
    split; [|split].
    + eexists. by rewrite Hsim1.
    + intros q qr Hq. rewrite (deref_assign _ _ _ _ _ E1).
      case_decide as Hpq; [|by apply Hall].
      subst q. exists (particle_lambda h rd pr qs). congruence.
    + intros j q qr nb' qs' Hj (Hq & Hqr & Hnb' & Hqs').
      rewrite (deref_assign _ _ _ _ _ E1).
      destruct (decide (j = i)) as [->|Hne].
      * assert (q = p) as -> by congruence.
        assert (qr = pr) as -> by congruence.
        assert (nb' = nb) as -> by congruence.
        assert (qs' = qs) as -> by congruence.
        by rewrite decide_True.
      * rewrite decide_False.
        -- apply (Hdone j q qr nb' qs'); [lia|done].
        -- intros Heq. subst q. apply Hne.
           apply (Hinj j i p); (lia || done).
  - exists sim'. split; [exact E|]. destruct HI as (_ & _ & Hdone).
    exact Hdone.
Qed.

(** C4.  With a non-zero rest density, valid pointers and neighbour lists,
    and pairwise distinct local pointers, [calculate_lambda] leaves in every
    local particle the multiplier [- C_i / (Sigma_i + 1.0)], where
    [C_i = density_i / rest_density - 1] and [Sigma_i] is the squared norm
    of the summed gradient terms of the neighbours plus the sum of the
    squared norms of the single terms; nothing but the multiplier of the
    record changes. *)
Theorem calculate_lambda_spec (sim : fluid_sim_t) :
  let n := number_fluid_particles_local (params sim) in
  let h := smoothing_radius (tunable_params (params sim)) in
  let rd := rest_density (tunable_params (params sim)) in
  rd <> 0 ->
  (forall i, (0 <= i < n)%Z ->
     exists p pr nb qs, local_data sim i p pr nb qs) ->
  (forall i j p, (0 <= i < n)%Z -> (0 <= j < n)%Z ->
     load (fluid_particle_pointers sim) i = Some p ->
     load (fluid_particle_pointers sim) j = Some p -> i = j) ->
  exists sim', calculate_lambda sim = Some sim' /\
    forall i p pr nb qs, (0 <= i < n)%Z -> local_data sim i p pr nb qs ->
      exists pr', deref sim' p = Some pr' /\
        pr' = set_lambda pr (lambda pr') /\
        lambda pr' =
          - (density pr / rd - 1) / (pbf_gradient_sum h pr qs + 1) /\
        lambda pr' = pbf_lambda h rd pr qs.
Proof.
  intros n h rd Hrd Hwf Hinj.
  destruct (calculate_lambda_run sim Hwf Hinj) as (sim' & E & Hall).
  exists sim'. split; [exact E|]. intros i p pr nb qs Hi Hdata.
  eexists. split; [by apply (Hall i p pr nb qs)|].
  cbn [lambda set_lambda]. split; [done|].
  unfold particle_lambda, pbf_lambda. fold h rd.
  by rewrite particle_sum_C_eq, sum_C_scale_one, Rmult_1_r.
Qed.

Lemma calculate_lambda_spec_witness :
  exists sim', calculate_lambda small_sim = Some sim' /\
    (exists pr', deref sim' 1 = Some pr' /\
       lambda pr' =
         pbf_lambda 1 2 (mkParticle 4 1 4 2 0 0 3 0 0 0)
           [mkParticle 3 1 3 1 0 0 2 0 0 0;
            mkParticle 9 1 9.5 1 0 0 1 0 0 0]) /\
    (exists pr', deref sim' 2 = Some pr' /\ lambda pr' = 1 / 2).
Proof.
  destruct (calculate_lambda_spec small_sim) as (sim' & E & Hall).
  - cbn. lra.
  - intros i Hi. cbn in Hi.
    index_cases i; eexists _, _, _, _; repeat split; reflexivity.
  - intros i j p Hi Hj Hpi Hpj. cbn in Hi, Hj.
    index_cases i; index_cases j; try done; eval_load.
  - exists sim'. split; [exact E|]. split.
    + destruct (Hall 1%Z 1%Z (mkParticle 4 1 4 2 0 0 3 0 0 0)
                  (mkNeighbor [0; 2]%Z 2)
                  [mkParticle 3 1 3 1 0 0 2 0 0 0;
                   mkParticle 9 1 9.5 1 0 0 1 0 0 0])
        as (pr' & Hpr' & _ & _ & Hl); [cbn; lia|by repeat split|].
      by exists pr'.
    + destruct (Hall 2%Z 2%Z (mkParticle 9 1 9.5 1 0 0 1 0 0 0)
                  (mkNeighbor [] 0) [])
        as (pr' & Hpr' & _ & Hl & _); [cbn; lia|by repeat split|].
      exists pr'. split; [done|]. rewrite Hl.
      unfold pbf_gradient_sum, norm2, Rsum. cbn. lra.
Defined.

(** C5.  The factor that [calculate_lambda] multiplies the accumulated
    [sum_C] by is [(1 / rest_density) * rest_density], which is [1] for
    every non-zero rest density.  So the multiplier that [calculate_lambda]
    stores in a local particle is [- C_i] over the accumulated sum itself
    plus [1.0], with [C_i = density / rest_density - 1]; and the rest
    density enters through [C_i] alone: run on the same state with another
    non-zero rest density, [calculate_lambda] stores a multiplier in the
    same ratio to its [C_i]. *)
Theorem sum_C_scale_is_one (sim : fluid_sim_t) :
  let n := number_fluid_particles_local (params sim) in
  let h := smoothing_radius (tunable_params (params sim)) in
  let rd := rest_density (tunable_params (params sim)) in
  rd <> 0 ->
  (forall i, (0 <= i < n)%Z ->
     exists p pr nb qs, local_data sim i p pr nb qs) ->
  (forall i j p, (0 <= i < n)%Z -> (0 <= j < n)%Z ->
     load (fluid_particle_pointers sim) i = Some p ->
     load (fluid_particle_pointers sim) j = Some p -> i = j) ->
  sum_C_scale rd = 1 /\
  exists sim', calculate_lambda sim = Some sim' /\
    (forall i p pr nb qs, (0 <= i < n)%Z -> local_data sim i p pr nb qs ->
       exists pr', deref sim' p = Some pr' /\
         lambda pr'
           = - (density pr / rd - 1) / (particle_sum_C h pr qs + 1)) /\
    (forall rd2, rd2 <> 0 ->
       exists sim2, calculate_lambda (with_rest_density sim rd2) = Some sim2 /\
         forall i p pr nb qs, (0 <= i < n)%Z ->
           local_data sim i p pr nb qs ->
           exists pr' pr2, deref sim' p = Some pr' /\
             deref sim2 p = Some pr2 /\
             lambda pr2
               = - (density pr / rd2 - 1) / (particle_sum_C h pr qs + 1) /\
             lambda pr' * (density pr / rd2 - 1)
               = lambda pr2 * (density pr / rd - 1)).
Proof.
  intros n h rd Hrd Hwf Hinj.
  split; [by apply sum_C_scale_one|].
  destruct (calculate_lambda_run sim Hwf Hinj) as (sim' & E & Hall).
  fold n h rd in Hall.
  assert (forall pr qs,
            particle_lambda h rd pr qs
              = - (density pr / rd - 1) / (particle_sum_C h pr qs + 1))
    as Hlam.
  { intros pr qs. unfold particle_lambda.
    by rewrite sum_C_scale_one, Rmult_1_r. }
  exists sim'. split; [exact E|]. split.
  - intros i p pr nb qs Hi Hdata.
    eexists. split; [by apply (Hall i p pr nb qs)|].
    cbn [lambda set_lambda]. apply Hlam.
  - intros rd2 Hrd2.
    destruct (calculate_lambda_run (with_rest_density sim rd2))
      as (sim2 & E2 & Hall2); [exact Hwf|exact Hinj|].
    exists sim2. split; [exact E2|].
    intros i p pr nb qs Hi Hdata.
    eexists _, _. split; [by apply (Hall i p pr nb qs)|].
    split; [by apply (Hall2 i p pr nb qs)|].
    cbn [lambda set_lambda params tunable_params with_rest_density
           smoothing_radius rest_density].
    fold h. rewrite Hlam.
    assert (particle_lambda h rd2 pr qs
              = - (density pr / rd2 - 1) / (particle_sum_C h pr qs + 1))
      as ->.
    { unfold particle_lambda. by rewrite sum_C_scale_one, Rmult_1_r. }
    split; [done|]. unfold Rdiv. ring.
Qed.

Lemma sum_C_scale_is_one_witness :
  sum_C_scale 2 = 1 /\
  exists sim', calculate_lambda small_sim = Some sim' /\
    (exists pr', deref sim' 1 = Some pr' /\
       lambda pr'
         = - (3 / 2 - 1)
           / (particle_sum_C 1 (mkParticle 4 1 4 2 0 0 3 0 0 0)
                [mkParticle 3 1 3 1 0 0 2 0 0 0;
                 mkParticle 9 1 9.5 1 0 0 1 0 0 0] + 1)) /\
    exists sim2, calculate_lambda (with_rest_density small_sim 4) = Some sim2 /\
      exists pr2, deref sim2 2 = Some pr2 /\
        lambda pr2
          = - (1 / 4 - 1)
            / (particle_sum_C 1 (mkParticle 9 1 9.5 1 0 0 1 0 0 0) [] + 1).
Proof.
  destruct (sum_C_scale_is_one small_sim) as (Hone & sim' & E & Hall & Hother).
  - cbn. lra.
  - intros i Hi. cbn in Hi.
    index_cases i; eexists _, _, _, _; repeat split; reflexivity.
  - intros i j p Hi Hj Hpi Hpj. cbn in Hi, Hj.
    index_cases i; index_cases j; try done; eval_load.
  - split; [exact Hone|]. exists sim'. split; [exact E|]. split.
    + destruct (Hall 1%Z 1%Z (mkParticle 4 1 4 2 0 0 3 0 0 0)
                  (mkNeighbor [0; 2]%Z 2)
                  [mkParticle 3 1 3 1 0 0 2 0 0 0;
                   mkParticle 9 1 9.5 1 0 0 1 0 0 0])
        as (pr' & Hpr' & Hl); [cbn; lia|by repeat split|].
      by exists pr'.
    + destruct (Hother 4 ltac:(lra)) as (sim2 & E2 & Hall2).
      exists sim2. split; [exact E2|].
      destruct (Hall2 2%Z 2%Z (mkParticle 9 1 9.5 1 0 0 1 0 0 0)
                  (mkNeighbor [] 0) [])
        as (pr' & pr2 & _ & Hpr2 & Hl & _); [cbn; lia|by repeat split|].
      by exists pr2.
Defined.

End FluidFacts.

(** ** Facts about the parameter controls *)

Module ControlsFacts.
Import Controls.
Local Open Scope R_scope.

(** Unfolds the controls and decides their guards. *)
Ltac step_cases :=
  unfold increase_gravity, decrease_gravity, increase_density,
    decrease_density, increase_smoothing_radius, decrease_smoothing_radius,
    increase_dq, decrease_dq, increase_viscosity, decrease_viscosity,
    increase_k, decrease_k, increase_mover_radius, decrease_mover_radius,
    reset_mover_radius in *;
  cbv zeta in *; repeat case_decide; cbn in *.

Section Selection.
Variables MIN MAX : Z.
Variables GRAVITY SMOOTH DENSITY K DQ VISCOSITY : Z.

(** One step down, in closed form. *)
Lemma move_parameter_down_mod (t : TunableControls) :
  (MIN <= selected_parameter t <= MAX)%Z ->
  selected_parameter (move_parameter_down MIN MAX t) =
    (MIN + (selected_parameter t - MIN + 1) mod (MAX - MIN + 1))%Z.
Proof.
  intros Hs. unfold move_parameter_down. case_decide as Hmax; cbn.
  - rewrite Hmax. replace (MAX - MIN + 1)%Z with (1 * (MAX - MIN + 1))%Z at 1
      by lia. rewrite Z.mod_mul by lia. lia.
  - rewrite Z.mod_small by lia. lia.
Qed.

Lemma move_parameter_down_frame (t : TunableControls) :
  move_parameter_down MIN MAX t = set_selected_parameter t (selected_parameter (move_parameter_down MIN MAX t)).
Proof. unfold move_parameter_down. by case_decide. Qed.

Lemma iter_down_mod (n : nat) (t : TunableControls) :
  (MIN <= selected_parameter t <= MAX)%Z ->
  selected_parameter (Nat.iter n (move_parameter_down MIN MAX) t) =
    (MIN + (selected_parameter t - MIN + Z.of_nat n) mod (MAX - MIN + 1))%Z.
Proof.
  intros Hs. induction n as [|n IH].
  - cbn. rewrite Z.add_0_r, Z.mod_small by lia. lia.
  - rewrite Nat.iter_succ, move_parameter_down_mod.
    + rewrite IH.
      replace (MIN + (selected_parameter t - MIN + Z.of_nat n)
                       mod (MAX - MIN + 1) - MIN + 1)%Z
        with ((selected_parameter t - MIN + Z.of_nat n)
                mod (MAX - MIN + 1) + 1)%Z by lia.
      rewrite Zplus_mod_idemp_l. f_equal. f_equal. lia.
    + rewrite IH.
      pose proof (Z.mod_pos_bound
                    (selected_parameter t - MIN + Z.of_nat n)
                    (MAX - MIN + 1)) as Hb. lia.
Qed.

Lemma iter_down_frame (n : nat) (t : TunableControls) :
  Nat.iter n (move_parameter_down MIN MAX) t =
  set_selected_parameter t (selected_parameter (Nat.iter n (move_parameter_down MIN MAX) t)).
Proof.
  induction n as [|n IH]; [by destruct t|].
  rewrite Nat.iter_succ, move_parameter_down_frame. rewrite IH at 1.
  reflexivity.
Qed.

(** X1.  On a selection inside [[MIN, MAX]] the two moves stay inside the
    range and undo each other, and [MAX - MIN + 1] moves down lead back to
    the start. *)
Theorem move_parameter_cycle (t : TunableControls) :
  (MIN <= selected_parameter t <= MAX)%Z ->
  (MIN <= selected_parameter (move_parameter_up MIN MAX t) <= MAX)%Z /\
  (MIN <= selected_parameter (move_parameter_down MIN MAX t) <= MAX)%Z /\
  move_parameter_down MIN MAX (move_parameter_up MIN MAX t) = t /\
  move_parameter_up MIN MAX (move_parameter_down MIN MAX t) = t /\
  Nat.iter (Z.to_nat (MAX - MIN + 1)) (move_parameter_down MIN MAX) t = t.
Proof.
  intros Hs. split; [|split; [|split; [|split]]].
  - unfold move_parameter_up. case_decide; cbn; lia.
  - unfold move_parameter_down. case_decide; cbn; lia.
  - unfold move_parameter_up, move_parameter_down.
    destruct t as [s ? ? ? ? ? ? ?]. cbn in *.
    repeat (case_decide; cbn in * ); unfold set_selected_parameter; cbn;
      f_equal; lia.
  - unfold move_parameter_up, move_parameter_down.
    destruct t as [s ? ? ? ? ? ? ?]. cbn in *.
    repeat (case_decide; cbn in * ); unfold set_selected_parameter; cbn;
      f_equal; lia.
  - rewrite iter_down_frame, iter_down_mod by done.
    rewrite Z2Nat.id by lia.
    replace (selected_parameter t - MIN + (MAX - MIN + 1))%Z
      with (selected_parameter t - MIN + 1 * (MAX - MIN + 1))%Z by lia.
    rewrite Z.mod_add, Z.mod_small by lia.
    destruct t. unfold set_selected_parameter. cbn. f_equal. lia.
Qed.

Lemma press_in_range (b : key) (t : TunableControls) :
  in_range t ->
  in_range (press MIN MAX GRAVITY SMOOTH DENSITY K DQ VISCOSITY b t).
Proof.
  intros [Hh Hd Hc Hk].
  destruct b; cbn;
    unfold move_parameter_up, move_parameter_down, increase_parameter,
      decrease_parameter;
    repeat case_decide; try (by split);
    step_cases; split; cbn; lra.
Qed.

Lemma press_gravity (b : key) (t : TunableControls) :
  g (press MIN MAX GRAVITY SMOOTH DENSITY K DQ VISCOSITY b t) <= g t.
Proof.
  destruct b; cbn;
    unfold move_parameter_up, move_parameter_down, increase_parameter,
      decrease_parameter;
    repeat case_decide; cbn; try lra; step_cases; lra.
Qed.

(** X2.  Whatever the values of the enumerators, no sequence of the four
    parameter keys takes the smoothing radius, the rest density, the
    viscosity or [k] out of the range given by its two bounds widened by one
    step. *)
Theorem press_all_in_range (bs : list key) (t : TunableControls) :
  in_range t ->
  in_range (press_all MIN MAX GRAVITY SMOOTH DENSITY K DQ VISCOSITY bs t).
Proof.
  unfold Controls.press_all. revert t.
  induction bs as [|b bs IH]; intros t Ht; [done|].
  cbn. apply IH. by apply press_in_range.
Qed.

(** X3.  No sequence of the four parameter keys ever raises [g]:
    [decrease_gravity] subtracts like [increase_gravity] does. *)
Theorem press_all_gravity (bs : list key) (t : TunableControls) :
  g (press_all MIN MAX GRAVITY SMOOTH DENSITY K DQ VISCOSITY bs t) <= g t.
Proof.
  unfold Controls.press_all. revert t.
  induction bs as [|b bs IH]; intros t; [cbn; lra|].
  cbn.
  pose proof
    (IH (press MIN MAX GRAVITY SMOOTH DENSITY K DQ VISCOSITY b t)).
  pose proof (press_gravity b t). lra.
Qed.

End Selection.

Lemma move_parameter_cycle_witness :
  move_parameter_down 0 5 (move_parameter_up 0 5 sample_controls)
    = sample_controls /\
  Nat.iter 6 (move_parameter_down 0 5) sample_controls = sample_controls.
Proof.
  destruct (move_parameter_cycle 0 5 sample_controls)
    as (_ & _ & Hdu & _ & Hcycle); [cbn; lia|].
  split; [exact Hdu|exact Hcycle].
Defined.

Lemma sample_controls_in_range : in_range sample_controls.
Proof. split; cbn; lra. Qed.

Lemma press_all_in_range_witness :
  in_range
    (press_all 0 5 0 1 2 3 4 5 [Increase; Down; Decrease; Decrease; Up]
       sample_controls).
Proof.
  apply (press_all_in_range 0 5 0 1 2 3 4 5), sample_controls_in_range.
Defined.

(** X4.  The two gravity controls do not undo each other: for
    [-9 < g < 10] an [increase_gravity] followed by a [decrease_gravity]
    lowers [g] by [2], for [-8 < g < 9] so does the pair in the other order,
    and no other member changes. *)
Theorem opposite_steps (t : TunableControls) :
  (- 9 < g t < 10 ->
   decrease_gravity (increase_gravity t) = set_g t (g t - 1 - 1)) /\
  (- 8 < g t < 9 ->
   increase_gravity (decrease_gravity t) = set_g t (g t - 1 - 1)).
Proof.
  destruct t as [s tg th td tq tc tk tr].
  split; intros; step_cases; try lra; unfold set_g; cbn; f_equal; lra.
Qed.

Lemma opposite_steps_witness :
  decrease_gravity (increase_gravity sample_controls)
    = set_g sample_controls (6 - 1 - 1) /\
  increase_gravity (decrease_gravity sample_controls)
    = set_g sample_controls (6 - 1 - 1).
Proof.
  destruct (opposite_steps sample_controls) as (Hid & Hdi).
  split; [apply Hid; cbn; lra|apply Hdi; cbn; lra].
Defined.

(** X5.  [decrease_gravity] has no floor: below [9] every call lowers [g]
    by [1], so [n] calls lower it by [n].  [increase_gravity] stops at its
    bound: from above [-10] it never reaches [-10]. *)
Theorem gravity_steps (n : nat) (t : TunableControls) :
  (g t < 9 -> g (Nat.iter n decrease_gravity t) = g t - INR n) /\
  (- 10 < g t -> - 10 < g (Nat.iter n increase_gravity t)).
Proof.
  split; intros Hg.
  - induction n as [|n IH]; [cbn; lra|].
    rewrite Nat.iter_succ, S_INR. unfold decrease_gravity at 1. cbv zeta.
    pose proof (pos_INR n). rewrite decide_True by lra. cbn. lra.
  - induction n as [|n IH]; [done|].
    rewrite Nat.iter_succ. unfold increase_gravity at 1. cbv zeta.
    case_decide; cbn; lra.
Qed.

Lemma gravity_steps_witness :
  g (Nat.iter 20 decrease_gravity sample_controls) = 6 - INR 20 /\
  - 10 < g (Nat.iter 20 increase_gravity sample_controls).
Proof.
  destruct (gravity_steps 20 sample_controls) as [Hd Hi].
  split; [apply Hd; cbn; lra | apply Hi; cbn; lra].
Defined.

(** X20.  The mover radius stays within [[0.8, 4.2]] under its three
    operations, and [reset_mover_radius] brings it there from anywhere; for
    a smoothing radius that is not negative, [increase_dq] and [decrease_dq]
    keep [dq] within [[-0.05 h, 1.05 h]] and leave the smoothing radius
    alone. *)
Theorem mover_and_dq_range (t : TunableControls) :
  (0.8 <= mover_radius t <= 4.2 ->
   0.8 <= mover_radius (increase_mover_radius t) <= 4.2 /\
   0.8 <= mover_radius (decrease_mover_radius t) <= 4.2) /\
  0.8 <= mover_radius (reset_mover_radius t) <= 4.2 /\
  (0 <= smoothing_radius t ->
   - 0.05 * smoothing_radius t <= dq t <= 1.05 * smoothing_radius t ->
   forall t', t' = increase_dq t \/ t' = decrease_dq t ->
     smoothing_radius t' = smoothing_radius t /\
     - 0.05 * smoothing_radius t <= dq t' <= 1.05 * smoothing_radius t).
Proof.
  destruct t as [s tg th td tq tc tk tr]. cbn.
  split; [|split].
  - intros Hr. split; step_cases; cbn; lra.
  - lra.
  - intros Hh Hq t' [-> | ->]; step_cases; cbn; split; try done; lra.
Qed.

Lemma mover_and_dq_range_witness :
  0.8 <= mover_radius (increase_mover_radius sample_controls) <= 4.2 /\
  - 0.05 * 1 <= dq (decrease_dq sample_controls) <= 1.05 * 1.
Proof.
  destruct (mover_and_dq_range sample_controls) as (Hm & _ & Hq).
  split; [apply Hm; cbn; lra|].
  apply (Hq ltac:(cbn; lra) ltac:(cbn; lra) (decrease_dq sample_controls)).
  by right.
Defined.

End ControlsFacts.

(** ** More facts about the partition controller *)

Module TunableMoreFacts.
Import Mem MemFacts Tunable TunableFacts.
Local Open Scope R_scope.

(** X6.  [remove_partition] undoes a split: after an [add_partition] that
    split the last interval, the active count and every slot but the one of
    the added rank are as before, and that slot is parked at the old end
    plus [1.0]. *)
Theorem remove_after_add (t : TunableParameters) (s e : R) :
  let n := num_compute_procs_active t in
  n <> num_compute_procs t ->
  (n < Z.of_nat (length (proc_starts t)))%Z ->
  (n < Z.of_nat (length (proc_ends t)))%Z ->
  load (proc_starts t) (n - 1) = Some s ->
  load (proc_ends t) (n - 1) = Some e ->
  2.5 * smoothing_radius t <= e - s ->
  exists t1 t2, add_partition t = Some t1 /\ t1 <> t /\
    remove_partition t1 = Some t2 /\
    num_compute_procs_active t2 = n /\
    num_compute_procs t2 = num_compute_procs t /\
    smoothing_radius t2 = smoothing_radius t /\
    (forall i, i <> n ->
       load (proc_starts t2) i = load (proc_starts t) i /\
       load (proc_ends t2) i = load (proc_ends t) i) /\
    load (proc_starts t2) n = Some (e + 1) /\
    load (proc_ends t2) n = Some (e + 1).
Proof.
  intros n HN Hcs Hce Hs He Hw.
  assert (1 <= n)%Z by (apply load_in_range in Hs; lia).
  eexists _, _. split.
  { apply add_partition_eq with (s := s) (e := e); try done. fold n. lra. }
  split.
  { intros Heq. apply (f_equal num_compute_procs_active) in Heq.
    cbn in Heq. lia. }
  split.
  { rewrite (remove_partition_eq _ e); cbn; rewrite ?length_insert;
      try lia; [done|].
    fold n. replace (n + 1 - 1)%Z with n by lia.
    rewrite !load_insert by (rewrite ?length_insert; lia).
    by rewrite decide_False, decide_True by lia. }
  subst n. destruct t as [h starts ends n N]. cbn in * |-. cbn.
  replace (n + 1 - 1)%Z with n by lia.
  repeat split; try lia; intros; load_cases; congruence.
Qed.

Lemma remove_after_add_witness :
  exists t1 t2, add_partition whole_domain_table = Some t1 /\
    remove_partition t1 = Some t2 /\
    num_compute_procs_active t2 = 1%Z /\
    load (proc_starts t2) 0 = Some 0 /\ load (proc_ends t2) 0 = Some 10 /\
    load (proc_starts t2) 1 = Some (10 + 1).
Proof.
  destruct (remove_after_add whole_domain_table 0 10)
    as (t1 & t2 & E1 & _ & E2 & Hn & _ & _ & Hsame & Hs & _);
    cbn; try lia; try (by eval_load); [lra|].
  exists t1, t2. cbn in Hn, Hs.
  destruct (Hsame 0%Z) as [H0s H0e]; [cbn; lia|].
  split; [done|]. split; [done|]. split; [done|].
  split; [by rewrite H0s|]. split; [by rewrite H0e|done].
Defined.

Lemma load_None {A} (a : list A) (i : Z) :
  ~ (0 <= i < Z.of_nat (length a))%Z -> load a i = None.
Proof.
  intros Hi. destruct (load a i) as [v|] eqn:E; [|done].
  by apply load_in_range in E.
Qed.

Lemma store_None {A} (a : list A) (i : Z) (v : A) :
  ~ (0 <= i < Z.of_nat (length a))%Z -> store a i v = None.
Proof. intros Hi. unfold store. by rewrite decide_False. Qed.

(** X23.  Where the partition operations leave their arrays.  With no
    active rank, [remove_partition] reads [proc_ends[-1]], and so does
    [add_partition] unless the total is zero as well; with more than one
    active rank counted than [proc_ends] has slots, [remove_partition] reads
    beyond it; and when the total exceeds the capacity, an [add_partition]
    that finds every slot in use and the last interval wide enough writes
    beyond the arrays. *)
Theorem partition_faults (t : TunableParameters) :
  let n := num_compute_procs_active t in
  ((n <= 0)%Z -> remove_partition t = None) /\
  ((n <= 0)%Z -> n <> num_compute_procs t -> add_partition t = None) /\
  ((Z.of_nat (length (proc_ends t)) < n)%Z -> n <> 1%Z ->
   remove_partition t = None) /\
  (forall s e, n <> num_compute_procs t ->
     load (proc_starts t) (n - 1) = Some s ->
     load (proc_ends t) (n - 1) = Some e ->
     2.5 * smoothing_radius t <= e - s ->
     (Z.of_nat (length (proc_ends t)) <= n)%Z \/
     (Z.of_nat (length (proc_starts t)) <= n)%Z ->
     add_partition t = None).
Proof.
  intros n. subst n. split; [|split; [|split]].
  - intros Hn. unfold remove_partition. rewrite decide_False by lia.
    cbv zeta. by rewrite (load_None (proc_ends t)) by lia.
  - intros Hn HN. unfold add_partition. rewrite decide_False by done.
    cbv zeta. by rewrite (load_None (proc_ends t)) by lia.
  - intros Hlen H1. unfold remove_partition. rewrite decide_False by done.
    cbv zeta. by rewrite (load_None (proc_ends t)) by lia.
  - intros s e HN Hs He Hw Hcap. unfold add_partition.
    rewrite decide_False by done. cbv zeta. rewrite He, Hs.
    cbn [mbind option_bind]. rewrite decide_False by lra.
    pose proof (load_in_range _ _ _ He) as Hre.
    destruct (decide (num_compute_procs_active t
                      < Z.of_nat (length (proc_ends t)))%Z) as [Hlt|Hge].
    + destruct Hcap as [Hcap|Hcap]; [lia|].
      rewrite (store_Some (proc_ends t)) by lia. cbn [mbind option_bind].
      rewrite (store_Some (<[_ := _]> (proc_ends t)))
        by (rewrite length_insert; lia).
      cbn [mbind option_bind].
      by rewrite (store_None (proc_starts t)) by lia.
    + by rewrite (store_None (proc_ends t)) by lia.
Qed.

Lemma partition_faults_witness :
  remove_partition (mkTunable 1 [0; 5] [5; 10] 0 2) = None /\
  add_partition (mkTunable 1 [0; 5] [5; 10] 2 3) = None.
Proof.
  split.
  - destruct (partition_faults (mkTunable 1 [0; 5] [5; 10] 0 2))
      as (Hremove & _).
    apply Hremove. cbn. lia.
  - destruct (partition_faults (mkTunable 1 [0; 5] [5; 10] 2 3))
      as (_ & _ & _ & Hadd).
    apply (Hadd 5 10); cbn; try lia; try (by eval_load); lra.
Defined.

End TunableMoreFacts.
(** ** More facts about the fluid step *)

Module FluidStepFacts.
Import Mem MemFacts Fluid FluidFacts FluidStep.
Local Open Scope R_scope.

(** *** Loops that rewrite one record per pointer *)

Lemma modify_eq (s : fluid_sim_t) (p : pointer)
    (f : fluid_particle_t -> fluid_particle_t) (pr : fluid_particle_t) :
  deref s p = Some pr -> modify s p f = assign s p (f pr).
Proof. intros Hp. unfold modify. by rewrite Hp. Qed.

(** A second write to the same record replaces the first. *)
Lemma assign_assign (s s1 : fluid_sim_t) (p : pointer)
    (v w : fluid_particle_t) :
  assign s p v = Some s1 -> assign s1 p w = assign s p w.
Proof.
  unfold assign. destruct (store (fluid_particles s) p v) as [ps|] eqn:E;
    [|done]. intros [= <-]. cbn.
  apply store_inv in E as [Hp ->].
  rewrite !store_Some by (rewrite ?length_insert; lia). cbn.
  by rewrite list_insert_insert_eq.
Qed.

Lemma deref_assign_eq (s s1 : fluid_sim_t) (p : pointer)
    (v : fluid_particle_t) :
  assign s p v = Some s1 -> deref s1 p = Some v.
Proof. intros E. rewrite (deref_assign _ _ _ p _ E). by rewrite decide_True. Qed.

(** Two and three writes to the record behind one pointer. *)
Lemma modify_modify (s : fluid_sim_t) (p : pointer) (pr : fluid_particle_t)
    (f1 f2 : fluid_particle_t -> fluid_particle_t) :
  deref s p = Some pr ->
  (s1 ← modify s p f1; modify s1 p f2) = assign s p (f2 (f1 pr)).
Proof.
  intros Hp. rewrite (modify_eq _ _ _ _ Hp).
  destruct (assign_is_Some s p (f1 pr) _ Hp) as (s1 & E1 & _).
  rewrite E1. cbn. rewrite (modify_eq _ _ _ (f1 pr)).
  - by apply assign_assign with (v := f1 pr).
  - by apply deref_assign_eq with (s := s).
Qed.

Lemma modify_thrice (s : fluid_sim_t) (p : pointer) (pr : fluid_particle_t)
    (f1 f2 : fluid_particle_t -> fluid_particle_t)
    (f3 : fluid_sim_t -> fluid_particle_t -> fluid_particle_t)
    (v : fluid_particle_t) :
  deref s p = Some pr ->
  (forall ps, f3 (set_fluid_particles s ps) (f2 (f1 pr)) = v) ->
  (s1 ← modify s p f1; s2 ← modify s1 p f2; modify s2 p (f3 s2))
    = assign s p v.
Proof.
  intros Hp Hv. rewrite (modify_eq _ _ _ _ Hp).
  destruct (assign_is_Some s p (f1 pr) _ Hp) as (s1 & E1 & Hs1).
  rewrite E1. cbn.
  pose proof (deref_assign_eq _ _ _ _ E1) as Hp1.
  rewrite (modify_eq _ _ _ _ Hp1), (assign_assign _ _ _ _ _ E1).
  destruct (assign_is_Some s p (f2 (f1 pr)) _ Hp) as (s2 & E2 & Hs2).
  rewrite E2. cbn.
  pose proof (deref_assign_eq _ _ _ _ E2) as Hp2.
  rewrite (modify_eq _ _ _ _ Hp2), (assign_assign _ _ _ _ _ E2).
  f_equal. rewrite Hs2. apply Hv.
Qed.

(** The loop [for i < n: rewrite the record behind pointer i with f]: it
    succeeds when the pointers are valid, touches the visited records only,
    and leaves [f] of the original record in each of them, provided that
    either no record is visited twice or a second [f] changes nothing. *)
Lemma pointer_loop_run (sim : fluid_sim_t) (n : Z)
    (body : Z -> fluid_sim_t -> option fluid_sim_t)
    (f : fluid_particle_t -> fluid_particle_t) :
  (forall i ps p pr,
     load (fluid_particle_pointers sim) i = Some p ->
     deref (set_fluid_particles sim ps) p = Some pr ->
     body i (set_fluid_particles sim ps)
       = assign (set_fluid_particles sim ps) p (f pr)) ->
  (forall i, (0 <= i < n)%Z -> exists p pr,
     load (fluid_particle_pointers sim) i = Some p /\
     deref sim p = Some pr) ->
  (forall pr, f (f pr) = f pr) \/ NoDup (visited sim n) ->
  exists ps, for_loop n body sim = Some (set_fluid_particles sim ps) /\
    length ps = length (fluid_particles sim) /\
    forall p pr, deref sim p = Some pr ->
      deref (set_fluid_particles sim ps) p =
        Some (if decide (p ∈ visited sim n) then f pr else pr).
Proof.
  intros Hbody Hwf Hdup.
  destruct (decide (0 <= n)%Z) as [Hn|Hn].
  2:{ exists (fluid_particles sim). rewrite for_loop_nonpos by lia.
      split; [by destruct sim|]. split; [done|]. intros p pr Hp.
      unfold visited. replace (Z.to_nat n) with 0%nat by lia. cbn.
      rewrite decide_False by apply not_elem_of_nil. by destruct sim. }
  destruct (for_loop_inv
    (fun k s => exists ps, s = set_fluid_particles sim ps /\
       length ps = length (fluid_particles sim) /\
       forall p pr, deref sim p = Some pr ->
         deref s p = Some (if decide (p ∈ visited sim k) then f pr else pr))
    n body sim) as (sim' & E & ps & -> & Hlen & Hall); [exact Hn| | |].
  - exists (fluid_particles sim). split; [by destruct sim|]. split; [done|].
    intros p pr Hp. unfold visited. cbn.
    by rewrite decide_False by apply not_elem_of_nil.
  - intros k s Hk (ps & -> & Hlen & Hall).
    destruct (Hwf k Hk) as (p & pr & Hp & Hpr).
    pose proof (Hall p pr Hpr) as Hcur.
    rewrite (Hbody k ps p _ Hp Hcur).
    destruct (assign_is_Some _ p
                (f (if decide (p ∈ visited sim k) then f pr else pr)) _ Hcur)
      as (s1 & E1 & Hs1).
    set (v := f (if decide (p ∈ visited sim k) then f pr else pr)) in *.
    assert (s1 = set_fluid_particles sim (<[Z.to_nat p := v]> ps)) as Hs1'
      by (by rewrite Hs1).
    exists s1. split; [exact E1|].
    exists (<[Z.to_nat p := v]> ps).
    split; [exact Hs1'|]. split; [by rewrite length_insert|].
    apply load_Some in Hp as [_ Hpk].
    assert (visited sim (k + 1) = visited sim k ++ [p]) as Hvis.
    { unfold visited. replace (Z.to_nat (k + 1)) with (S (Z.to_nat k)) by lia.
      by apply take_S_r. }
    intros q qr Hq. rewrite (deref_assign _ _ _ q _ E1), Hvis.
    subst v.
    destruct (decide (p = q)) as [<-|Hne].
    + assert (pr = qr) as <- by congruence.
      rewrite (decide_True (P := p ∈ visited sim k ++ [p]))
        by (apply elem_of_app; right; by apply list_elem_of_singleton).
      f_equal. case_decide as Hin; [|done].
      destruct Hdup as [Hidem|Hnd]; [apply Hidem|].
      exfalso. apply elem_of_take in Hin as (j & Hj & Hjk).
      assert (j = Z.to_nat k); [|lia].
      apply (NoDup_lookup _ _ _ p Hnd); unfold visited;
        rewrite lookup_take_lt by lia; done.
    + rewrite (Hall q qr Hq). f_equal. apply decide_ext.
      rewrite elem_of_app, list_elem_of_singleton.
      split; [by left|]. intros [Hin|Heq]; [done|]. by subst q.
  - exists ps. split; [exact E|]. by split.
Qed.

(** Membership among the visited pointers, by index. *)
Lemma elem_of_visited (sim : fluid_sim_t) (n i : Z) (p : pointer) :
  (0 <= i < n)%Z -> load (fluid_particle_pointers sim) i = Some p ->
  p ∈ visited sim n.
Proof.
  intros Hi [_ Hp]%load_Some. apply elem_of_take.
  exists (Z.to_nat i). split; [done|lia].
Qed.

(** The same, read per index, with what the loop leaves alone. *)
Lemma pointer_loop_spec (sim : fluid_sim_t) (n : Z)
    (body : Z -> fluid_sim_t -> option fluid_sim_t)
    (f : fluid_particle_t -> fluid_particle_t) :
  (forall i ps p pr,
     load (fluid_particle_pointers sim) i = Some p ->
     deref (set_fluid_particles sim ps) p = Some pr ->
     body i (set_fluid_particles sim ps)
       = assign (set_fluid_particles sim ps) p (f pr)) ->
  (forall i, (0 <= i < n)%Z -> exists p pr,
     load (fluid_particle_pointers sim) i = Some p /\
     deref sim p = Some pr) ->
  (forall pr, f (f pr) = f pr) \/ NoDup (visited sim n) ->
  exists ps, for_loop n body sim = Some (set_fluid_particles sim ps) /\
    length ps = length (fluid_particles sim) /\
    (forall i p pr, (0 <= i < n)%Z ->
       load (fluid_particle_pointers sim) i = Some p ->
       deref sim p = Some pr ->
       deref (set_fluid_particles sim ps) p = Some (f pr)) /\
    (forall p pr, p ∉ visited sim n -> deref sim p = Some pr ->
       deref (set_fluid_particles sim ps) p = Some pr).
Proof.
  intros Hbody Hwf Hdup.
  destruct (pointer_loop_run sim n body f Hbody Hwf Hdup)
    as (ps & E & Hlen & Hall).
  exists ps. split; [exact E|]. split; [exact Hlen|]. split.
  - intros i p pr Hi Hp Hpr. rewrite (Hall p pr Hpr).
    by rewrite decide_True by (by apply (elem_of_visited sim n i)).
  - intros p pr Hout Hpr. rewrite (Hall p pr Hpr). by rewrite decide_False.
Qed.

(** *** Gravity, prediction, displacement and commit *)


(** X7.  With valid and pairwise distinct local pointers, [apply_gravity]
    adds [- g * dt] to the vertical velocity of every local particle and
    changes nothing else: no other member of a local record, and no record
    that the local pointers do not reach (the halo particles). *)
Theorem apply_gravity_spec (g : R) (sim : fluid_sim_t) :
  let n := number_fluid_particles_local (params sim) in
  let dt := time_step (tunable_params (params sim)) in
  valid_pointers sim n -> NoDup (visited sim n) ->
  exists ps, apply_gravity g sim = Some (set_fluid_particles sim ps) /\
    (forall i p pr, (0 <= i < n)%Z ->
       load (fluid_particle_pointers sim) i = Some p ->
       deref sim p = Some pr ->
       deref (set_fluid_particles sim ps) p
         = Some (set_v_y pr (v_y pr - g * dt))) /\
    (forall p pr, p ∉ visited sim n -> deref sim p = Some pr ->
       deref (set_fluid_particles sim ps) p = Some pr).
Proof.
  intros n dt Hwf Hnd. unfold apply_gravity. fold n dt.
  edestruct (pointer_loop_spec sim n) as (ps & E & _ & Hin & Hout);
    [|exact Hwf|right; exact Hnd|exists ps; split; [exact E|split]].
  - intros i ps p pr Hp Hpr. cbv beta.
    cbn [fluid_particle_pointers set_fluid_particles]. rewrite Hp. cbn.
    by rewrite (modify_eq _ _ _ _ Hpr).
  - intros i p pr Hi Hp Hpr. rewrite (Hin i p pr Hi Hp Hpr).
    do 2 f_equal. lra.
  - exact Hout.
Qed.

Lemma boundaryConditions_state (pr : fluid_particle_t) (sim : fluid_sim_t)
    (ps : list fluid_particle_t) :
  boundaryConditions pr (set_fluid_particles sim ps)
    = boundaryConditions pr sim.
Proof. reflexivity. Qed.

(** [boundaryConditions] changes the predicted position only. *)
Lemma boundaryConditions_frame (pr : fluid_particle_t) (sim : fluid_sim_t) :
  boundaryConditions pr sim =
  set_y_star (set_x_star pr (x_star (boundaryConditions pr sim)))
    (y_star (boundaryConditions pr sim)).
Proof. by rewrite boundaryConditions_eq. Qed.

Lemma predict_positions_run (sim : fluid_sim_t) :
  let n := number_fluid_particles_local (params sim) in
  let dt := time_step (tunable_params (params sim)) in
  valid_pointers sim n ->
  exists ps, predict_positions sim = Some (set_fluid_particles sim ps) /\
    length ps = length (fluid_particles sim) /\
    (forall i p pr, (0 <= i < n)%Z ->
       load (fluid_particle_pointers sim) i = Some p ->
       deref sim p = Some pr ->
       deref (set_fluid_particles sim ps) p
         = Some (boundaryConditions (advance dt pr) sim)) /\
    (forall p pr, p ∉ visited sim n -> deref sim p = Some pr ->
       deref (set_fluid_particles sim ps) p = Some pr).
Proof.
  intros n dt Hwf. unfold predict_positions. fold n dt.
  apply (pointer_loop_spec sim n _
           (fun pr => boundaryConditions (advance dt pr) sim)).
  - intros i ps p pr Hp Hpr. cbv beta.
    cbn [fluid_particle_pointers set_fluid_particles]. rewrite Hp.
    cbn [mbind option_bind].
    by apply (modify_thrice _ p pr
                (fun pr => set_x_star pr (x pr + v_x pr * dt))
                (fun pr => set_y_star pr (y pr + v_y pr * dt))
                (fun s pr => boundaryConditions pr s)).
  - exact Hwf.
  - left. intros pr.
    assert (advance dt (boundaryConditions (advance dt pr) sim)
            = advance dt pr) as ->; [|done].
    by rewrite boundaryConditions_eq.
Qed.

(** X8.  With valid local pointers and a global box that is at least
    [0.001] wide and high, [predict_positions] leaves every local particle
    with a predicted position inside the box, namely the boundary
    conditions applied to [pos + v * dt]; position, velocity and the other
    members are unchanged, and so are the records that the local pointers
    do not reach. *)
Theorem predict_positions_spec (sim : fluid_sim_t) :
  let n := number_fluid_particles_local (params sim) in
  let dt := time_step (tunable_params (params sim)) in
  let b := boundary_global sim in
  valid_pointers sim n ->
  min_x b <= max_x b - 0.001 -> min_y b <= max_y b - 0.001 ->
  exists ps, predict_positions sim = Some (set_fluid_particles sim ps) /\
    (forall i p pr, (0 <= i < n)%Z ->
       load (fluid_particle_pointers sim) i = Some p ->
       deref sim p = Some pr ->
       exists pr', deref (set_fluid_particles sim ps) p = Some pr' /\
         pr' = boundaryConditions (advance dt pr) sim /\
         pr' = set_y_star (set_x_star pr (x_star pr')) (y_star pr') /\
         in_box sim pr') /\
    (forall p pr, p ∉ visited sim n -> deref sim p = Some pr ->
       deref (set_fluid_particles sim ps) p = Some pr).
Proof.
  intros n dt b Hwf Hbx Hby.
  destruct (predict_positions_run sim Hwf) as (ps & E & _ & Hin & Hout).
  exists ps. split; [exact E|]. split; [|exact Hout].
  intros i p pr Hi Hp Hpr. eexists. split; [by apply (Hin i)|].
  split; [done|]. split.
  - rewrite (boundaryConditions_frame (advance _ pr)) at 1. by destruct pr.
  - by apply boundaryConditions_in_box.
Qed.

(** X9.  With valid and pairwise distinct local pointers and a global box
    that is at least [0.001] wide and high, [update_dp_positions] leaves
    every local particle with the boundary conditions applied to
    [pos* + dp], a predicted position inside the box; the records that the
    local pointers do not reach are unchanged. *)
Theorem update_dp_positions_spec (sim : fluid_sim_t) :
  let n := number_fluid_particles_local (params sim) in
  let b := boundary_global sim in
  valid_pointers sim n -> NoDup (visited sim n) ->
  min_x b <= max_x b - 0.001 -> min_y b <= max_y b - 0.001 ->
  exists ps, update_dp_positions sim = Some (set_fluid_particles sim ps) /\
    (forall i p pr, (0 <= i < n)%Z ->
       load (fluid_particle_pointers sim) i = Some p ->
       deref sim p = Some pr ->
       exists pr', deref (set_fluid_particles sim ps) p = Some pr' /\
         pr' = boundaryConditions (displace pr) sim /\
         pr' = set_y_star (set_x_star pr (x_star pr')) (y_star pr') /\
         in_box sim pr') /\
    (forall p pr, p ∉ visited sim n -> deref sim p = Some pr ->
       deref (set_fluid_particles sim ps) p = Some pr).
Proof.
  intros n b Hwf Hnd Hbx Hby. unfold update_dp_positions. fold n.
  destruct (pointer_loop_spec sim n
    (fun i sim =>
       p ← load (fluid_particle_pointers sim) i;
       sim ← modify sim p (fun pr => set_x_star pr (x_star pr + dp_x pr));
       sim ← modify sim p (fun pr => set_y_star pr (y_star pr + dp_y pr));
       modify sim p (fun pr => boundaryConditions pr sim))
    (fun pr => boundaryConditions (displace pr) sim))
    as (ps & E & _ & Hin & Hout); [|exact Hwf|by right|].
  - intros i ps p pr Hp Hpr. cbv beta.
    cbn [fluid_particle_pointers set_fluid_particles]. rewrite Hp.
    cbn [mbind option_bind].
    by apply (modify_thrice _ p pr
                (fun pr => set_x_star pr (x_star pr + dp_x pr))
                (fun pr => set_y_star pr (y_star pr + dp_y pr))
                (fun s pr => boundaryConditions pr s)).
  - exists ps. split; [exact E|]. split; [|exact Hout].
    intros i p pr Hi Hp Hpr. eexists. split; [by apply (Hin i)|].
    split; [done|]. split.
    + rewrite (boundaryConditions_frame (displace pr)) at 1. by destruct pr.
    + by apply boundaryConditions_in_box.
Qed.

(** X10.  With valid local pointers, [update_positions] copies the
    predicted position of every local particle into its position and
    changes nothing else; a particle whose predicted position is inside the
    global box is committed inside the box. *)
Theorem update_positions_spec (sim : fluid_sim_t) :
  let n := number_fluid_particles_local (params sim) in
  let b := boundary_global sim in
  valid_pointers sim n ->
  exists ps, update_positions sim = Some (set_fluid_particles sim ps) /\
    (forall i p pr, (0 <= i < n)%Z ->
       load (fluid_particle_pointers sim) i = Some p ->
       deref sim p = Some pr ->
       exists pr', deref (set_fluid_particles sim ps) p = Some pr' /\
         pr' = set_position pr (x_star pr) (y_star pr) /\
         (in_box sim pr ->
          min_x b <= x pr' <= max_x b /\ min_y b <= y pr' <= max_y b)) /\
    (forall p pr, p ∉ visited sim n -> deref sim p = Some pr ->
       deref (set_fluid_particles sim ps) p = Some pr).
Proof.
  intros n b Hwf. unfold update_positions. fold n.
  destruct (pointer_loop_spec sim n
    (fun i sim =>
       p ← load (fluid_particle_pointers sim) i;
       sim ← modify sim p (fun pr => set_x pr (x_star pr));
       modify sim p (fun pr => set_y pr (y_star pr)))
    commit) as (ps & E & _ & Hin & Hout); [|exact Hwf|by left|].
  - intros i ps p pr Hp Hpr. cbv beta.
    cbn [fluid_particle_pointers set_fluid_particles]. rewrite Hp.
    cbn [mbind option_bind].
    by rewrite (modify_modify _ p pr).
  - exists ps. split; [exact E|]. split; [|exact Hout].
    intros i p pr Hi Hp Hpr. eexists. split; [by apply (Hin i)|].
    split; [done|]. intros Hbox. exact Hbox.
Qed.

(** The pointers valid before a rewriting loop are valid after it. *)
Lemma valid_pointers_after (sim : fluid_sim_t) (ps : list fluid_particle_t)
    (m : Z) :
  length ps = length (fluid_particles sim) ->
  valid_pointers sim m -> valid_pointers (set_fluid_particles sim ps) m.
Proof.
  intros Hlen Hwf i Hi. destruct (Hwf i Hi) as (p & pr & Hp & Hpr).
  apply load_in_range in Hpr. rewrite <- Hlen in Hpr.
  destruct (load_is_Some ps p Hpr) as [pr' Hpr'].
  by exists p, pr'.
Qed.

(** The velocity that [checkVelocity] returns is within [[-20, 20]] and
    never points against the one it was given. *)
Lemma checkVelocity_range (v : R * R) :
  - 20 <= (checkVelocity v).1 <= 20 /\ - 20 <= (checkVelocity v).2 <= 20 /\
  0 <= v.1 * (checkVelocity v).1 /\ 0 <= v.2 * (checkVelocity v).2 /\
  (v.1 = 0 -> (checkVelocity v).1 = 0) /\
  (v.2 = 0 -> (checkVelocity v).2 = 0).
Proof.
  destruct v as [a b]. unfold checkVelocity. cbn [fst snd].
  pose proof (Rle_0_sqr a) as Ha. pose proof (Rle_0_sqr b) as Hb.
  unfold Rsqr in Ha, Hb.
  repeat split; repeat case_decide; try lra; try nra.
Qed.

(** X11.  Prediction followed by velocity reconstruction, for a time step
    other than [0]: every local particle keeps its position, carries the
    predicted position that [predict_positions] gave it, and ends with both
    velocity components within [[-20, 20]], whatever they were.  When the
    predicted position [pos + v * dt] is valid (inside the box, not inside
    the mover), the reconstruction does not turn a velocity component
    round, and a particle at rest stays at rest. *)
Theorem predict_then_reconstruct (sim : fluid_sim_t) :
  let n := number_fluid_particles_local (params sim) in
  let m := (n + number_halo_particles (params sim))%Z in
  let dt := time_step (tunable_params (params sim)) in
  valid_pointers sim m -> (0 <= number_halo_particles (params sim))%Z ->
  dt <> 0 -> 0 <= mover_radius sim ->
  exists s1 s2, predict_positions sim = Some s1 /\
    updateVelocities s1 = Some s2 /\
    forall i p pr, (0 <= i < n)%Z ->
      load (fluid_particle_pointers sim) i = Some p ->
      deref sim p = Some pr ->
      exists pr', deref s2 p = Some pr' /\
        x pr' = x pr /\ y pr' = y pr /\
        x_star pr' = x_star (boundaryConditions (advance dt pr) sim) /\
        y_star pr' = y_star (boundaryConditions (advance dt pr) sim) /\
        - 20 <= v_x pr' <= 20 /\ - 20 <= v_y pr' <= 20 /\
        (valid_position sim (advance dt pr) ->
           0 <= v_x pr * v_x pr' /\ 0 <= v_y pr * v_y pr' /\
           (v_x pr = 0 -> v_x pr' = 0) /\ (v_y pr = 0 -> v_y pr' = 0)).
Proof.
  intros n m dt Hwfm Hhalo Hdt Hr.
  assert (valid_pointers sim n) as Hwfn
    by (intros i Hi; apply Hwfm; subst m; lia).
  destruct (predict_positions_run sim Hwfn) as (ps & E1 & Hlen & Hin & _).
  fold n dt in Hin.
  destruct (updateVelocities_run (set_fluid_particles sim ps))
    as (s2 & E2 & Hall).
  { by apply valid_pointers_after. }
  exists (set_fluid_particles sim ps), s2.
  split; [exact E1|]. split; [exact E2|].
  intros i p pr Hin_n Hp Hpr. eexists. split.
  { apply (Hall i p (boundaryConditions (advance dt pr) sim));
      [cbn; fold n; subst m; lia|done|by apply (Hin i)]. }
  set (pr1 := boundaryConditions (advance dt pr) sim).
  unfold updateVelocity. cbv zeta.
  cbn [x y x_star y_star v_x v_y set_velocity params set_fluid_particles].
  fold dt.
  set (v := ((x_star pr1 - x pr1) / dt, (y_star pr1 - y pr1) / dt)).
  destruct (checkVelocity_range v) as (Hvx & Hvy & Hsx & Hsy & Hzx & Hzy).
  assert (x pr1 = x pr /\ y pr1 = y pr) as [Hx Hy].
  { subst pr1. rewrite boundaryConditions_frame. by destruct pr. }
  split; [exact Hx|]. split; [exact Hy|]. split; [done|]. split; [done|].
  split; [exact Hvx|]. split; [exact Hvy|].
  intros Hvalid.
  assert (v = (v_x pr, v_y pr)) as Hv.
  { subst v pr1. rewrite boundaryConditions_valid_fix by done.
    destruct pr as [px py pxs pys pvx pvy pd pl pdx pdy].
    unfold advance. cbn. f_equal; by field. }
  rewrite Hv in Hsx, Hsy, Hzx, Hzy. cbn [fst snd] in *. rewrite Hv.
  by repeat split.
Qed.

(** The sample state and its local and halo pointers. *)
Lemma small_sim_valid : valid_pointers small_sim 4.
Proof.
  intros i Hi. unfold deref.
  index_cases i; eexists _, _; split; cbn; by eval_load.
Qed.

Lemma small_sim_valid_local : valid_pointers small_sim 3.
Proof. intros i Hi. apply small_sim_valid. lia. Qed.

Lemma small_sim_distinct : NoDup (visited small_sim 3).
Proof. apply (bool_decide_unpack _). by vm_compute. Qed.

Lemma apply_gravity_spec_witness :
  exists ps, apply_gravity 9 small_sim = Some (set_fluid_particles small_sim ps) /\
    deref (set_fluid_particles small_sim ps) 1
      = Some (set_v_y (mkParticle 4 1 4 2 0 0 3 0 0 0) (0 - 9 * (1 / 100))) /\
    deref (set_fluid_particles small_sim ps) 3
      = Some (mkParticle 8 1 8 0 0 0 1 0 0 0).
Proof.
  destruct (apply_gravity_spec 9 small_sim small_sim_valid_local
              small_sim_distinct) as (ps & E & Hin & Hout).
  exists ps. split; [exact E|]. split.
  - by apply (Hin 1%Z).
  - apply Hout; [|done]. intros Hin3. apply elem_of_take in Hin3
      as (j & Hj & Hlt). cbn in Hlt.
    destruct j as [|[|[|j]]]; cbn in Hj; (lia || done).
Defined.

Lemma predict_positions_spec_witness :
  exists ps, predict_positions small_sim
               = Some (set_fluid_particles small_sim ps) /\
    exists pr', deref (set_fluid_particles small_sim ps) 2 = Some pr' /\
      in_box small_sim pr'.
Proof.
  destruct (predict_positions_spec small_sim small_sim_valid_local)
    as (ps & E & Hin & _); [cbn; lra..|].
  exists ps. split; [exact E|].
  destruct (Hin 2%Z 2%Z (mkParticle 9 1 9.5 1 0 0 1 0 0 0))
    as (pr' & Hpr' & _ & _ & Hbox); [cbn; lia|done|done|].
  by exists pr'.
Defined.

Lemma update_dp_positions_spec_witness :
  exists ps, update_dp_positions small_sim
               = Some (set_fluid_particles small_sim ps) /\
    exists pr', deref (set_fluid_particles small_sim ps) 0 = Some pr' /\
      in_box small_sim pr'.
Proof.
  destruct (update_dp_positions_spec small_sim small_sim_valid_local
              small_sim_distinct) as (ps & E & Hin & _); [cbn; lra..|].
  exists ps. split; [exact E|].
  destruct (Hin 0%Z 0%Z (mkParticle 3 1 3 1 0 0 2 0 0 0))
    as (pr' & Hpr' & _ & _ & Hbox); [cbn; lia|done|done|].
  by exists pr'.
Defined.

Lemma update_positions_spec_witness :
  exists ps, update_positions small_sim
               = Some (set_fluid_particles small_sim ps) /\
    deref (set_fluid_particles small_sim ps) 2
      = Some (mkParticle 9.5 1 9.5 1 0 0 1 0 0 0).
Proof.
  destruct (update_positions_spec small_sim small_sim_valid_local)
    as (ps & E & Hin & _).
  exists ps. split; [exact E|].
  destruct (Hin 2%Z 2%Z (mkParticle 9 1 9.5 1 0 0 1 0 0 0))
    as (pr' & Hpr' & -> & _); [cbn; lia|done|done|].
  exact Hpr'.
Defined.

Lemma moving_sim_valid : valid_pointers moving_sim 1.
Proof.
  intros i Hi. unfold deref.
  index_cases i; eexists _, _; split; cbn; by eval_load.
Qed.

Lemma predict_then_reconstruct_witness :
  exists s1 s2, predict_positions moving_sim = Some s1 /\
    updateVelocities s1 = Some s2 /\
    exists pr', deref s2 0 = Some pr' /\
      x pr' = 3 /\ - 20 <= v_y pr' <= 20 /\ 0 <= 1 * v_x pr'.
Proof.
  destruct (predict_then_reconstruct moving_sim moving_sim_valid)
    as (s1 & s2 & E1 & E2 & Hall).
  - cbn. lia.
  - cbn. lra.
  - unfold mover_radius. cbn. lra.
  - exists s1, s2. split; [exact E1|]. split; [exact E2|].
    destruct (Hall 0%Z 0%Z (mkParticle 3 1 3 1 1 (- 30) 0 0 0 0))
      as (pr' & Hpr' & Hx & _ & _ & _ & _ & Hvy & Hvalid);
      [cbn; lia|done|done|].
    exists pr'. split; [exact Hpr'|]. split; [exact Hx|].
    split; [exact Hvy|]. apply Hvalid.
    unfold valid_position, mover_dist2, mover_radius, advance. cbn.
    split; [lra|]. split; [lra|]. right. lra.
Defined.

(** *** Loops that gather from the neighbours *)

(** The loop [for i < n: rewrite the record behind pointer i with G i],
    where the new record may depend on the records of other particles as
    long as the loop's own writes do not change what is read: [R old new]
    relates a record to its possible rewritings. *)
Lemma gather_loop_run (sim : fluid_sim_t) (n : Z)
    (body : Z -> fluid_sim_t -> option fluid_sim_t)
    (R : fluid_particle_t -> fluid_particle_t -> Prop)
    (G : Z -> fluid_particle_t -> fluid_particle_t) :
  (forall pr, R pr pr) ->
  (forall i pr, R pr (G i pr)) ->
  (forall i ps p pr pr_cur, (0 <= i < n)%Z ->
     (forall q qr, deref sim q = Some qr ->
        exists qr', deref (set_fluid_particles sim ps) q = Some qr' /\
          R qr qr') ->
     load (fluid_particle_pointers sim) i = Some p ->
     deref sim p = Some pr ->
     deref (set_fluid_particles sim ps) p = Some pr_cur ->
     body i (set_fluid_particles sim ps)
       = assign (set_fluid_particles sim ps) p (G i pr)) ->
  valid_pointers sim n ->
  NoDup (visited sim n) ->
  exists ps, for_loop n body sim = Some (set_fluid_particles sim ps) /\
    length ps = length (fluid_particles sim) /\
    (forall i p pr, (0 <= i < n)%Z ->
       load (fluid_particle_pointers sim) i = Some p ->
       deref sim p = Some pr ->
       deref (set_fluid_particles sim ps) p = Some (G i pr)) /\
    (forall p pr, p ∉ visited sim n -> deref sim p = Some pr ->
       deref (set_fluid_particles sim ps) p = Some pr).
Proof.
  intros HR0 HRG Hbody Hwf Hnd.
  destruct (decide (0 <= n)%Z) as [Hn|Hn].
  2:{ exists (fluid_particles sim). rewrite for_loop_nonpos by lia.
      split; [by destruct sim|]. split; [done|]. split; [lia|].
      intros p pr _ Hp. by destruct sim. }
  destruct (for_loop_inv
    (fun k s => exists ps, s = set_fluid_particles sim ps /\
       length ps = length (fluid_particles sim) /\
       (forall q qr, deref sim q = Some qr ->
          exists qr', deref s q = Some qr' /\ R qr qr') /\
       (forall j p pr, (0 <= j < k)%Z ->
          load (fluid_particle_pointers sim) j = Some p ->
          deref sim p = Some pr -> deref s p = Some (G j pr)) /\
       (forall p pr, p ∉ visited sim k -> deref sim p = Some pr ->
          deref s p = Some pr))
    n body sim) as (sim' & E & ps & -> & Hlen & _ & Hdone & Hrest);
    [exact Hn| | |].
  - exists (fluid_particles sim). split; [by destruct sim|]. split; [done|].
    split; [|split; [lia|done]]. intros q qr Hq. by exists qr.
  - intros k s Hk (ps & -> & Hlen & Hrel & Hdone & Hrest).
    destruct (Hwf k Hk) as (p & pr & Hp & Hpr).
    destruct (Hrel p pr Hpr) as (pr_cur & Hcur & _).
    rewrite (Hbody k ps p pr pr_cur Hk Hrel Hp Hpr Hcur).
    destruct (assign_is_Some _ p (G k pr) _ Hcur) as (s1 & E1 & Hs1).
    assert (s1 = set_fluid_particles sim (<[Z.to_nat p := G k pr]> ps))
      as Hs1' by (by rewrite Hs1).
    exists s1. split; [exact E1|].
    exists (<[Z.to_nat p := G k pr]> ps).
    split; [exact Hs1'|]. split; [by rewrite length_insert|].
    pose proof Hp as [_ Hpk]%load_Some.
    assert (visited sim (k + 1) = visited sim k ++ [p]) as Hvis.
    { unfold visited. replace (Z.to_nat (k + 1)) with (S (Z.to_nat k)) by lia.
      by apply take_S_r. }
    split; [|split].
    + intros q qr Hq. rewrite (deref_assign _ _ _ q _ E1).
      case_decide as Hpq; [|by apply Hrel].
      subst q. assert (qr = pr) as -> by congruence.
      exists (G k pr). by split.
    + intros j q qr Hj Hq Hqr. rewrite (deref_assign _ _ _ q _ E1).
      destruct (decide (j = k)) as [->|Hne].
      * assert (q = p) as -> by congruence.
        assert (qr = pr) as -> by congruence. by rewrite decide_True.
      * rewrite decide_False; [apply (Hdone j q qr); (lia || done)|].
        intros <-. apply Hne.
        apply load_Some in Hq as [_ Hq].
        assert (Z.to_nat j = Z.to_nat k); [|lia].
        apply (NoDup_lookup _ _ _ p Hnd); unfold visited;
          rewrite lookup_take_lt by lia; done.
    + intros q qr Hout Hq. rewrite (deref_assign _ _ _ q _ E1).
      rewrite Hvis in Hout.
      rewrite decide_False; [apply Hrest; [|done]|].
      * intros Hin. apply Hout, elem_of_app. by left.
      * intros <-. apply Hout, elem_of_app. right.
        by apply list_elem_of_singleton.
  - exists ps. split; [exact E|]. by split.
Qed.

(** *** Densities *)

Lemma assign_same (s : fluid_sim_t) (p : pointer) (pr : fluid_particle_t) :
  deref s p = Some pr -> assign s p pr = Some s.
Proof.
  intros Hp. unfold assign. pose proof (load_in_range _ _ _ Hp).
  rewrite store_Some by done. cbn.
  apply load_Some in Hp as [_ Hp]. rewrite list_insert_id by done.
  by destruct s.
Qed.

Lemma set_density_same (pr : fluid_particle_t) :
  set_density pr (density pr) = pr.
Proof. by destruct pr. Qed.

(** A call of [calculate_density] is one write to the record of [p]. *)
Lemma calculate_density_eq (s : fluid_sim_t) (p q : pointer)
    (pr qr : fluid_particle_t) (h mass : R) :
  deref s p = Some pr -> deref s q = Some qr ->
  calculate_density s p q h mass
    = assign s p (set_density pr (density_step h mass pr qr (density pr))).
Proof.
  intros Hp Hq. unfold calculate_density, density_step, distance.
  rewrite Hp, Hq. cbn [mbind option_bind]. cbv zeta.
  case_decide.
  - by rewrite (modify_eq _ _ _ _ Hp).
  - by rewrite set_density_same, assign_same.
Qed.

(** The contribution depends on the two predicted positions only. *)
Lemma density_step_positions (h mass : R) (p p' q q' : fluid_particle_t) :
  x_star p' = x_star p -> y_star p' = y_star p ->
  x_star q' = x_star q -> y_star q' = y_star q ->
  density_step h mass p' q' = density_step h mass p q.
Proof.
  intros Hpx Hpy Hqx Hqy. unfold density_step, distance.
  by rewrite Hpx, Hpy, Hqx, Hqy.
Qed.

Lemma fold_density_positions (h mass : R) (p p' : fluid_particle_t)
    (qs : list fluid_particle_t) (a : R) :
  x_star p' = x_star p -> y_star p' = y_star p ->
  fold_left (fun acc q => density_step h mass p' q acc) qs a
    = fold_left (fun acc q => density_step h mass p q acc) qs a.
Proof.
  intros Hx Hy. revert a. induction qs as [|q qs IH]; intros a; [done|].
  cbn [fold_left].
  by rewrite IH, (density_step_positions h mass p p' q q Hx Hy).
Qed.

(** The inner loop of [compute_densities] is a fold that ends in one
    write. *)
Lemma density_loop (s0 : fluid_sim_t) (p : pointer) (pr0 : fluid_particle_t)
    (nb : neighbor_t) (qs : list fluid_particle_t) (h mass : R) :
  deref s0 p = Some pr0 ->
  length qs = Z.to_nat (number_fluid_neighbors nb) ->
  (forall j, (0 <= j < number_fluid_neighbors nb)%Z -> exists q qr qr0,
     load (fluid_neighbors nb) j = Some q /\
     qs !! Z.to_nat j = Some qr /\ deref s0 q = Some qr0 /\
     x_star qr0 = x_star qr /\ y_star qr0 = y_star qr) ->
  for_loop (number_fluid_neighbors nb) (fun j s =>
      q ← load (fluid_neighbors nb) j;
      calculate_density s p q h mass) s0
  = assign s0 p
      (set_density pr0
         (fold_left (fun acc q => density_step h mass pr0 q acc) qs
            (density pr0))).
Proof.
  intros Hp Hlen Hnb.
  destruct (decide (0 <= number_fluid_neighbors nb)%Z) as [Hn|Hn].
  2:{ rewrite for_loop_nonpos by lia.
      destruct qs; [|cbn in Hlen; lia]. cbn.
      by rewrite set_density_same, assign_same. }
  match goal with
  | |- for_loop ?m ?body ?s = _ =>
      destruct (for_loop_inv
        (fun j s =>
           assign s0 p
             (set_density pr0
                (fold_left (fun acc q => density_step h mass pr0 q acc)
                   (take (Z.to_nat j) qs) (density pr0))) = Some s)
        m body s) as (r & E & Hr); [exact Hn| | |]
  end.
  - cbn. by rewrite set_density_same, assign_same.
  - intros j s Hj HJ.
    destruct (Hnb j Hj) as (q & qr & qr0 & Hq & Hqr & Hq0 & Hx & Hy).
    rewrite Hq. cbn [mbind option_bind].
    set (cur := set_density pr0 _) in HJ.
    pose proof (deref_assign_eq _ _ _ _ HJ) as Hcur.
    assert (exists qr', deref s q = Some qr' /\
              x_star qr' = x_star qr /\ y_star qr' = y_star qr)
      as (qr' & Hq' & Hx' & Hy').
    { rewrite (deref_assign _ _ _ q _ HJ). case_decide as Hpq.
      - subst q. exists cur. split; [done|].
        assert (qr0 = pr0) as -> by congruence. by subst cur.
      - by exists qr0. }
    rewrite (calculate_density_eq _ _ _ cur qr' _ _ Hcur Hq').
    rewrite (assign_assign _ _ _ _ _ HJ).
    destruct (assign_is_Some s0 p
      (set_density cur (density_step h mass cur qr' (density cur))) _ Hp)
      as (s1 & E1 & _).
    exists s1. split; [exact E1|]. rewrite <- E1. f_equal.
    replace (Z.to_nat (j + 1)) with (S (Z.to_nat j)) by lia.
    rewrite (take_S_r _ _ qr) by done. rewrite fold_left_app. cbn [fold_left].
    rewrite (density_step_positions h mass pr0 cur qr qr') by (by subst cur).
    by subst cur.
  - rewrite E, <- Hr. by rewrite <- Hlen, firstn_all.
Qed.

Lemma compute_densities_run (mass : R) (sim : fluid_sim_t) :
  let n := number_fluid_particles_local (params sim) in
  valid_pointers sim n -> valid_neighbors sim n -> NoDup (visited sim n) ->
  exists ps, compute_densities mass sim = Some (set_fluid_particles sim ps) /\
    length ps = length (fluid_particles sim) /\
    (forall i p pr, (0 <= i < n)%Z ->
       load (fluid_particle_pointers sim) i = Some p ->
       deref sim p = Some pr ->
       deref (set_fluid_particles sim ps) p
         = Some (with_density sim mass i pr)) /\
    (forall p pr, p ∉ visited sim n -> deref sim p = Some pr ->
       deref (set_fluid_particles sim ps) p = Some pr).
Proof.
  intros n Hwf Hnb Hnd. unfold compute_densities. fold n.
  apply (gather_loop_run sim n _
           (fun old new => new = set_density old (density new))
           (with_density sim mass)); try done.
  - intros pr. by rewrite set_density_same.
  - intros i ps p pr pr_cur Hi Hrel Hp Hpr Hcur. cbv beta.
    cbn [fluid_particle_pointers neighbors params set_fluid_particles].
    rewrite Hp. cbn [mbind option_bind].
    destruct (Hnb i Hi) as (nb & qs & Hnbi & Hqs).
    rewrite Hnbi. cbn [mbind option_bind].
    destruct (neighbor_records_lookup sim nb qs Hqs) as [Hlen Hlook].
    set (s := set_fluid_particles sim ps) in *.
    set (h := smoothing_radius (tunable_params (params sim))).
    destruct (Hrel p pr Hpr) as (pr_cur' & Hcur' & Hshape).
    assert (pr_cur' = pr_cur) as -> by congruence.
    (* the reset *)
    rewrite (modify_eq _ _ _ _ Hcur).
    destruct (assign_is_Some s p (set_density pr_cur 0) _ Hcur)
      as (s1 & E1 & _).
    rewrite E1. cbn [mbind option_bind].
    pose proof (deref_assign_eq _ _ _ _ E1) as H1.
    (* the particle's own contribution *)
    rewrite (calculate_density_eq _ _ _ _ _ _ _ H1 H1).
    rewrite (assign_assign _ _ _ _ _ E1).
    set (r2 := set_density (set_density pr_cur 0) _).
    destruct (assign_is_Some s p r2 _ Hcur) as (s2 & E2 & _).
    rewrite E2. cbn [mbind option_bind].
    pose proof (deref_assign_eq _ _ _ _ E2) as H2.
    (* the neighbours *)
    rewrite (density_loop s2 p r2 nb qs h mass H2 Hlen).
    2:{ intros j Hj. destruct (Hlook j Hj) as (q & qr & Hq & Hqr & Hqj).
        destruct (Hrel q qr Hqr) as (qr' & Hq' & Hqshape).
        pose proof (deref_assign _ _ _ q _ E2) as Hq2.
        case_decide as Hpq.
        - subst q. assert (qr = pr) as -> by congruence.
          exists p, pr, r2. repeat split; try done;
            subst r2; rewrite Hshape; reflexivity.
        - exists q, qr, qr'. rewrite Hq2. repeat split; try done;
            rewrite Hqshape; reflexivity. }
    rewrite (assign_assign _ _ _ _ _ E2). f_equal.
    unfold with_density, local_neighbors. fold h.
    rewrite Hnbi. cbn [mbind option_bind]. rewrite Hqs.
    cbn [default fold_left]. subst r2. rewrite Hshape. cbn.
    rewrite (density_step_positions h mass pr
               (set_density (set_density pr (density pr_cur)) 0)
               pr (set_density (set_density pr (density pr_cur)) 0))
      by done.
    rewrite (fold_density_positions h mass pr
               (set_density (set_density (set_density pr (density pr_cur)) 0)
                  (density_step h mass pr pr 0))) by done.
    by destruct pr.
Qed.

(** The guard of [calculate_density] is redundant: beyond the smoothing
    radius the kernel is zero anyway. *)
Lemma density_step_eq (h mass : R) (p q : fluid_particle_t) (acc : R) :
  density_step h mass p q acc = acc + mass * W (distance p q) h.
Proof.
  unfold density_step. case_decide as Hr; [done|].
  rewrite W_outside by lra. ring.
Qed.

Lemma fold_density_sum (h mass : R) (p : fluid_particle_t)
    (qs : list fluid_particle_t) (a : R) :
  fold_left (fun acc q => density_step h mass p q acc) qs a
    = a + Rsum ((fun q => mass * W (distance p q) h) <$> qs).
Proof.
  revert a. induction qs as [|q qs IH]; intros a; cbn; [unfold Rsum; cbn; lra|].
  rewrite IH, density_step_eq. unfold Rsum. cbn. lra.
Qed.

Lemma with_density_sum (sim : fluid_sim_t) (mass : R) (i : Z)
    (pr : fluid_particle_t) :
  with_density sim mass i pr
    = set_density pr
        (density_sum (smoothing_radius (tunable_params (params sim))) mass pr
           (local_neighbors sim i)).
Proof.
  unfold with_density, density_sum. cbv zeta. f_equal.
  rewrite fold_density_sum. lra.
Qed.

Lemma distance_nonneg (p q : fluid_particle_t) : 0 <= distance p q.
Proof. apply sqrt_pos. Qed.

Lemma distance_self (p : fluid_particle_t) : distance p p = 0.
Proof.
  unfold distance.
  replace ((x_star p - x_star p) * (x_star p - x_star p)
           + (y_star p - y_star p) * (y_star p - y_star p)) with 0 by ring.
  apply sqrt_0.
Qed.

Lemma W_nonneg (r h : R) : 0 < h -> 0 <= r -> 0 <= W r h.
Proof.
  intros Hh Hr. destruct (Rle_or_lt r h) as [Hle|Hgt].
  - rewrite W_inside by done.
    apply Rmult_le_pos; [by apply Rlt_le, W_constant_pos|].
    apply pow_le. nra.
  - rewrite W_outside by lra. lra.
Qed.

Lemma W_centre (h : R) : 0 < h -> W 0 h = 4 / (PI * h * h).
Proof.
  intros Hh. rewrite W_inside by lra. pose proof PI_RGT_0. field. lra.
Qed.

Lemma Rsum_nonneg (l : list R) : Forall (Rle 0) l -> 0 <= Rsum l.
Proof.
  induction 1 as [|x l Hx _ IH]; unfold Rsum in *; cbn; lra.
Qed.

(** X12.  With a smoothing radius other than zero, valid, pairwise distinct
    local pointers and valid neighbour lists, [compute_densities] runs
    without a fault and leaves in every local particle the sum of
    [mass * W] over the particle itself and its neighbours, whatever density
    it held before; the other members of the record, and the records that
    no local pointer reaches, are as before. *)
Theorem compute_densities_spec (mass : R) (sim : fluid_sim_t) :
  let n := number_fluid_particles_local (params sim) in
  let h := smoothing_radius (tunable_params (params sim)) in
  h <> 0 ->
  valid_pointers sim n -> valid_neighbors sim n -> NoDup (visited sim n) ->
  exists sim', compute_densities mass sim = Some sim' /\
    (forall i p pr, (0 <= i < n)%Z ->
       load (fluid_particle_pointers sim) i = Some p ->
       deref sim p = Some pr ->
       deref sim' p
         = Some (set_density pr
                   (density_sum h mass pr (local_neighbors sim i)))) /\
    (forall p pr, p ∉ visited sim n -> deref sim p = Some pr ->
       deref sim' p = Some pr).
Proof.
  intros n h _ Hwf Hnb Hnd.
  destruct (compute_densities_run mass sim Hwf Hnb Hnd)
    as (ps & E & _ & Hin & Hout).
  exists (set_fluid_particles sim ps). split; [exact E|]. split; [|exact Hout].
  intros i p pr Hi Hp Hpr. rewrite (Hin i p pr Hi Hp Hpr).
  by rewrite with_density_sum.
Qed.

(** X13.  For a positive smoothing radius and a mass that is not negative,
    the density that [compute_densities] leaves in a local particle is at
    least the particle's own contribution [mass * 4 / (pi h^2)]: a neighbour
    never lowers it, and a particle without neighbours gets exactly this
    value. *)
Theorem compute_densities_lower_bound (mass : R) (sim : fluid_sim_t) :
  let n := number_fluid_particles_local (params sim) in
  let h := smoothing_radius (tunable_params (params sim)) in
  0 < h -> 0 <= mass ->
  valid_pointers sim n -> valid_neighbors sim n -> NoDup (visited sim n) ->
  exists sim', compute_densities mass sim = Some sim' /\
    forall i p pr, (0 <= i < n)%Z ->
      load (fluid_particle_pointers sim) i = Some p ->
      deref sim p = Some pr ->
      exists pr', deref sim' p = Some pr' /\
        mass * (4 / (PI * h * h)) <= density pr' /\
        (local_neighbors sim i = [] ->
           density pr' = mass * (4 / (PI * h * h))).
Proof.
  intros n h Hh Hmass Hwf Hnb Hnd.
  destruct (compute_densities_run mass sim Hwf Hnb Hnd)
    as (ps & E & _ & Hin & _).
  exists (set_fluid_particles sim ps). split; [exact E|].
  intros i p pr Hi Hp Hpr. eexists. split; [exact (Hin i p pr Hi Hp Hpr)|].
  rewrite with_density_sum. fold h. cbn [density set_density].
  unfold density_sum. rewrite fmap_cons, distance_self, (W_centre h Hh).
  change (Rsum (?x :: ?l)) with (x + Rsum l). split.
  - assert (0 <= Rsum ((fun q => mass * W (distance pr q) h)
                         <$> local_neighbors sim i)); [|lra].
    apply Rsum_nonneg, Forall_fmap, Forall_forall. intros q _. cbn.
    apply Rmult_le_pos; [done|]. apply W_nonneg; [done|apply distance_nonneg].
  - intros ->. unfold Rsum. cbn. lra.
Qed.

Lemma small_sim_neighbors : valid_neighbors small_sim 3.
Proof.
  intros i Hi. index_cases i; eexists _, _; split; reflexivity.
Qed.

Lemma compute_densities_spec_witness :
  exists sim', compute_densities 1 small_sim = Some sim' /\
    deref sim' 1
      = Some (set_density (mkParticle 4 1 4 2 0 0 3 0 0 0)
                (density_sum 1 1 (mkParticle 4 1 4 2 0 0 3 0 0 0)
                   [mkParticle 3 1 3 1 0 0 2 0 0 0;
                    mkParticle 9 1 9.5 1 0 0 1 0 0 0])) /\
    deref sim' 3 = Some (mkParticle 8 1 8 0 0 0 1 0 0 0).
Proof.
  destruct (compute_densities_spec 1 small_sim) as (sim' & E & Hin & Hout);
    [cbn; lra|exact small_sim_valid_local|exact small_sim_neighbors
    |exact small_sim_distinct|].
  exists sim'. split; [exact E|]. split.
  - by apply (Hin 1%Z 1%Z).
  - apply Hout; [|done]. apply (bool_decide_unpack _). by vm_compute.
Defined.

Lemma compute_densities_lower_bound_witness :
  exists sim', compute_densities 1 small_sim = Some sim' /\
    exists pr', deref sim' 0 = Some pr' /\ density pr' = 1 * (4 / (PI * 1 * 1)).
Proof.
  destruct (compute_densities_lower_bound 1 small_sim)
    as (sim' & E & Hall).
  - cbn. lra.
  - lra.
  - exact small_sim_valid_local.
  - exact small_sim_neighbors.
  - exact small_sim_distinct.
  - exists sim'. split; [exact E|].
    destruct (Hall 0%Z 0%Z (mkParticle 3 1 3 1 0 0 2 0 0 0))
      as (pr' & Hpr' & _ & Hiso); [cbn; lia|done|done|].
    exists pr'. split; [exact Hpr'|]. by apply Hiso.
Defined.

(** *** Position corrections *)

Lemma update_dp_run (sim : fluid_sim_t) :
  let n := number_fluid_particles_local (params sim) in
  valid_pointers sim n -> valid_neighbors sim n -> NoDup (visited sim n) ->
  exists ps, update_dp sim = Some (set_fluid_particles sim ps) /\
    length ps = length (fluid_particles sim) /\
    (forall i p pr, (0 <= i < n)%Z ->
       load (fluid_particle_pointers sim) i = Some p ->
       deref sim p = Some pr ->
       deref (set_fluid_particles sim ps) p = Some (with_dp sim i pr)) /\
    (forall p pr, p ∉ visited sim n -> deref sim p = Some pr ->
       deref (set_fluid_particles sim ps) p = Some pr).
Proof.
  intros n Hwf Hnb Hnd. unfold update_dp. fold n.
  apply (gather_loop_run sim n _
           (fun old new => new = set_dp_y (set_dp_x old (dp_x new)) (dp_y new))
           (with_dp sim)); try done.
  - intros pr. by destruct pr.
  - intros i ps p pr pr_cur Hi Hrel Hp Hpr Hcur. cbv beta zeta.
    cbn [fluid_particle_pointers neighbors params set_fluid_particles].
    rewrite Hp. cbn [mbind option_bind].
    destruct (Hnb i Hi) as (nb & qs & Hnbi & Hqs).
    rewrite Hnbi. cbn [mbind option_bind].
    destruct (neighbor_records_lookup sim nb qs Hqs) as [Hlen Hlook].
    set (s := set_fluid_particles sim ps) in *.
    set (h := smoothing_radius (tunable_params (params sim))).
    set (rd := rest_density (tunable_params (params sim))).
    destruct (Hrel p pr Hpr) as (pr_cur' & Hcur' & Hshape).
    assert (pr_cur' = pr_cur) as -> by congruence.
    match goal with
    | |- context [for_loop (number_fluid_neighbors nb) ?b (0, 0)] =>
        assert (for_loop (number_fluid_neighbors nb) b (0, 0)
                = Some (fold_left
                          (fun dp q => add_correction h (W (0.3 * h) h) pr q dp)
                          qs (0, 0))) as Hloop
    end.
    { rewrite Hcur.
      apply (neighbor_loop s nb
               (fun qr acc => add_correction h (W (0.3 * h) h) pr_cur qr acc)
               (fun qr acc => add_correction h (W (0.3 * h) h) pr qr acc)
               qs (0, 0) Hlen).
      intros j Hj. destruct (Hlook j Hj) as (q & qr & Hq & Hqr & Hqj).
      destruct (Hrel q qr Hqr) as (qr' & Hq' & Hqshape).
      exists q, qr', qr. repeat split; try done.
      intros acc. unfold add_correction. rewrite Hshape, Hqshape. reflexivity. }
    rewrite Hloop. cbn [mbind option_bind].
    rewrite (modify_modify _ _ _ _ _ Hcur). f_equal.
    unfold with_dp, local_neighbors. fold h rd.
    rewrite Hnbi. cbn [mbind option_bind]. rewrite Hqs. cbn [default].
    rewrite Hshape. by destruct pr.
Qed.

Lemma distance_sym (p q : fluid_particle_t) : distance p q = distance q p.
Proof. unfold distance. f_equal. ring. Qed.

Lemma add_correction_eq (h : R) (p q : fluid_particle_t) (dp : R * R) :
  add_correction h (W (0.3 * h) h) p q dp
    = (dp.1 + (pair_correction h p q).1, dp.2 + (pair_correction h p q).2).
Proof. reflexivity. Qed.

Lemma fold_add_correction (h : R) (p : fluid_particle_t)
    (qs : list fluid_particle_t) (dp : R * R) :
  fold_left (fun dp q => add_correction h (W (0.3 * h) h) p q dp) qs dp
    = (dp.1 + Rsum ((pair_correction h p <$> qs).*1),
       dp.2 + Rsum ((pair_correction h p <$> qs).*2)).
Proof.
  revert dp. induction qs as [|q qs IH]; intros [a b].
  - unfold Rsum. cbn. f_equal; ring.
  - cbn [fold_left]. rewrite IH, add_correction_eq. unfold Rsum.
    cbn. f_equal; ring.
Qed.

(** X14.  For a positive smoothing radius and a rest density other than
    zero, with valid, pairwise distinct local pointers and valid neighbour
    lists, [update_dp] runs without a fault and stores in every local
    particle the sum of the pair corrections of its neighbours divided by the
    rest density (zero for a particle without neighbours); nothing but
    [dp_x] and [dp_y] of the local particles changes. *)
Theorem update_dp_spec (sim : fluid_sim_t) :
  let n := number_fluid_particles_local (params sim) in
  let h := smoothing_radius (tunable_params (params sim)) in
  let rd := rest_density (tunable_params (params sim)) in
  0 < h -> rd <> 0 ->
  valid_pointers sim n -> valid_neighbors sim n -> NoDup (visited sim n) ->
  exists sim', update_dp sim = Some sim' /\
    (forall i p pr, (0 <= i < n)%Z ->
       load (fluid_particle_pointers sim) i = Some p ->
       deref sim p = Some pr ->
       exists pr', deref sim' p = Some pr' /\
         pr' = set_dp_y (set_dp_x pr (dp_x pr')) (dp_y pr') /\
         dp_x pr'
           = Rsum ((pair_correction h pr <$> local_neighbors sim i).*1) / rd /\
         dp_y pr'
           = Rsum ((pair_correction h pr <$> local_neighbors sim i).*2) / rd /\
         (local_neighbors sim i = [] -> dp_x pr' = 0 /\ dp_y pr' = 0)) /\
    (forall p pr, p ∉ visited sim n -> deref sim p = Some pr ->
       deref sim' p = Some pr).
Proof.
  intros n h rd Hh Hrd Hwf Hnb Hnd.
  destruct (update_dp_run sim Hwf Hnb Hnd) as (ps & E & _ & Hin & Hout).
  exists (set_fluid_particles sim ps). split; [exact E|]. split; [|exact Hout].
  intros i p pr Hi Hp Hpr. eexists. split; [exact (Hin i p pr Hi Hp Hpr)|].
  unfold with_dp. fold h rd. cbv zeta. rewrite fold_add_correction.
  cbn [dp_x dp_y set_dp_x set_dp_y fst snd]. rewrite !Rplus_0_l.
  split; [done|]. split; [done|]. split; [done|].
  intros ->. unfold Rsum. cbn. split; field; done.
Qed.

(** X15.  The correction that one neighbour adds in [update_dp]: what [p]
    gets from [q] is the opposite of what [q] gets from [p]; a neighbour
    beyond the smoothing radius, or at the very position of [p], adds
    nothing; and the artificial pressure term is never positive. *)
Theorem add_correction_pairs (h Wdq : R) (p q : fluid_particle_t)
    (dp : R * R) :
  0 < h -> Wdq <> 0 ->
  (add_correction h Wdq p q (0, 0)).1 = - (add_correction h Wdq q p (0, 0)).1 /\
  (add_correction h Wdq p q (0, 0)).2 = - (add_correction h Wdq q p (0, 0)).2 /\
  (h < distance p q -> add_correction h Wdq p q dp = dp) /\
  (x_star p = x_star q -> y_star p = y_star q ->
     add_correction h Wdq p q dp = dp) /\
  - 0.1 * (W (distance p q) h / Wdq) ^ 4 <= 0.
Proof.
  intros Hh HW. unfold add_correction. cbv zeta. cbn [fst snd].
  fold (distance p q). fold (distance q p). rewrite (distance_sym q p).
  split; [ring|]. split; [ring|]. split; [|split].
  - intros Hr. rewrite del_W_outside by lra. destruct dp. cbn. f_equal; ring.
  - intros -> ->. destruct dp. cbn. f_equal; ring.
  - assert (0 <= (W (distance p q) h / Wdq) ^ 4); [|lra].
    replace 4%nat with (2 * 2)%nat by done. rewrite pow_mult.
    apply pow2_ge_0.
Qed.

Lemma update_dp_spec_witness :
  exists sim', update_dp small_sim = Some sim' /\
    (exists pr', deref sim' 0 = Some pr' /\ dp_x pr' = 0 /\ dp_y pr' = 0) /\
    deref sim' 3 = Some (mkParticle 8 1 8 0 0 0 1 0 0 0).
Proof.
  destruct (update_dp_spec small_sim) as (sim' & E & Hin & Hout);
    [cbn; lra|cbn; lra|exact small_sim_valid_local|exact small_sim_neighbors
    |exact small_sim_distinct|].
  exists sim'. split; [exact E|]. split.
  - destruct (Hin 0%Z 0%Z (mkParticle 3 1 3 1 0 0 2 0 0 0))
      as (pr' & Hpr' & _ & _ & _ & Hiso); [cbn; lia|done|done|].
    exists pr'. split; [exact Hpr'|]. by apply Hiso.
  - apply Hout; [|done]. apply (bool_decide_unpack _). by vm_compute.
Defined.

Lemma add_correction_pairs_witness :
  (add_correction 1 1 (mkParticle 4 1 4 2 0 0 3 0 0 0)
     (mkParticle 3 1 3 1 0 0 2 0 0 0) (0, 0)).1
  = - (add_correction 1 1 (mkParticle 3 1 3 1 0 0 2 0 0 0)
         (mkParticle 4 1 4 2 0 0 3 0 0 0) (0, 0)).1.
Proof.
  apply (add_correction_pairs 1 1 (mkParticle 4 1 4 2 0 0 3 0 0 0)
           (mkParticle 3 1 3 1 0 0 2 0 0 0) (0, 0)); lra.
Defined.

(** *** The multiplier and the transfer queues, once more *)

Lemma norm2_nonneg (g : R * R) : 0 <= norm2 g.
Proof.
  unfold norm2. pose proof (Rle_0_sqr g.1). pose proof (Rle_0_sqr g.2).
  unfold Rsqr in *. lra.
Qed.

Lemma pbf_gradient_sum_nonneg (h : R) (p : fluid_particle_t)
    (qs : list fluid_particle_t) :
  0 <= pbf_gradient_sum h p qs.
Proof.
  unfold pbf_gradient_sum.
  assert (0 <= Rsum (norm2 <$> (gradient_term h p <$> qs))).
  { apply Rsum_nonneg, Forall_fmap, Forall_forall. intros g _.
    apply norm2_nonneg. }
  pose proof (norm2_nonneg (Rsum ((gradient_term h p <$> qs).*1),
                            Rsum ((gradient_term h p <$> qs).*2))).
  lra.
Qed.

(** X16.  The multiplier that [calculate_lambda] stores is bounded by the
    constraint [C_i = density / rest_density - 1] of its particle: it is no
    larger in absolute value, never has the sign of [C_i], and is zero for
    a particle at rest density. *)
Theorem calculate_lambda_bounded (sim : fluid_sim_t) :
  let n := number_fluid_particles_local (params sim) in
  let h := smoothing_radius (tunable_params (params sim)) in
  let rd := rest_density (tunable_params (params sim)) in
  h <> 0 -> rd <> 0 ->
  (forall i, (0 <= i < n)%Z ->
     exists p pr nb qs, local_data sim i p pr nb qs) ->
  (forall i j p, (0 <= i < n)%Z -> (0 <= j < n)%Z ->
     load (fluid_particle_pointers sim) i = Some p ->
     load (fluid_particle_pointers sim) j = Some p -> i = j) ->
  exists sim', calculate_lambda sim = Some sim' /\
    forall i p pr nb qs, (0 <= i < n)%Z -> local_data sim i p pr nb qs ->
      exists pr', deref sim' p = Some pr' /\
        Rabs (lambda pr') <= Rabs (density pr / rd - 1) /\
        lambda pr' * (density pr / rd - 1) <= 0 /\
        (density pr = rd -> lambda pr' = 0).
Proof.
  intros n h rd _ Hrd Hwf Hinj.
  destruct (calculate_lambda_run sim Hwf Hinj) as (sim' & E & Hall).
  exists sim'. split; [exact E|]. intros i p pr nb qs Hi Hdata.
  eexists. split; [by apply (Hall i p pr nb qs)|].
  cbn [lambda set_lambda]. unfold particle_lambda. fold h rd.
  rewrite particle_sum_C_eq, sum_C_scale_one, Rmult_1_r by done.
  pose proof (pbf_gradient_sum_nonneg h pr qs) as HG.
  set (G := pbf_gradient_sum h pr qs) in *.
  set (C := density pr / rd - 1).
  assert (0 < / (G + 1) <= 1) as [Hinv0 Hinv1].
  { split; [apply Rinv_0_lt_compat; lra|].
    rewrite <- Rinv_1. apply Rinv_le_contravar; lra. }
  unfold Rdiv. split; [|split].
  - rewrite Rabs_mult, Rabs_Ropp, (Rabs_pos_eq (/ (G + 1))) by lra.
    pose proof (Rabs_pos C). nra.
  - pose proof (Rle_0_sqr C). unfold Rsqr in *. nra.
  - intros Hd. subst C. rewrite Hd.
    replace (rd / rd - 1) with 0 by (by field). ring.
Qed.

Lemma calculate_lambda_bounded_witness :
  exists sim', calculate_lambda small_sim = Some sim' /\
    exists pr', deref sim' 0 = Some pr' /\ lambda pr' = 0.
Proof.
  destruct (calculate_lambda_bounded small_sim) as (sim' & E & Hall).
  - cbn. lra.
  - cbn. lra.
  - intros i Hi. cbn in Hi.
    index_cases i; eexists _, _, _, _; repeat split; reflexivity.
  - intros i j p Hi Hj Hpi Hpj. cbn in Hi, Hj.
    index_cases i; index_cases j; try done; eval_load.
  - exists sim'. split; [exact E|].
    destruct (Hall 0%Z 0%Z (mkParticle 3 1 3 1 0 0 2 0 0 0)
                (mkNeighbor [] 0) []) as (pr' & Hpr' & _ & _ & Hrest).
    + cbn. lia.
    + by repeat split.
    + exists pr'. split; [exact Hpr'|]. by apply Hrest.
Defined.

Lemma indices_where_exclusive (P Q : R -> Prop)
    `{!forall v, Decision (P v)} `{!forall v, Decision (Q v)}
    (i : Z) (xs : list R) :
  (forall v, P v -> Q v -> False) ->
  (length (indices_where P i xs) + length (indices_where Q i xs)
   <= length xs)%nat.
Proof.
  intros Hex. revert i. induction xs as [|v xs IH]; intros i; cbn; [lia|].
  specialize (IH (i + 1)%Z).
  repeat case_decide; cbn; try lia. by destruct (Hex v).
Qed.

(** X17.  The scan of [identify_oob_particles] on any rank interval, also
    one with [node_end_x < node_start_x]: when the queues have room, no
    index is entered in both queues, a particle left of [node_start_x] goes
    to the left queue whatever [node_end_x] is, every entry is the index of
    a local particle, and the two queues together hold no more entries than
    there are local particles. *)
Theorem identify_oob_scan_disjoint (sim : fluid_sim_t) (xs : list R) :
  let tp := tunable_params (params sim) in
  let n := number_fluid_particles_local (params sim) in
  local_xs sim = Some xs ->
  (length xs <= length (oob_pointer_indices_left (out_of_bounds sim)))%nat ->
  (length xs <= length (oob_pointer_indices_right (out_of_bounds sim)))%nat ->
  exists o, identify_oob_scan sim = Some (set_out_of_bounds sim o) /\
    (forall i, i ∈ left_queue o -> i ∉ right_queue o) /\
    (forall i v, (0 <= i)%Z -> xs !! Z.to_nat i = Some v ->
       v < node_start_x tp -> i ∈ left_queue o) /\
    (forall i, i ∈ left_queue o \/ i ∈ right_queue o -> (0 <= i < n)%Z) /\
    (length (left_queue o) + length (right_queue o) <= Z.to_nat n)%nat.
Proof.
  intros tp n Hxs HcapL HcapR.
  destruct (local_xs_lookup sim xs Hxs) as [Hlen _]. fold n in Hlen.
  destruct (identify_oob_scan_run sim xs Hxs)
    as (o & E & _ & _ & HqL & HqR).
  { etrans; [apply indices_where_length|done]. }
  { etrans; [apply indices_where_length|done]. }
  fold tp in HqL, HqR.
  exists o. rewrite HqL, HqR. split; [exact E|]. split; [|split; [|split]].
  - intros i (_ & v & Hv & HP)%elem_of_indices_where
             (_ & w & Hw & HQ & _)%elem_of_indices_where.
    assert (v = w) as -> by congruence. done.
  - intros i v Hi Hv Hlt. apply elem_of_indices_where.
    split; [done|]. exists v. by replace (i - 0)%Z with i by lia.
  - assert (forall (P : R -> Prop) `{!forall v, Decision (P v)} i,
              i ∈ indices_where P 0 xs -> (0 <= i < n)%Z) as Hrange.
    { intros P ? i (Hi & v & Hv & _)%elem_of_indices_where.
      apply lookup_lt_Some in Hv. lia. }
    intros i [Hi|Hi]; by apply Hrange in Hi.
  - rewrite <- Hlen. apply indices_where_exclusive. tauto.
Qed.

Lemma identify_oob_scan_disjoint_witness :
  exists o, identify_oob_scan small_sim = Some (set_out_of_bounds small_sim o) /\
    (0%Z ∈ left_queue o) /\ (0%Z ∉ right_queue o).
Proof.
  destruct (identify_oob_scan_disjoint small_sim [3; 4; 9])
    as (o & E & Hdis & Hleft & _).
  - reflexivity.
  - cbn. lia.
  - cbn. lia.
  - exists o. split; [exact E|].
    assert (0%Z ∈ left_queue o) as H0.
    { apply (Hleft 0%Z 3); [lia|done|cbn; lra]. }
    split; [exact H0|by apply Hdis].
Defined.

(** *** The kernels at the centre and at the cut-off *)

(** X18.  For a positive smoothing radius: the kernel gradient [del_W] is
    never positive at a distance [r >= 0], so corrections along it push
    neighbours apart; both kernels already vanish at the cut-off [r = h]
    itself, where the branch that returns zero is not taken; and the kernel
    at the centre is [4 / (pi h^2)]. *)
Theorem kernel_gradient_sign (h : R) :
  0 < h ->
  (forall r, 0 <= r -> del_W r h <= 0) /\
  W h h = 0 /\ del_W h h = 0 /\
  W 0 h = 4 / (PI * h * h).
Proof.
  intros Hh. pose proof PI_RGT_0 as Hpi. split; [|split; [|split]].
  - intros r Hr. unfold del_W. case_decide; [lra|]. cbv zeta.
    assert (0 < h * h * h * h * h * (r + 0.000001)) as Hden.
    { repeat apply Rmult_lt_0_compat; lra. }
    apply Rinv_0_lt_compat in Hden. apply Rinv_0_lt_compat in Hpi.
    pose proof (Rmult_lt_0_compat _ _ Hpi Hden) as Hprod.
    pose proof (Rle_0_sqr (h - r)) as Hsq. unfold Rsqr in Hsq.
    unfold Rdiv.
    set (a := / PI) in *.
    set (b := / (h * h * h * h * h * (r + 0.000001))) in *.
    nra.
  - rewrite W_inside by lra. ring.
  - unfold del_W. rewrite decide_False by lra. cbv zeta. ring.
  - by apply W_centre.
Qed.

Lemma kernel_gradient_sign_witness :
  del_W (1 / 2) 1 <= 0 /\ W 1 1 = 0 /\ W 0 1 = 4 / (PI * 1 * 1).
Proof.
  destruct (kernel_gradient_sign 1 ltac:(lra)) as (Hneg & HW & _ & H0).
  split; [apply Hneg; lra|]. by split.
Defined.

(** *** The sub-step counter *)

(** X19.  With at least one step per frame, the sub-step counter of the
    main loop stays in [[0, steps_per_frame)] and after [k] passes stands
    at [(s + k) mod steps_per_frame]: the frame is sent once every
    [steps_per_frame] passes, and a whole frame brings the counter back. *)
Theorem sub_step_cycle (steps_per_frame s : Z) (k : nat) :
  (0 < steps_per_frame)%Z -> (0 <= s < steps_per_frame)%Z ->
  (0 <= next_sub_step steps_per_frame s < steps_per_frame)%Z /\
  Nat.iter k (next_sub_step steps_per_frame) s
    = ((s + Z.of_nat k) mod steps_per_frame)%Z /\
  Nat.iter (Z.to_nat steps_per_frame) (next_sub_step steps_per_frame) s = s.
Proof.
  intros Hspf Hs.
  assert (forall j : nat,
            Nat.iter j (next_sub_step steps_per_frame) s
              = ((s + Z.of_nat j) mod steps_per_frame)%Z) as Hiter.
  { induction j as [|j IH].
    - cbn. rewrite Z.add_0_r. by rewrite Z.mod_small.
    - rewrite Nat.iter_succ, IH. unfold next_sub_step.
      pose proof (Z.mod_pos_bound (s + Z.of_nat j) steps_per_frame Hspf).
      replace (s + Z.of_nat (S j))%Z with (s + Z.of_nat j + 1)%Z by lia.
      rewrite <- (Z.add_mod_idemp_l (s + Z.of_nat j)) by lia.
      case_decide as Hlast.
      + rewrite Hlast.
        replace (steps_per_frame - 1 + 1)%Z with steps_per_frame by lia.
        by rewrite Z.mod_same by lia.
      + by rewrite (Z.mod_small (_ + 1)) by lia. }
  split; [|split].
  - unfold next_sub_step. case_decide; lia.
  - apply Hiter.
  - rewrite Hiter, Z2Nat.id by lia.
    rewrite <- (Z.mul_1_l steps_per_frame) at 1.
    rewrite Z.mod_add by lia. by rewrite Z.mod_small.
Qed.

Lemma sub_step_cycle_witness :
  Nat.iter 5 (next_sub_step 4) 2%Z = ((2 + 5) mod 4)%Z.
Proof. apply (sub_step_cycle 4 2 5); lia. Defined.

(** *** Faults *)

(** A loop faults when one of its passes faults in every state that the
    earlier passes can leave. *)
Lemma for_from_fault {St} (I : St -> Prop) (body : Z -> St -> option St)
    (k : Z) (fuel : nat) (i : Z) (s : St) :
  (forall j s0 s1, I s0 -> body j s0 = Some s1 -> I s1) ->
  (forall s0, I s0 -> body k s0 = None) ->
  I s -> (i <= k < i + Z.of_nat fuel)%Z ->
  for_from fuel i body s = None.
Proof.
  intros Hpres Hfail. revert i s.
  induction fuel as [|fuel IH]; intros i s HI Hk; [lia|].
  rewrite for_from_S. destruct (decide (i = k)) as [->|Hne].
  - by rewrite Hfail.
  - destruct (body i s) as [s1|] eqn:E; [|done]. cbn.
    apply IH; [by apply (Hpres i s)|lia].
Qed.

Lemma same_layout_refl (sim : fluid_sim_t) : same_layout sim sim.
Proof. by split. Qed.

Lemma modify_layout (sim s s' : fluid_sim_t) (p : pointer)
    (f : fluid_particle_t -> fluid_particle_t) :
  same_layout sim s -> modify s p f = Some s' -> same_layout sim s'.
Proof.
  intros [Hptr Hlen]. unfold modify, assign.
  destruct (deref s p) as [pr|]; [|done]. cbn.
  destruct (store _ _ _) as [ps|] eqn:E; [|done]. intros [= <-].
  apply store_inv in E as [_ ->]. split; [done|].
  cbn. by rewrite length_insert.
Qed.

Lemma modify_dangling (sim s : fluid_sim_t) (p : pointer)
    (f : fluid_particle_t -> fluid_particle_t) :
  same_layout sim s -> deref sim p = None -> modify s p f = None.
Proof.
  intros [_ Hlen] Hp. unfold modify.
  destruct (deref s p) as [pr|] eqn:E; [|done].
  apply load_in_range in E. rewrite Hlen in E.
  destruct (load_is_Some _ _ E) as [pr' Hpr']. unfold deref in Hp. congruence.
Qed.

(** The step of a loop over the local pointers that starts with a write to
    the record behind pointer [i]. *)
Lemma pointer_loop_fault (sim : fluid_sim_t) (n k : Z)
    (body : Z -> fluid_sim_t -> option fluid_sim_t) :
  (forall i s, same_layout sim s ->
     body i s = None \/
     exists p f s1, load (fluid_particle_pointers sim) i = Some p /\
       modify s p f = Some s1 /\
       forall s', body i s = Some s' -> same_layout sim s') ->
  (0 <= k < n)%Z -> dangling sim k ->
  for_loop n body sim = None.
Proof.
  intros Hbody Hk Hdang. unfold for_loop.
  apply (for_from_fault (same_layout sim) body k);
    [| |apply same_layout_refl|lia].
  - intros j s0 s1 HI E.
    destruct (Hbody j s0 HI) as [Hnone|(p & f & s' & _ & _ & Hpres)];
      [congruence|by apply Hpres].
  - intros s0 HI.
    destruct (Hbody k s0 HI) as [Hnone|(p & f & s' & Hp & Hmod & _)];
      [done|].
    exfalso. destruct Hdang as [Hload|(q & Hq & Hderef)]; [congruence|].
    assert (q = p) as -> by congruence.
    by rewrite (modify_dangling sim s0 p f HI Hderef) in Hmod.
Qed.

Lemma modify_twice_layout (sim s s1 s2 : fluid_sim_t) (p : pointer)
    (f1 f2 : fluid_particle_t -> fluid_particle_t) :
  same_layout sim s ->
  modify s p f1 = Some s1 -> modify s1 p f2 = Some s2 ->
  same_layout sim s2.
Proof.
  intros HI E1 E2. apply (modify_layout sim s1 s2 p f2); [|done].
  by apply (modify_layout sim s s1 p f1).
Qed.

(** Steps that are one, two or three writes to the record behind pointer
    [i]. *)
Ltac write_steps sim :=
  let i := fresh "i" in
  let s := fresh "s" in
  let s1 := fresh "s1" in
  let s2 := fresh "s2" in
  let s' := fresh "s'" in
  let p := fresh "p" in
  let HI := fresh "HI" in
  let Hptr := fresh "Hptr" in
  let Hlen := fresh "Hlen" in
  let E1 := fresh "E1" in
  let E2 := fresh "E2" in
  let E3 := fresh "E3" in
  intros i s HI; pose proof HI as [Hptr Hlen]; cbv beta; rewrite Hptr;
  destruct (load (fluid_particle_pointers sim) i) as [p|]; [|by left];
  cbn [mbind option_bind];
  match goal with
  | |- context [modify s p ?f] =>
      destruct (modify s p f) as [s1|] eqn:E1; [|by left];
      right; exists p, f, s1
  end;
  split; [done|]; split; [done|]; cbn [mbind option_bind];
  first
    [ intros s' [= <-]; eapply modify_layout; [exact HI|exact E1]
    | intros s' E2; eapply modify_twice_layout; [exact HI|exact E1|exact E2]
    | match goal with
      | |- context [modify s1 p ?f] =>
          destruct (modify s1 p f) as [s2|] eqn:E2; [|done]
      end;
      cbn [mbind option_bind]; intros s' E3;
      eapply modify_layout; [|exact E3];
      eapply modify_twice_layout; [exact HI|exact E1|exact E2] ].

(** X21.  The loops over the local particles follow every one of the first
    [number_fluid_particles_local] pointers: when the count reaches beyond
    the pointer array, or one of these pointers lies outside of particle
    memory, [apply_gravity], [predict_positions], [update_dp_positions] and
    [update_positions] all make an access out of bounds. *)
Theorem pointer_loops_fault (g : R) (sim : fluid_sim_t) (k : Z) :
  (0 <= k < number_fluid_particles_local (params sim))%Z ->
  dangling sim k ->
  apply_gravity g sim = None /\
  predict_positions sim = None /\
  update_dp_positions sim = None /\
  update_positions sim = None.
Proof.
  intros Hk Hdang.
  repeat split; (apply (pointer_loop_fault sim _ k); [|done|done]);
    write_steps sim.
Qed.

Lemma pointer_loops_fault_witness :
  update_positions
    (mkSim [still_particle 1 1] [0; 5]%Z []
       (mkParam (mkTunableParams 1 1 (1 / 100) 3 5 2 0 20) 2 0)
       (mkAABB 0 20 0 20) (mkOob [] [] 0 0))
  = None.
Proof.
  apply (pointer_loops_fault 0 _ 1); [cbn; lia|].
  right. exists 5%Z. by split.
Defined.

(** *** Densities, then multipliers *)

(** The neighbour records after a pass that rewrites densities only. *)
Lemma neighbor_records_after (sim s1 : fluid_sim_t) (nb : neighbor_t)
    (qs : list fluid_particle_t) :
  (forall q qr, deref sim q = Some qr ->
     exists qr', deref s1 q = Some qr' /\
       qr' = set_density qr (density qr')) ->
  neighbor_records sim nb = Some qs ->
  exists qs1, neighbor_records s1 nb = Some qs1 /\
    Forall2 (fun qr qr' => qr' = set_density qr (density qr')) qs qs1.
Proof.
  intros Hrel. unfold neighbor_records. case_decide; [|done].
  intros Hall%mapM_Some.
  assert (exists qs1,
            Forall2 (fun q qr' => deref s1 q = Some qr')
              (take (Z.to_nat (number_fluid_neighbors nb))
                 (fluid_neighbors nb)) qs1 /\
            Forall2 (fun qr qr' => qr' = set_density qr (density qr')) qs qs1)
    as (qs1 & H1 & H2).
  { induction Hall as [|q qr l k Hq _ (qs1 & H1 & H2)]; [by exists []|].
    destruct (Hrel q qr Hq) as (qr' & Hq' & Hshape).
    exists (qr' :: qs1). split; by constructor. }
  exists qs1. split; [by apply mapM_Some|done].
Qed.

Lemma gradient_sum_positions (h : R) (p p' : fluid_particle_t)
    (qs qs' : list fluid_particle_t) :
  p' = set_density p (density p') ->
  Forall2 (fun qr qr' => qr' = set_density qr (density qr')) qs qs' ->
  pbf_gradient_sum h p' qs' = pbf_gradient_sum h p qs.
Proof.
  intros Hp Hqs. unfold pbf_gradient_sum.
  assert (gradient_term h p' <$> qs' = gradient_term h p <$> qs) as ->;
    [|done].
  induction Hqs as [|q q' l l' Hq _ IH]; [done|].
  rewrite !fmap_cons, IH. f_equal.
  unfold gradient_term. rewrite Hp, Hq. reflexivity.
Qed.

(** X22.  [compute_densities] followed by [calculate_lambda]: for a
    positive smoothing radius and a rest density other than zero, the
    multiplier of every local particle is determined by the predicted
    positions alone.  It is [- C / (S + 1)] with [C] taken from the kernel
    sum over the particle and its neighbours and [S] the gradient sum; the
    density and the multiplier held before do not enter. *)
Theorem densities_then_lambda (mass : R) (sim : fluid_sim_t) :
  let n := number_fluid_particles_local (params sim) in
  let h := smoothing_radius (tunable_params (params sim)) in
  let rd := rest_density (tunable_params (params sim)) in
  0 < h -> rd <> 0 ->
  valid_pointers sim n -> valid_neighbors sim n -> NoDup (visited sim n) ->
  exists s1 s2, compute_densities mass sim = Some s1 /\
    calculate_lambda s1 = Some s2 /\
    forall i p pr, (0 <= i < n)%Z ->
      load (fluid_particle_pointers sim) i = Some p ->
      deref sim p = Some pr ->
      exists pr', deref s2 p = Some pr' /\
        density pr' = density_sum h mass pr (local_neighbors sim i) /\
        lambda pr'
          = - (density_sum h mass pr (local_neighbors sim i) / rd - 1)
            / (pbf_gradient_sum h pr (local_neighbors sim i) + 1).
Proof.
  intros n h rd Hh Hrd Hwf Hnb Hnd.
  destruct (compute_densities_run mass sim Hwf Hnb Hnd)
    as (ps & E1 & Hlen & Hin & Hout).
  set (s1 := set_fluid_particles sim ps) in *.
  assert (forall q qr, deref sim q = Some qr ->
            exists qr', deref s1 q = Some qr' /\
              qr' = set_density qr (density qr')) as Hrel.
  { intros q qr Hq. destruct (decide (q ∈ visited sim n)) as [Hv|Hv].
    - apply elem_of_take in Hv as (j & Hj & Hjn).
      eexists. split.
      + apply (Hin (Z.of_nat j) q qr); [lia| |done].
        apply load_Some. split; [lia|]. by rewrite Nat2Z.id.
      + by rewrite with_density_sum.
    - exists qr. split; [by apply Hout|]. by rewrite set_density_same. }
  assert (forall i, (0 <= i < n)%Z -> exists p pr nb qs,
            local_data s1 i p pr nb qs) as Hdata.
  { intros i Hi. destruct (Hwf i Hi) as (p & pr & Hp & Hpr).
    destruct (Hnb i Hi) as (nb & qs & Hnbi & Hqs).
    destruct (Hrel p pr Hpr) as (pr1 & Hpr1 & _).
    destruct (neighbor_records_after sim s1 nb qs Hrel Hqs)
      as (qs1 & Hqs1 & _).
    by exists p, pr1, nb, qs1. }
  destruct (calculate_lambda_run s1 Hdata) as (s2 & E2 & Hall).
  { intros i j p Hi Hj [_ Hpi]%load_Some [_ Hpj]%load_Some.
    assert (Z.to_nat i = Z.to_nat j); [|lia].
    apply (NoDup_lookup _ _ _ p Hnd); unfold visited;
      rewrite lookup_take_lt by (cbn in *; fold n in Hi, Hj; lia); done. }
  exists s1, s2. split; [exact E1|]. split; [exact E2|].
  intros i p pr Hi Hp Hpr.
  destruct (Hnb i Hi) as (nb & qs & Hnbi & Hqs).
  destruct (neighbor_records_after sim s1 nb qs Hrel Hqs)
    as (qs1 & Hqs1 & Hshape).
  pose proof (Hin i p pr Hi Hp Hpr) as Hp1. rewrite with_density_sum in Hp1.
  fold h in Hp1.
  assert (local_neighbors sim i = qs) as Hloc.
  { unfold local_neighbors. rewrite Hnbi. cbn. by rewrite Hqs. }
  rewrite Hloc in Hp1 |- *.
  set (pr1 := set_density pr (density_sum h mass pr qs)) in *.
  exists (set_lambda pr1 (particle_lambda h rd pr1 qs1)).
  split; [apply (Hall i p pr1 nb qs1); [done|by repeat split]|].
  cbn [density lambda set_lambda set_density pr1]. split; [done|].
  unfold particle_lambda.
  rewrite particle_sum_C_eq, sum_C_scale_one, Rmult_1_r by done.
  by rewrite (gradient_sum_positions h pr pr1 qs qs1).
Qed.

Lemma densities_then_lambda_witness :
  exists s1 s2, compute_densities 1 small_sim = Some s1 /\
    calculate_lambda s1 = Some s2 /\
    exists pr', deref s2 2 = Some pr' /\
      lambda pr' = - (density_sum 1 1 (mkParticle 9 1 9.5 1 0 0 1 0 0 0) [] / 2 - 1)
                   / (pbf_gradient_sum 1 (mkParticle 9 1 9.5 1 0 0 1 0 0 0) [] + 1).
Proof.
  destruct (densities_then_lambda 1 small_sim) as (s1 & s2 & E1 & E2 & Hall);
    [cbn; lra|cbn; lra|exact small_sim_valid_local|exact small_sim_neighbors
    |exact small_sim_distinct|].
  exists s1, s2. split; [exact E1|]. split; [exact E2|].
  destruct (Hall 2%Z 2%Z (mkParticle 9 1 9.5 1 0 0 1 0 0 0))
    as (pr' & Hpr' & _ & Hl); [cbn; lia|done|done|].
  by exists pr'.
Defined.

End FluidStepFacts.
